(** * ComfyUI Pro plugin: admission gate, content policy and response segmenter

    A shallow embedding of the decision logic of [main.py]
    (class [ComfyUIPlugin]) and the proofs of its specification.

    Python strings are sequences of Unicode code points; they are modelled
    as lists of code points ([N]).  Dictionaries are [gmap]s, sets are
    [gset]s, and a set that the code iterates over is given as a list in
    its iteration order. *)

From Stdlib Require Import NArith ZArith QArith List Bool Lia Permutation.
From Stdlib Require Import Strings.String Strings.Ascii Numbers.DecimalString.
From stdpp Require Import base option list gmap.

Local Open Scope N_scope.

(** ** Strings *)

Definition char := N.
Definition str := list N.

(** An ASCII literal of the source, as code points. *)
Definition lit (s : string) : str :=
  List.map N_of_ascii (list_ascii_of_string s).

(** Truthiness of a Python string: the empty string is false. *)
Definition truthy (s : str) : bool :=
  match s with [] => false | _ :: _ => true end.

Definition str_eqb (a b : str) : bool := bool_decide (a = b).

(** [s.startswith(pre)], with what follows the prefix. *)
Fixpoint starts_with (pre s : str) : option str :=
  match pre, s with
  | [], _ => Some s
  | p :: pre', c :: s' => if p =? c then starts_with pre' s' else None
  | _ :: _, [] => None
  end.

(** [sep.join(xs)]. *)
Fixpoint join (sep : str) (xs : list str) : str :=
  match xs with
  | [] => []
  | [x] => x
  | x :: rest => x ++ sep ++ join sep rest
  end.

(** ** Character classes *)

Definition is_upper_ascii (c : char) : bool := (65 <=? c) && (c <=? 90).
Definition is_lower_ascii (c : char) : bool := (97 <=? c) && (c <=? 122).
Definition is_digit_ascii (c : char) : bool := (48 <=? c) && (c <=? 57).
Definition is_letter_ascii (c : char) : bool :=
  is_upper_ascii c || is_lower_ascii c.

(** The class the source writes [[A-Za-z0-9_]], read without flags. *)
Definition is_word_ascii (c : char) : bool :=
  is_letter_ascii c || is_digit_ascii c || (c =? 95).

(** [str.isspace] on one code point, which is also the regex class [\s]
    of a [str] pattern. *)
Definition is_space (c : char) : bool :=
  ((9 <=? c) && (c <=? 13)) || ((28 <=? c) && (c <=? 32))
  || (c =? 0x85) || (c =? 0xA0) || (c =? 0x1680)
  || ((0x2000 <=? c) && (c <=? 0x200A))
  || (c =? 0x2028) || (c =? 0x2029) || (c =? 0x202F) || (c =? 0x205F)
  || (c =? 0x3000).

(** ** Case

    The four code points outside ASCII that take part in the case
    relations of ASCII letters: U+0130 (capital I with dot), U+0131
    (dotless i), U+017F (long s) and U+212A (Kelvin sign). *)

Definition ascii_lower (c : char) : char :=
  if is_upper_ascii c then c + 32 else c.

(** The simple lower-case mapping the regex engine applies to a character
    of the text.  Only the code points whose image is an ASCII letter
    matter for a pattern made of ASCII terms; every other code point is
    mapped outside ASCII and is kept as it is here. *)
Definition sre_lower (c : char) : char :=
  if is_upper_ascii c then c + 32
  else if c =? 0x130 then 0x69
  else if c =? 0x212A then 0x6B
  else c.

(** [re.IGNORECASE] on a literal ASCII character [p] of the pattern against
    a character [c] of the text: an uncased [p] matches itself only; a
    letter matches every character whose lower case is its lower case, and
    [i] and [s] also match dotless i and long s. *)
Definition ci_char (p c : char) : bool :=
  if is_letter_ascii p then
    let lo := ascii_lower p in
    (sre_lower c =? lo)
    || ((lo =? 0x69) && (c =? 0x131))
    || ((lo =? 0x73) && (c =? 0x17F))
  else c =? p.

(** The class [[A-Za-z0-9_]] compiled with [re.IGNORECASE]: the ASCII word
    characters and the four extra letters. *)
Definition is_word_class (c : char) : bool :=
  is_word_ascii c
  || (c =? 0x130) || (c =? 0x131) || (c =? 0x17F) || (c =? 0x212A).

(** [str.lower] on one code point.  It is exact on ASCII and on the four
    extra letters, which are the only code points a match of an ASCII
    pattern can hold, and the only ones whose lower case holds an ASCII
    character; other code points are kept. *)
Definition lower_cp (c : char) : str :=
  if is_upper_ascii c then [c + 32]
  else if c =? 0x130 then [0x69; 0x307]
  else if c =? 0x212A then [0x6B]
  else [c].

Definition py_lower (s : str) : str := flat_map lower_cp s.

(** ** Compiled patterns

    [_build_policy_patterns] compiles, for one tier, the pattern
    [(?<![A-Za-z0-9_])(?:w1|...|wn)(?![A-Za-z0-9_])|p1|...|pm]
    from the escaped word terms [w] and phrase terms [p].  An escaped term
    matches its own text literally, so the compiled pattern is kept as its
    two term lists, in the order of the alternatives. *)

Record pattern := Pattern {
  word_terms : list str;
  phrase_terms : list str
}.

(** A literal term at the head of [rest], ignoring case. *)
Fixpoint lit_match (t rest : str) : bool :=
  match t, rest with
  | [], _ => true
  | p :: t', c :: rest' => ci_char p c && lit_match t' rest'
  | _ :: _, [] => false
  end.

(** [(?<![A-Za-z0-9_])] with [prev] the character before the position. *)
Definition lookbehind_ok (prev : option char) : bool :=
  match prev with
  | None => true
  | Some c => negb (is_word_class c)
  end.

(** [(?![A-Za-z0-9_])] on what follows the matched term. *)
Definition lookahead_ok (t rest : str) : bool :=
  match List.skipn (List.length t) rest with
  | [] => true
  | c :: _ => negb (is_word_class c)
  end.

(** The first alternative: the first word term, in order, that matches
    here and is followed by a boundary. *)
Definition word_branch (ws : list str) (prev : option char) (rest : str)
  : option nat :=
  if lookbehind_ok prev then
    option_map (@List.length char)
      (List.find (fun w => lit_match w rest && lookahead_ok w rest) ws)
  else None.

(** The remaining alternatives: the first phrase term that matches here. *)
Definition phrase_branch (ps : list str) (rest : str) : option nat :=
  option_map (@List.length char) (List.find (fun p => lit_match p rest) ps).

(** One attempt of the whole pattern at a position: the length of the
    match, if any.  The group of word terms is absent from the pattern when
    there is no word term. *)
Definition match_here (pat : pattern) (prev : option char) (rest : str)
  : option nat :=
  match word_branch (word_terms pat) prev rest with
  | Some n => Some n
  | None => phrase_branch (phrase_terms pat) rest
  end.

(** A match object: [m.start()], [m.end()] and [m.group(0)]. *)
Record Match := MkMatch {
  m_start : nat;
  m_end : nat;
  m_group : str
}.

(** [pattern.finditer(text)]: the scan from left to right.  [pos] is the
    index of the head of [rest], [prev] the character before it, and [skip]
    the number of characters still covered by the last match. *)
Fixpoint scan (pat : pattern) (pos : nat) (prev : option char) (skip : nat)
  (rest : str) : list Match :=
  match rest with
  | [] => []
  | c :: tl =>
    match skip with
    | S k => scan pat (S pos) (Some c) k tl
    | O =>
      match match_here pat prev rest with
      | Some len =>
        MkMatch pos (pos + len)%nat (List.firstn len rest)
          :: scan pat (S pos) (Some c) (Nat.pred len) tl
      | None => scan pat (S pos) (Some c) O tl
      end
    end
  end.

Definition finditer (pat : pattern) (text : str) : list Match :=
  scan pat O None O text.

(** ** Events, segments and the plugin object *)

Inductive SegType := SegText | SegPrompt.

(** A segment [{"type": ..., "content": ...}]. *)
Record Segment := MkSegment {
  seg_type : SegType;
  content : str
}.

(** What the code reads from and stores on an [AstrMessageEvent]. *)
Record AstrMessageEvent := MkEvent {
  sender_id : str;
  message_type : option str;
  get_group_id : option str;
  group_id : option str;
  scene_group_id : option str;
  message_str : str;
  _comfy_extracted_prompt : option str;
  _comfy_segments : option (list Segment);
  _comfy_auto_painted : bool
}.

Section Plugin.

(** Time stamps are Python floats.  Their arithmetic is a parameter of the
    development: [tsub] is float subtraction, [tlt] the comparison [<],
    [tint] the conversion [int(...)] and [tzero] the default [0] of
    [user_cooldowns.get]. *)
Variable time : Type.
Variable tsub : time -> time -> time.
Variable tlt : time -> time -> bool.
Variable tint : time -> Z.
Variable tzero : time.

(** The attributes of [ComfyUIPlugin] the admission logic uses.  [policies]
    is a dict whose values are sets: it is kept in insertion order, each set
    in its iteration order. *)
Record ComfyUIPlugin := MkPlugin {
  cooldown_seconds : time;
  user_cooldowns : gmap str time;
  admin_user_ids : gset str;
  lockdown : bool;
  whitelist_group_ids : gset str;
  multi_image_mode : bool;
  default_group_policy : str;
  default_private_policy : str;
  group_policies : gmap str str;
  policies : list (str * list str);
  admin_bypass_whitelist : bool;
  admin_bypass_cooldown : bool;
  admin_bypass_sensitive : bool;
  lexicon : gmap str (list str);
  _policy_patterns : gmap str (option pattern)
}.

Definition set_policy_patterns (self : ComfyUIPlugin)
  (pp : gmap str (option pattern)) : ComfyUIPlugin :=
  MkPlugin (cooldown_seconds self) (user_cooldowns self)
    (admin_user_ids self) (lockdown self) (whitelist_group_ids self)
    (multi_image_mode self) (default_group_policy self)
    (default_private_policy self) (group_policies self) (policies self)
    (admin_bypass_whitelist self) (admin_bypass_cooldown self)
    (admin_bypass_sensitive self) (lexicon self) pp.

Definition set_user_cooldowns (self : ComfyUIPlugin)
  (uc : gmap str time) : ComfyUIPlugin :=
  MkPlugin (cooldown_seconds self) uc
    (admin_user_ids self) (lockdown self) (whitelist_group_ids self)
    (multi_image_mode self) (default_group_policy self)
    (default_private_policy self) (group_policies self) (policies self)
    (admin_bypass_whitelist self) (admin_bypass_cooldown self)
    (admin_bypass_sensitive self) (lexicon self) (_policy_patterns self).

Definition is_admin (self : ComfyUIPlugin) (event : AstrMessageEvent)
  : bool :=
  bool_decide (sender_id event ∈ admin_user_ids self).

(** ** Scope of an event *)

Definition _is_group_message (event : AstrMessageEvent) : bool :=
  match message_type event with
  | Some mt => str_eqb mt (lit "group")
  | None =>
    match get_group_id event with
    | Some gid => if truthy gid then true else bool_decide (is_Some (group_id event))
    | None => bool_decide (is_Some (group_id event))
    end
  end.

Definition truthy_opt (o : option str) : option str :=
  match o with
  | Some s => if truthy s then Some s else None
  | None => None
  end.

Definition _get_group_id (event : AstrMessageEvent) : option str :=
  if negb (_is_group_message event) then None
  else
    match truthy_opt (get_group_id event) with
    | Some gid => Some gid
    | None =>
      match truthy_opt (group_id event) with
      | Some gid => Some gid
      | None => truthy_opt (scene_group_id event)
      end
    end.

(** ** Policy compiler *)

Definition _is_ascii_term (s : str) : bool := forallb (fun ch => ch <? 128) s.

(** [" " in t]. *)
Definition has_space (t : str) : bool := existsb (N.eqb 32) t.

(** [list(dict.fromkeys(xs))]: the first occurrence of each item, in
    order. *)
Definition fromkeys (xs : list str) : list str :=
  fold_left (fun acc x => if bool_decide (x ∈ acc) then acc else acc ++ [x])
    xs [].

(** One step of the inner loop over the terms of a category. *)
Definition add_term (acc : list str * list str) (t : str)
  : list str * list str :=
  if negb (truthy t) then acc
  else if _is_ascii_term t then
    if has_space t then (acc.1, acc.2 ++ [t]) else (acc.1 ++ [t], acc.2)
  else acc.

(** The two loops of [_build_policy_patterns] over the categories of a tier
    and the terms of each category: (word terms, phrase terms). *)
Definition collect_terms (lex : gmap str (list str)) (cats : list str)
  : list str * list str :=
  fold_left
    (fun acc cat => fold_left add_term (default [] (lex !! cat)) acc)
    cats ([], []).

(** The pattern of one tier, [None] when the tier has no term. *)
Definition compile_tier (lex : gmap str (list str)) (cats : list str)
  : option pattern :=
  let '(ws, ps) := collect_terms lex cats in
  let word_terms := fromkeys ws in
  let phrase_terms := fromkeys ps in
  match word_terms, phrase_terms with
  | [], [] => None
  | _, _ => Some (Pattern word_terms phrase_terms)
  end.

Definition _build_policy_patterns (self : ComfyUIPlugin) : ComfyUIPlugin :=
  set_policy_patterns self
    (fold_left
       (fun pp '(policy, cats) =>
          <[policy := compile_tier (lexicon self) cats]> pp)
       (policies self) (_policy_patterns self)).

(** ** Policy resolver *)

Definition _get_policy_for_event (self : ComfyUIPlugin)
  (event : AstrMessageEvent) : str :=
  if _is_group_message event then
    match _get_group_id event with
    | None => default_group_policy self
    | Some gid => default (default_group_policy self) (group_policies self !! gid)
    end
  else default_private_policy self.

(** ** Sensitive-word search *)

(** The loop over the matches: [seen] holds the lower-cased matches
    reported so far, [result] the reported matches. *)
Definition dedup_step (st : list str * list str) (m : Match)
  : list str * list str :=
  let w := m_group m in
  let key := py_lower w in
  if bool_decide (key ∈ st.1) then st else (st.1 ++ [key], st.2 ++ [w]).

Definition report (ms : list Match) : list str :=
  (fold_left dedup_step ms ([], [])).2.

(** The search once the tier name is known. *)
Definition find_with_policy (self : ComfyUIPlugin) (policy : str)
  (text : str) : list str :=
  if str_eqb policy (lit "none") then []
  else
    match _policy_patterns self !! py_lower policy with
    | Some (Some ascii_pat) => report (finditer ascii_pat text)
    | _ => []
    end.

Definition _find_sensitive_words (self : ComfyUIPlugin) (text : str)
  (event : option AstrMessageEvent) : list str :=
  if negb (truthy text) then []
  else
    let policy :=
      match event with
      | Some e => _get_policy_for_event self e
      | None => lit "full"
      end in
    find_with_policy self policy text.

(** [(passed, matched terms)]. *)
Definition _check_sensitive (self : ComfyUIPlugin) (prompt : str)
  (event : AstrMessageEvent) : bool * list str :=
  let sensitive := _find_sensitive_words self prompt (Some event) in
  match sensitive with
  | [] => (true, [])
  | _ :: _ =>
    if is_admin self event && admin_bypass_sensitive self then (true, [])
    else (false, sensitive)
  end.

(** ** Cooldown

    [time.time()] is read once by the check; it is the argument
    [current_time].  The result is [(passed, remaining seconds)] and the
    plugin with its cooldown table after the call. *)

Definition _check_cooldown (self : ComfyUIPlugin) (event : AstrMessageEvent)
  (current_time : time) : (bool * Z) * ComfyUIPlugin :=
  if is_admin self event && admin_bypass_cooldown self then
    ((true, 0%Z), self)
  else
    let user_id := sender_id event in
    let last_time := default tzero (user_cooldowns self !! user_id) in
    let elapsed := tsub current_time last_time in
    if tlt elapsed (cooldown_seconds self) then
      let remain := tint (tsub (cooldown_seconds self) elapsed) in
      ((false, remain), self)
    else
      ((true, 0%Z),
       set_user_cooldowns self (<[user_id := current_time]> (user_cooldowns self))).

(** ** Rejection messages of the content-policy check *)

(** [str(n)] for a length or an index. *)
Definition str_of_nat (n : nat) : str :=
  lit (NilEmpty.string_of_uint (Nat.to_uint n)).

(** The literals of the three messages, as code points. *)
Definition SEP : str := [0x3001].
Definition DETECTED : str :=
  [0x1F6AB; 0x20; 0x68C0; 0x6D4B; 0x5230; 0x654F; 0x611F; 0x8BCD; 0xFF1A].
Definition CANNOT_PAINT : str :=
  [0xFF0C; 0x65E0; 0x6CD5; 0x751F; 0x6210; 0x56FE; 0x7247].
Definition CANNOT_GENERATE : str :=
  [0xFF0C; 0x65E0; 0x6CD5; 0x751F; 0x6210].
Definition ETC : str := [0x7B49; 0x20].
Definition ITEMS : str := [0x20; 0x4E2A].
Definition IMAGE_OPEN : str := [0x1F6AB; 0x20; 0x5B; 0x56FE; 0x7247].
Definition IMAGE_CLOSE : str :=
  [0x5D; 0x20; 0x68C0; 0x6D4B; 0x5230; 0x654F; 0x611F; 0x8BCD; 0xFF1A].

(** [_handle_paint_logic]: the first five terms, and the number of all
    matched terms when there are more than five. *)
Definition paint_rejection (sensitive : list str) : str :=
  let tip := join SEP (List.firstn 5 sensitive) in
  let extra :=
    if (5 <? List.length sensitive)%nat
    then ETC ++ str_of_nat (List.length sensitive) ++ ITEMS
    else [] in
  DETECTED ++ tip ++ extra ++ CANNOT_PAINT.

(** [comfyui_txt2img]: the first five terms. *)
Definition txt2img_rejection (sensitive : list str) : str :=
  let tip := join SEP (List.firstn 5 sensitive) in
  DETECTED ++ tip ++ CANNOT_GENERATE.

(** [_auto_paint_from_llm], one pair of a batch: the text of the pair, the
    index of the image and the first three terms. *)
Definition batch_rejection (text_content : str) (img_idx : nat)
  (sensitive : list str) : str :=
  let tip := join SEP (List.firstn 3 sensitive) in
  text_content ++ [10] ++ IMAGE_OPEN ++ str_of_nat img_idx ++ IMAGE_CLOSE
    ++ tip.

(** The content-policy step of each call path: [Some] message when the
    request is rejected there, [None] when the path goes on. *)
Definition _handle_paint_logic_policy (self : ComfyUIPlugin) (prompt : str)
  (event : AstrMessageEvent) : option str :=
  let '(passed, sensitive) := _check_sensitive self prompt event in
  if passed then None else Some (paint_rejection sensitive).

Definition comfyui_txt2img_policy (self : ComfyUIPlugin) (prompt : str)
  (event : AstrMessageEvent) : option str :=
  let '(passed, sensitive) := _check_sensitive self prompt event in
  if passed then None else Some (txt2img_rejection sensitive).

Definition _auto_paint_from_llm_policy (self : ComfyUIPlugin)
  (text_content : str) (img_idx : nat) (prompt_content : str)
  (event : AstrMessageEvent) : option str :=
  let '(passed, sensitive) := _check_sensitive self prompt_content event in
  if passed then None
  else Some (batch_rejection text_content img_idx sensitive).

End Plugin.

Arguments MkPlugin {time}.
Arguments cooldown_seconds {time}.
Arguments user_cooldowns {time}.
Arguments admin_user_ids {time}.
Arguments lockdown {time}.
Arguments whitelist_group_ids {time}.
Arguments multi_image_mode {time}.
Arguments default_group_policy {time}.
Arguments default_private_policy {time}.
Arguments group_policies {time}.
Arguments policies {time}.
Arguments admin_bypass_whitelist {time}.
Arguments admin_bypass_cooldown {time}.
Arguments admin_bypass_sensitive {time}.
Arguments lexicon {time}.
Arguments _policy_patterns {time}.
Arguments set_policy_patterns {time}.
Arguments set_user_cooldowns {time}.
Arguments is_admin {time}.
Arguments _build_policy_patterns {time}.
Arguments _get_policy_for_event {time}.
Arguments find_with_policy {time}.
Arguments _find_sensitive_words {time}.
Arguments _check_sensitive {time}.
Arguments _check_cooldown {time}.
Arguments _handle_paint_logic_policy {time}.
Arguments comfyui_txt2img_policy {time}.
Arguments _auto_paint_from_llm_policy {time}.

(** ** Response segmenter *)

(** The delimiters [<...>] and [</...>] around the three characters
    U+63D0 U+793A U+8BCD, and the label those three characters make with
    U+662F. *)
Definition OPEN_TAG : str := [0x3C; 0x63D0; 0x793A; 0x8BCD; 0x3E].
Definition CLOSE_TAG : str := [0x3C; 0x2F; 0x63D0; 0x793A; 0x8BCD; 0x3E].
Definition LABEL : str := [0x63D0; 0x793A; 0x8BCD; 0x662F].

(** The first occurrence of a literal: what is before it and after it. *)
Fixpoint find_lit (needle s : str) : option (str * str) :=
  match starts_with needle s with
  | Some after => Some ([], after)
  | None =>
    match s with
    | [] => None
    | c :: s' =>
      match find_lit needle s' with
      | Some (before, after) => Some (c :: before, after)
      | None => None
      end
    end
  end.

(** The matches of the pattern [OPEN(.*?)CLOSE] with [re.DOTALL], from the
    left and without overlap: for each match the text between the previous
    match and this one and the captured group, then the text after the last
    match.  A match starts at the first opening tag and ends at the first
    closing tag after it; [fuel] bounds the number of matches. *)
Fixpoint tag_scan (fuel : nat) (s : str) : list (str * str) * str :=
  match fuel with
  | O => ([], s)
  | S n =>
    match find_lit OPEN_TAG s with
    | None => ([], s)
    | Some (before, inner) =>
      match find_lit CLOSE_TAG inner with
      | None => ([], s)
      | Some (captured, after) =>
        let '(ms, tail) := tag_scan n after in
        ((before, captured) :: ms, tail)
      end
    end
  end.

Definition tag_matches (s : str) : list (str * str) * str :=
  tag_scan (List.length s) s.

(** [re.findall(pattern, full_text, flags=re.DOTALL)]: the captured
    groups. *)
Definition re_findall_tags (full_text : str) : list str :=
  List.map snd (tag_matches full_text).1.

(** [re.split(pattern, full_text, flags=re.DOTALL)]: the text around the
    matches. *)
Definition re_split_tags (full_text : str) : list str :=
  List.map fst (tag_matches full_text).1 ++ [(tag_matches full_text).2].

Fixpoint lstrip_by (f : char -> bool) (s : str) : str :=
  match s with
  | [] => []
  | c :: s' => if f c then lstrip_by f s' else s
  end.

Definition rstrip_by (f : char -> bool) (s : str) : str :=
  List.rev (lstrip_by f (List.rev s)).

(** [s.strip()] and [s.strip(chars)]. *)
Definition strip_by (f : char -> bool) (s : str) : str :=
  rstrip_by f (lstrip_by f s).

Definition strip (s : str) : str := strip_by is_space s.

(** The characters of the second [strip]: backquote, double quote and
    quote. *)
Definition is_wrapper (c : char) : bool :=
  (c =? 0x60) || (c =? 0x22) || (c =? 0x27).

Definition is_colon (c : char) : bool := (c =? 0x3A) || (c =? 0xFF1A).

(** [re.sub(r'^LABEL\s*[:...]?\s*', '', p)]: the pattern is anchored at the
    start, so at most one occurrence is removed. *)
Definition strip_label (p : str) : str :=
  match starts_with LABEL p with
  | None => p
  | Some r =>
    let r1 := lstrip_by is_space r in
    let r2 :=
      match r1 with
      | c :: r' => if is_colon c then r' else r1
      | [] => r1
      end in
    lstrip_by is_space r2
  end.

Definition clean_prompt (p : str) : str :=
  let p := strip (strip_label p) in
  strip (strip_by is_wrapper p).

(** The loop that keeps the prompts that are not empty once cleaned. *)
Definition clean_prompts (prompts : list str) : list str :=
  fold_left
    (fun cleaned p =>
       let p := clean_prompt p in
       if truthy p then cleaned ++ [p] else cleaned)
    prompts [].

(** One round of the loop over the chunks: the state is the segment list
    and [prompt_idx]. *)
Definition segment_step (cleaned_prompts : list str)
  (st : list Segment * nat) (text : str) : list Segment * nat :=
  let text := strip text in
  let segments :=
    if truthy text then st.1 ++ [MkSegment SegText text] else st.1 in
  match List.nth_error cleaned_prompts st.2 with
  | Some p => (segments ++ [MkSegment SegPrompt p], S st.2)
  | None => (segments, st.2)
  end.

Definition build_segments (parts cleaned_prompts : list str)
  : list Segment :=
  (fold_left (segment_step cleaned_prompts) parts ([], O)).1.

Definition set_extracted_prompt (event : AstrMessageEvent) (p : str)
  : AstrMessageEvent :=
  MkEvent (sender_id event) (message_type event) (get_group_id event)
    (group_id event) (scene_group_id event) (message_str event)
    (Some p) (_comfy_segments event) (_comfy_auto_painted event).

Definition set_segments (event : AstrMessageEvent) (segs : list Segment)
  : AstrMessageEvent :=
  MkEvent (sender_id event) (message_type event) (get_group_id event)
    (group_id event) (scene_group_id event) (message_str event)
    (_comfy_extracted_prompt event) (Some segs) (_comfy_auto_painted event).

(** [_extract_prompt_before_filter]: [resp] is the completion text, [None]
    when there is no response or no text.  The result is the event with
    the attributes the handler stored on it. *)
Definition _extract_prompt_before_filter {time : Type}
  (self : ComfyUIPlugin time) (event : AstrMessageEvent)
  (resp : option str) : AstrMessageEvent :=
  match resp with
  | None => event
  | Some full_text =>
    if negb (truthy full_text) then event
    else
      let prompts := re_findall_tags full_text in
      match prompts with
      | [] => event
      | _ :: _ =>
        let cleaned_prompts := clean_prompts prompts in
        match cleaned_prompts with
        | [] => event
        | [p] => set_extracted_prompt event p
        | first :: _ :: _ =>
          if multi_image_mode self then
            let parts := re_split_tags full_text in
            let segments := build_segments parts cleaned_prompts in
            match segments with
            | [] => event
            | _ :: _ => set_segments event segments
            end
          else set_extracted_prompt event first
        end
      end
  end.

(** ** Pairing for delivery *)

(** A pair [{"text": ..., "prompt": ...}], [None] for a missing prompt. *)
Record DeliveryPair := MkPair {
  text : str;
  prompt : option str
}.

(** One round of the loop over the segments: the state is [pairs] and
    [current_text]. *)
Definition pair_step (st : list DeliveryPair * str) (segment : Segment)
  : list DeliveryPair * str :=
  match seg_type segment with
  | SegText => (st.1, content segment)
  | SegPrompt => (st.1 ++ [MkPair st.2 (Some (content segment))], [])
  end.

Definition build_pairs (segments : list Segment) : list DeliveryPair :=
  let '(pairs, current_text) := fold_left pair_step segments ([], []) in
  if truthy current_text then pairs ++ [MkPair current_text None]
  else pairs.

(** The walk of the specification: a pending text, replaced by each text
    segment, attached to the next prompt segment and then emptied; what is
    left at the end makes a last pair without prompt. *)
Fixpoint walk_pairs (pending : str) (segments : list Segment)
  : list DeliveryPair :=
  match segments with
  | [] => if truthy pending then [MkPair pending None] else []
  | s :: rest =>
    match seg_type s with
    | SegText => walk_pairs (content s) rest
    | SegPrompt => MkPair pending (Some (content s)) :: walk_pairs [] rest
    end
  end.

(** The last test of the pairing loop, on the state the loop ends with. *)
Definition finish_pairs (st : list DeliveryPair * str) : list DeliveryPair :=
  if truthy st.2 then st.1 ++ [MkPair st.2 None] else st.1.

(** The pairs emitted by the loop before its last test, and the pending
    text it ends with. *)
Definition emitted (segments : list Segment) : list DeliveryPair :=
  (fold_left pair_step segments ([], [])).1.

Definition pending_after (segments : list Segment) : str :=
  (fold_left pair_step segments ([], [])).2.

(** The usable prompts of a completion: the captured groups, cleaned, that
    are not empty. *)
Definition usable_prompts (full_text : str) : list str :=
  List.filter truthy (List.map clean_prompt (re_findall_tags full_text)).

(** ** Instances for the examples

    Exact rational time stamps: subtraction, [<] and truncation towards
    zero. *)
Definition Qtime_lt (a b : Q) : bool := negb (Qle_bool b a).
Definition Qtime_int (q : Q) : Z := Z.quot (Qnum q) (Z.pos (Qden q)).

(** The table [__init__] stores in [policies], with the categories of the
    [full] tier in the order [full_order]. *)
Definition LEGACY_LITE : str := lit "legacy_lite".

Definition full_categories : list str :=
  [ LEGACY_LITE; lit "minors"; lit "sexual_violence";
    lit "bestiality_incest_necrophilia"; lit "violence_gore";
    lit "scat_urine_vomit"; lit "self_harm"; lit "sexual"; lit "nudity";
    lit "fetish" ].

Definition init_policies (full_order : list str) : list (str * list str) :=
  [ (lit "none", []); (lit "lite", [LEGACY_LITE]); (lit "full", full_order) ].

(** The attributes [__init__] sets before it compiles the patterns, for a
    lexicon, a cooldown table and the scope settings (one administrator,
    every bypass flag as given), and the plugin once the patterns are
    compiled. *)
Definition sample_config (lex : gmap str (list str))
  (cooldowns : gmap str Q) (multi : bool) (group_default : str)
  (bypass : bool) : ComfyUIPlugin Q :=
  MkPlugin 60%Q cooldowns {[ lit "admin" ]} false ∅ multi
    group_default (lit "none") ∅ (init_policies full_categories)
    bypass bypass bypass lex ∅.

Definition sample_plugin (lex : gmap str (list str))
  (cooldowns : gmap str Q) (multi : bool) (group_default : str)
  (bypass : bool) : ComfyUIPlugin Q :=
  _build_policy_patterns (sample_config lex cooldowns multi group_default bypass).

(** A group message of a sender, and a private message. *)
Definition group_event (sender gid : str) : AstrMessageEvent :=
  MkEvent sender (Some (lit "group")) (Some gid) None None [] None None false.

Definition private_event (sender : str) : AstrMessageEvent :=
  MkEvent sender (Some (lit "private")) None None None [] None None false.

(** A completion used by the examples:
    [draw this OPEN a cat CLOSE please]. *)
Definition single_prompt_text : str :=
  lit "draw this " ++ OPEN_TAG ++ lit "a cat" ++ CLOSE_TAG ++ lit " please".

(** [sub in s] for strings. *)
Definition occurs (sub s : str) : bool :=
  match find_lit sub s with Some _ => true | None => false end.

(** A lexicon with six word terms in the category of the [lite] tier, and
    a prompt that holds the six of them. *)
Definition six_terms : list str :=
  [lit "aa"; lit "bb"; lit "cc"; lit "dd"; lit "ee"; lit "ff"].

Definition six_terms_lexicon : gmap str (list str) :=
  {[ LEGACY_LITE := six_terms ]}.

Definition six_terms_prompt : str := lit "aa bb cc dd ee ff".

(** ** Tier names stored in the plugin

    [__init__] lower-cases the two default tiers and the tiers of
    [group_policies] it reads from the configuration. *)
Definition load_policy_settings {time : Type} (self : ComfyUIPlugin time)
  (conf_default_group conf_default_private : str)
  (conf_group_policies : gmap str str) : ComfyUIPlugin time :=
  MkPlugin (cooldown_seconds self) (user_cooldowns self)
    (admin_user_ids self) (lockdown self) (whitelist_group_ids self)
    (multi_image_mode self) (py_lower conf_default_group)
    (py_lower conf_default_private) (py_lower <$> conf_group_policies)
    (policies self)
    (admin_bypass_whitelist self) (admin_bypass_cooldown self)
    (admin_bypass_sensitive self) (lexicon self) (_policy_patterns self).

(** The update of [cmd_set_policy], once its access checks are passed:
    the level is lower-cased and must be a key of [policies]; [None] is the
    refusal of an invalid level. *)
Definition set_group_policy {time : Type} (self : ComfyUIPlugin time)
  (gid arg : str) : option (ComfyUIPlugin time) :=
  let level := py_lower arg in
  if bool_decide (level ∈ List.map fst (policies self)) then
    Some (MkPlugin (cooldown_seconds self) (user_cooldowns self)
            (admin_user_ids self) (lockdown self) (whitelist_group_ids self)
            (multi_image_mode self) (default_group_policy self)
            (default_private_policy self)
            (<[gid := level]> (group_policies self))
            (policies self)
            (admin_bypass_whitelist self) (admin_bypass_cooldown self)
            (admin_bypass_sensitive self) (lexicon self)
            (_policy_patterns self))
  else None.

(** Every tier name stored in the plugin is its own lower case. *)
Definition policy_names_lowered {time : Type} (self : ComfyUIPlugin time)
  : Prop :=
  py_lower (default_group_policy self) = default_group_policy self
  /\ py_lower (default_private_policy self) = default_private_policy self
  /\ map_Forall (fun (_ : str) (v : str) => py_lower v = v)
       (group_policies self).

(** The names of the three tiers. *)
Definition tier_names : list str := [lit "none"; lit "lite"; lit "full"].

(** ** Notions used by the statements about the matcher *)

(** The character before index [i] of a text, [None] at the start. *)
Definition char_before (text : str) (i : nat) : option char :=
  match i with
  | O => None
  | S j => List.nth_error text j
  end.

(** [occurrence] is the term [t] up to case, character by character, as
    the pattern sees it. *)
Definition ci_equal (t occurrence : str) : bool :=
  (List.length t =? List.length occurrence)%nat && lit_match t occurrence.

(** The character before a position reached after reading [pre], when the
    character before [pre] is [prev]. *)
Definition prev_after (prev : option char) (pre : str) : option char :=
  match last pre with
  | Some c => Some c
  | None => prev
  end.

(** The span of a match. *)
Definition span (m : Match) : nat * nat := (m_start m, m_end m).

(** [w] is a first occurrence in [gs]: no item before it has its lower
    case. *)
Definition first_occurrence (w : str) (gs : list str) : Prop :=
  exists before after : list str,
    gs = before ++ w :: after
    /\ forall w' : str, In w' before -> py_lower w' <> py_lower w.

(** The first occurrences of a list, by lower case, given the keys already
    seen. *)
Fixpoint first_by_key (seen : list str) (ws : list str) : list str :=
  match ws with
  | [] => []
  | w :: rest =>
    if bool_decide (py_lower w ∈ seen) then first_by_key seen rest
    else w :: first_by_key (seen ++ [py_lower w]) rest
  end.

(** The terms of the categories of a tier, in the order of the two loops,
    and the two classes of terms the compiler keeps. *)
Definition all_terms (lex : gmap str (list str)) (cats : list str)
  : list str :=
  flat_map (fun cat => default [] (lex !! cat)) cats.

Definition is_word_term (t : str) : bool :=
  truthy t && _is_ascii_term t && negb (has_space t).

Definition is_phrase_term (t : str) : bool :=
  truthy t && _is_ascii_term t && has_space t.

(** [m] is a match of [pat] in [text]: the pattern matches [len] characters
    at the position after [pre]. *)
Definition match_at (pat : pattern) (text : str) (m : Match) : Prop :=
  exists (pre suf : str) (len : nat),
    text = pre ++ suf
    /\ m_start m = List.length pre
    /\ m_end m = (List.length pre + len)%nat
    /\ m_group m = List.firstn len suf
    /\ match_here pat (last pre) suf = Some len.

(** The lexicon of the examples about word boundaries and case: two word
    terms in the category of the [lite] tier. *)
Definition cat_lexicon : gmap str (list str) :=
  {[ LEGACY_LITE := [lit "cat"; lit "foo"] ]}.

(** The only match of the pattern of that lexicon in [a cat sat]. *)
Definition cat_match : Match := MkMatch 2 5 (lit "cat").

(** The tier [_find_sensitive_words] searches with: the tier of the event,
    [full] without event. *)
Definition event_policy {time : Type} (self : ComfyUIPlugin time)
  (event : option AstrMessageEvent) : str :=
  match event with
  | Some e => _get_policy_for_event self e
  | None => lit "full"
  end.

(** The matches the search iterates over: those of the pattern of the
    tier, none when the tier is [none] or has no pattern. *)
Definition tier_matches {time : Type} (self : ComfyUIPlugin time)
  (policy : str) (text : str) : list Match :=
  if str_eqb policy (lit "none") then []
  else
    match _policy_patterns self !! py_lower policy with
    | Some (Some ascii_pat) => finditer ascii_pat text
    | _ => []
    end.

(** A lexicon whose only category is named [full], the name the default
    lexicon of [__init__] gives to its second category. *)
Definition other_category_lexicon : gmap str (list str) :=
  {[ lit "full" := [lit "badword"] ]}.

(** ** The walk of the segmenter, as the specification words it

    For each chunk: the trimmed chunk as a text segment when it is not
    empty, then the next prompt that is left, if any. *)
Definition text_segment (chunk : str) : list Segment :=
  let text := strip chunk in
  if truthy text then [MkSegment SegText text] else [].

Fixpoint interleave (chunks prompts : list str) : list Segment :=
  match chunks with
  | [] => []
  | chunk :: chunks' =>
    text_segment chunk
    ++ match prompts with
       | [] => interleave chunks' []
       | p :: prompts' => MkSegment SegPrompt p :: interleave chunks' prompts'
       end
  end.

Definition is_text (s : Segment) : bool :=
  match seg_type s with SegText => true | SegPrompt => false end.

Definition is_prompt (s : Segment) : bool :=
  match seg_type s with SegText => false | SegPrompt => true end.

Definition same_type (a b : Segment) : bool :=
  (is_text a && is_text b) || (is_prompt a && is_prompt b).

(** No two adjacent segments have the same type. *)
Fixpoint alternating (segments : list Segment) : bool :=
  match segments with
  | a :: rest =>
    match rest with
    | b :: _ => negb (same_type a b) && alternating rest
    | [] => true
    end
  | [] => true
  end.

(** No two adjacent segments are text segments. *)
Fixpoint no_adjacent_text (segments : list Segment) : bool :=
  match segments with
  | a :: rest =>
    match rest with
    | b :: _ => negb (is_text a && is_text b) && no_adjacent_text rest
    | [] => true
    end
  | [] => true
  end.

(** A chunk that is not empty once trimmed. *)
Definition not_blank (chunk : str) : bool := truthy (strip chunk).

(** The chunks between two tags: all the chunks but the first and the
    last. *)
Definition inner_chunks (chunks : list str) : list str :=
  List.removelast (List.tl chunks).

(** Completions of the examples: two tags in a row; the example of the
    specification with two prompts; a blank prompt before two prompts. *)
Definition adjacent_tags_text : str :=
  OPEN_TAG ++ lit "a" ++ CLOSE_TAG ++ OPEN_TAG ++ lit "b" ++ CLOSE_TAG.

Definition two_prompts_text : str :=
  lit "intro " ++ OPEN_TAG ++ lit "p1" ++ CLOSE_TAG ++ lit " middle "
    ++ OPEN_TAG ++ lit "p2" ++ CLOSE_TAG ++ lit " tail".

Definition blank_prompt_text : str :=
  lit "x" ++ OPEN_TAG ++ lit " " ++ CLOSE_TAG ++ lit "y" ++ OPEN_TAG
    ++ lit "a" ++ CLOSE_TAG ++ lit "z" ++ OPEN_TAG ++ lit "b" ++ CLOSE_TAG
    ++ lit "w".

(** The text a list of matches and a last chunk come from. *)
Definition rebuild (ms : list (str * str)) (tail : str) : str :=
  flat_map (fun m => m.1 ++ OPEN_TAG ++ m.2 ++ CLOSE_TAG) ms ++ tail.

(** ** Access check *)

(** The three reasons of [_check_access], as code points; the last one
    holds the group id between its two parts. *)
Definition LOCKDOWN_REASON : str :=
  [0x1F512; 0x20; 0x5168; 0x5C40; 0x9501; 0x5B9A; 0x4E2D; 0xFF0C; 0x4EC5;
   0x7BA1; 0x7406; 0x5458; 0x53EF; 0x7528].
Definition NO_GROUP_ID_REASON : str :=
  [0x26A0; 0xFE0F; 0x20; 0x65E0; 0x6CD5; 0x83B7; 0x53D6; 0x7FA4; 0x53F7].
Definition NOT_WHITELISTED_OPEN : str := [0x1F6AB; 0x20; 0x672C; 0x7FA4; 0x28].
Definition NOT_WHITELISTED_CLOSE : str :=
  [0x29; 0x4E0D; 0x5728; 0x767D; 0x540D; 0x5355; 0x4E2D].

(** [(allowed, reason)]. *)
Definition _check_access {time : Type} (self : ComfyUIPlugin time)
  (event : AstrMessageEvent) : bool * str :=
  if lockdown self && negb (is_admin self event) then
    (false, LOCKDOWN_REASON)
  else if _is_group_message event then
    match _get_group_id event with
    | None => (false, NO_GROUP_ID_REASON)
    | Some gid =>
      if bool_decide (gid ∈ whitelist_group_ids self) then (true, [])
      else if is_admin self event && admin_bypass_whitelist self then
        (true, [])
      else (false, NOT_WHITELISTED_OPEN ++ gid ++ NOT_WHITELISTED_CLOSE)
    end
  else (true, []).

(** The same event sent by another user. *)
Definition with_sender (event : AstrMessageEvent) (sender : str)
  : AstrMessageEvent :=
  MkEvent sender (message_type event) (get_group_id event)
    (group_id event) (scene_group_id event) (message_str event)
    (_comfy_extracted_prompt event) (_comfy_segments event)
    (_comfy_auto_painted event).

(** A plugin with a lockdown flag, a whitelist and the whitelist bypass
    as given, and the administrator [admin]. *)
Definition gate_plugin (locked : bool) (whitelist : gset str)
  (bypass : bool) : ComfyUIPlugin Q :=
  MkPlugin 60%Q ∅ {[ lit "admin" ]} locked whitelist false
    (lit "none") (lit "none") ∅ (init_policies full_categories)
    bypass true true ∅ ∅.

(** ** Several cooldown checks in a row *)

Section CooldownRuns.

Variable time : Type.
Variable tsub : time -> time -> time.
Variable tlt : time -> time -> bool.
Variable tint : time -> Z.
Variable tzero : time.

(** The checks of one user at the times of a list, each on the plugin the
    previous one left: the results, and the plugin at the end. *)
Definition check_cooldown_run (self : ComfyUIPlugin time)
  (event : AstrMessageEvent) (times : list time)
  : list (bool * Z) * ComfyUIPlugin time :=
  fold_left
    (fun st t =>
       let r := _check_cooldown tsub tlt tint tzero st.2 event t in
       (st.1 ++ [r.1], r.2))
    times ([], self).

End CooldownRuns.

Arguments check_cooldown_run {time}.

(** ** Lexicons of the examples about the terms that are compiled *)

(** A lexicon with a term that is not ASCII (U+732B), an empty term and the
    term [cat] twice, and the same lexicon without its term that is not
    ASCII. *)
Definition mixed_lexicon : gmap str (list str) :=
  {[ LEGACY_LITE := [[0x732B]; []; lit "cat"; lit "cat"; lit "a b"] ]}.

(** A lexicon whose only term is not ASCII. *)
Definition non_ascii_lexicon : gmap str (list str) :=
  {[ LEGACY_LITE := [[0x732B]] ]}.

(** ** The tier command *)

(** [s.split()]: the words between runs of white space.  [word] is the
    word being read. *)
Fixpoint py_split_from (word : str) (s : str) : list str :=
  match s with
  | [] => match word with [] => [] | _ :: _ => [word] end
  | c :: s' =>
    if is_space c then
      match word with
      | [] => py_split_from [] s'
      | _ :: _ => word :: py_split_from [] s'
      end
    else py_split_from (word ++ [c]) s'
  end.

Definition py_split (s : str) : list str := py_split_from [] s.

(** The replies of [cmd_set_policy], as code points; the reply with the
    current tier holds it between its two parts, the confirmation ends
    with the new tier. *)
Definition GROUP_ONLY : str :=
  [0x26A0; 0xFE0F; 0x20; 0x8BE5; 0x6307; 0x4EE4; 0x4EC5; 0x652F; 0x6301;
   0x5728; 0x7FA4; 0x804A; 0x4E2D; 0x4F7F; 0x7528].
Definition NOT_ADMIN : str :=
  [0x1F6AB; 0x20; 0x6743; 0x9650; 0x4E0D; 0x8DB3; 0xFF0C; 0x4EC5; 0x7BA1;
   0x7406; 0x5458; 0x53EF; 0x4FEE; 0x6539; 0x8FDD; 0x7981; 0x7EA7; 0x522B].
Definition UNKNOWN_GID : str := [0x672A; 0x77E5].
Definition INVALID_LEVEL : str :=
  [0x274C; 0x20; 0x65E0; 0x6548; 0x7EA7; 0x522B; 0xFF0C; 0x53EF; 0x9009;
   0xFF1A; 0x6E; 0x6F; 0x6E; 0x65; 0x20; 0x2F; 0x20; 0x6C; 0x69; 0x74;
   0x65; 0x20; 0x2F; 0x20; 0x66; 0x75; 0x6C; 0x6C].
Definition LEVEL_SET : str :=
  [0x2705; 0x20; 0x5DF2; 0x5C06; 0x672C; 0x7FA4; 0x8FDD; 0x7981; 0x7EA7;
   0x522B; 0x8BBE; 0x7F6E; 0x4E3A; 0xFF1A].
Definition LEVEL_INFO_OPEN : str :=
  [0x1F4CA; 0x20; 0x672C; 0x7FA4; 0x5F53; 0x524D; 0x8FDD; 0x7981;
   0x7EA7; 0x522B; 0xFF1A].
Definition LEVEL_INFO_CLOSE : str :=
  [0xA; 0x2501; 0x2501; 0x2501; 0x2501; 0x2501; 0x2501; 0x2501;
   0x2501; 0x2501; 0x2501; 0x2501; 0x2501; 0x2501; 0x2501; 0xA;
   0x53EF; 0x9009; 0x7EA7; 0x522B; 0xFF1A; 0xA; 0x20; 0x20; 0x6E;
   0x6F; 0x6E; 0x65; 0x20; 0x2D; 0x20; 0x4E0D; 0x8FC7; 0x6EE4; 0xA;
   0x20; 0x20; 0x6C; 0x69; 0x74; 0x65; 0x20; 0x2D; 0x20; 0x8F7B;
   0x5EA6; 0x8FC7; 0x6EE4; 0xA; 0x20; 0x20; 0x66; 0x75; 0x6C; 0x6C;
   0x20; 0x2D; 0x20; 0x5B8C; 0x5168; 0x8FC7; 0x6EE4; 0xA; 0x2501;
   0x2501; 0x2501; 0x2501; 0x2501; 0x2501; 0x2501; 0x2501; 0x2501;
   0x2501; 0x2501; 0x2501; 0x2501; 0x2501; 0xA; 0x7528; 0x6CD5;
   0xFF1A; 0x2F; 0x8FDD; 0x7981; 0x7EA7; 0x522B; 0x20; 0x3C; 0x7EA7;
   0x522B; 0x3E].

(** The plugin with another table of group tiers. *)
Definition set_group_policies {time : Type} (self : ComfyUIPlugin time)
  (gp : gmap str str) : ComfyUIPlugin time :=
  MkPlugin (cooldown_seconds self) (user_cooldowns self)
    (admin_user_ids self) (lockdown self) (whitelist_group_ids self)
    (multi_image_mode self) (default_group_policy self)
    (default_private_policy self) gp (policies self)
    (admin_bypass_whitelist self) (admin_bypass_cooldown self)
    (admin_bypass_sensitive self) (lexicon self) (_policy_patterns self).

(** [cmd_set_policy]: the reply and the plugin after the command.  The
    reply is [None] when the handler raises, which it does on [parts[1]]
    for a message without any word. *)
Definition cmd_set_policy {time : Type} (self : ComfyUIPlugin time)
  (event : AstrMessageEvent) : option str * ComfyUIPlugin time :=
  let '(allowed, reason) := _check_access self event in
  if negb allowed then (Some reason, self)
  else if negb (_is_group_message event) then (Some GROUP_ONLY, self)
  else if negb (is_admin self event) then (Some NOT_ADMIN, self)
  else
    let full_msg := strip (message_str event) in
    let parts := py_split full_msg in
    let gid :=
      match _get_group_id event with
      | Some g => g
      | None => UNKNOWN_GID
      end in
    match parts with
    | [] => (None, self)
    | [_] =>
      let current :=
        default (default_group_policy self) (group_policies self !! gid) in
      (Some (LEVEL_INFO_OPEN ++ current ++ LEVEL_INFO_CLOSE), self)
    | _ :: arg :: _ =>
      match set_group_policy self gid arg with
      | Some self' => (Some (LEVEL_SET ++ py_lower arg), self')
      | None => (Some INVALID_LEVEL, self)
      end
    end.

(** The tier commands of a list of events, one after the other. *)
Definition run_set_policy {time : Type} (self : ComfyUIPlugin time)
  (events : list AstrMessageEvent) : ComfyUIPlugin time :=
  fold_left (fun s e => (cmd_set_policy s e).2) events self.

(** Every tier stored for a group is a key of [policies]. *)
Definition group_tiers_known {time : Type} (self : ComfyUIPlugin time)
  : Prop :=
  map_Forall (fun (_ : str) (v : str) => v ∈ List.map fst (policies self))
    (group_policies self).

(** A group message with a text. *)
Definition group_command (sender gid message : str) : AstrMessageEvent :=
  MkEvent sender (Some (lit "group")) (Some gid) None None message
    None None false.

(** A plugin whose whitelist holds the group [g1], with the administrator
    [admin] and the tiers of [__init__]. *)
Definition tier_plugin : ComfyUIPlugin Q :=
  _build_policy_patterns
    (MkPlugin 60%Q ∅ {[ lit "admin" ]} false {[ lit "g1" ]} false
       (lit "none") (lit "none") ∅ (init_policies full_categories)
       true true true cat_lexicon ∅).

(** ** Notions for the further properties of the segmenter *)

(** The pair of a chunk and the prompt of the tag after it. *)
Definition chunk_pair (chunk p : str) : DeliveryPair :=
  MkPair (strip chunk) (Some p).

(** The pair of the text after the last tag, when that text is not
    blank. *)
Definition tail_pair (tail : str) : list DeliveryPair :=
  if truthy (strip tail) then [MkPair (strip tail) None] else [].

(** A completion with a tag that is not closed, and one with two usable
    prompts around a quoted prompt. *)
Definition unclosed_tag_text : str :=
  lit "draw " ++ OPEN_TAG ++ lit "a cat".

(** ** The call paths up to the request to the backend *)

(** [str(n)] for an [int], in an f-string. *)
Definition str_of_Z (z : Z) : str :=
  lit (NilEmpty.string_of_int (Z.to_int z)).

(** The replies of the two paths before the backend is asked, as code
    points; the two cooldown replies hold the remaining seconds between
    their parts. *)
Definition USAGE : str :=
  [0x274C; 0x20; 0x8BF7; 0x8F93; 0x5165; 0x63D0; 0x793A; 0x8BCD; 0xFF0C;
   0x4F8B; 0x5982; 0xFF1A; 0x2F; 0x753B; 0x56FE; 0x20; 0x31; 0x67; 0x69;
   0x72; 0x6C; 0x2C; 0x20; 0x73; 0x6D; 0x69; 0x6C; 0x65].
Definition NO_PROMPT : str :=
  [0x274C; 0x20; 0x672A; 0x63D0; 0x4F9B; 0x20; 0x70; 0x72; 0x6F; 0x6D;
   0x70; 0x74; 0xFF0C; 0x8BF7; 0x91CD; 0x8BD5].
Definition BLANK_PROMPT : str :=
  [0x274C; 0x20; 0x8BF7; 0x8F93; 0x5165; 0x63D0; 0x793A; 0x8BCD].
Definition NO_API : str :=
  [0x274C; 0x20; 0x43; 0x6F; 0x6D; 0x66; 0x79; 0x55; 0x49; 0x20; 0x670D;
   0x52A1; 0x672A; 0x8FDE; 0x63A5; 0xFF0C; 0x8BF7; 0x68C0; 0x67E5; 0x914D;
   0x7F6E].
Definition COOLDOWN_OPEN : str :=
  [0x23F1; 0xFE0F; 0x20; 0x51B7; 0x5374; 0x4E2D; 0xFF0C; 0x8BF7; 0x5728;
   0x20].
Definition COOLDOWN_CLOSE : str := [0x20; 0x79D2; 0x540E; 0x91CD; 0x8BD5].
Definition BATCH_COOLDOWN_OPEN : str :=
  [0x23F1; 0xFE0F; 0x20; 0x51B7; 0x5374; 0x4E2D; 0xFF0C; 0x8BF7; 0x20].
Definition IMAGE_FAILED_OPEN : str := [0xA; 0x274C; 0x20; 0x5B; 0x56FE; 0x7247].
Definition IMAGE_FAILED_CLOSE : str := [0x5D; 0x20; 0x751F; 0x6210; 0x5931; 0x8D25].

(** The three literals of the pattern of a mention. *)
Definition MATH_OPEN : str := [0x60; 0x60; 0x60; 0x6D; 0x61; 0x74; 0x68].
Definition AT : str := [0x41; 0x74; 0x3A].
Definition FENCE : str := [0x60; 0x60; 0x60].

(** [prompt] and [text] are [None] or a string: what [if not x] lets
    through. *)
Definition truthy_o (o : option str) : bool :=
  match o with
  | Some s => truthy s
  | None => false
  end.

(** [parts = full_message.split(' ', 1)] and
    [parts[1].strip() if len(parts) > 1 else ""], for the trimmed
    message. *)
Definition command_prompt (message : str) : str :=
  let full_message := strip message in
  match find_lit [0x20] full_message with
  | Some (_, rest) => strip rest
  | None => []
  end.

(** What a call path does before it asks the backend for an image: it
    yields one plain message and returns, or it goes on to
    [self.api.generate(prompt)]. *)
Inductive Admission :=
| Rejected (reply : str)
| Accepted (prompt : str).

Section CallPaths.

Variable time : Type.
Variable tsub : time -> time -> time.
Variable tlt : time -> time -> bool.
Variable tint : time -> Z.
Variable tzero : time.

(** The class [\d] of a [str] pattern, the decimal digits of Unicode, is a
    parameter. *)
Variable is_decimal : char -> bool.

(** A match of the pattern of a mention at the start of [s]: the opening
    literal, white space, [At:], one digit or more, the fence and white
    space; the result is what follows the match.  No class of the pattern
    holds the character that must follow it, so each repetition takes all
    it can. *)
Definition mention_here (s : str) : option str :=
  match starts_with MATH_OPEN s with
  | None => None
  | Some r1 =>
    match starts_with AT (lstrip_by is_space r1) with
    | None => None
    | Some r2 =>
      let r3 := lstrip_by is_decimal r2 in
      if (List.length r3 <? List.length r2)%nat then
        match starts_with FENCE r3 with
        | None => None
        | Some r4 => Some (lstrip_by is_space r4)
        end
      else None
    end
  end.

(** [re.sub(pattern, '', raw)]: the matches from the left, without
    overlap, are left out.  [skip] counts the characters of a match that
    are still to be passed. *)
Fixpoint sub_mentions (skip : nat) (raw : str) : str :=
  match raw with
  | [] => []
  | c :: raw' =>
    match skip with
    | S k => sub_mentions k raw'
    | O =>
      match mention_here raw with
      | Some rest =>
        sub_mentions (List.length raw' - List.length rest) raw'
      | None => c :: sub_mentions 0 raw'
      end
    end
  end.

(** [comfyui_txt2img] up to the request to the backend: the outcome and the
    plugin.  [api] tells whether [self.api] is set, [current_time] is the
    time the cooldown check reads. *)
Definition comfyui_txt2img_admission (self : ComfyUIPlugin time)
  (event : AstrMessageEvent) (prompt text : option str) (api : bool)
  (current_time : time) : Admission * ComfyUIPlugin time :=
  let '(allowed, reason) := _check_access self event in
  if negb allowed then (Rejected reason, self)
  else
    let prompt :=
      if negb (truthy_o prompt) && truthy_o text then text else prompt in
    match truthy_opt prompt with
    | None => (Rejected NO_PROMPT, self)
    | Some given =>
      let checked :=
        if negb (truthy (strip given)) then
          let raw := message_str event in
          truthy_opt (Some (strip (sub_mentions 0 raw)))
        else Some given in
      match checked with
      | None => (Rejected BLANK_PROMPT, self)
      | Some prompt =>
        if negb api then (Rejected NO_API, self)
        else
          match comfyui_txt2img_policy self prompt event with
          | Some reply => (Rejected reply, self)
          | None =>
            let '((ok, remain), self') :=
              _check_cooldown tsub tlt tint tzero self event current_time in
            if negb ok then
              (Rejected (COOLDOWN_OPEN ++ str_of_Z remain ++ COOLDOWN_CLOSE),
               self')
            else (Accepted prompt, self')
          end
      end
    end.

(** [_handle_paint_logic] up to the request to the backend, which is the
    one of [comfyui_txt2img], called with the prompt of the command and
    without [text]. *)
Definition _handle_paint_logic_admission (self : ComfyUIPlugin time)
  (event : AstrMessageEvent) (api : bool) (current_time : time)
  : Admission * ComfyUIPlugin time :=
  let '(allowed, reason) := _check_access self event in
  if negb allowed then (Rejected reason, self)
  else
    let prompt := command_prompt (message_str event) in
    if negb (truthy prompt) then (Rejected USAGE, self)
    else
      match _handle_paint_logic_policy self prompt event with
      | Some reply => (Rejected reply, self)
      | None =>
        comfyui_txt2img_admission self event (Some prompt) None api
          current_time
      end.

End CallPaths.

Arguments comfyui_txt2img_admission {time}.
Arguments _handle_paint_logic_admission {time}.

(** ** Delivery of a batch *)

(** The data of an image. *)
Definition bytes := list Byte.byte.

(** The components of a chain: [Plain(text)] and the [Image] of the file
    that holds the data. *)
Inductive Component :=
| Plain (plain_text : str)
| Image (img_data : bytes).

(** What is handed to [event.send]. *)
Inductive Sent :=
| plain_result (message : str)
| chain_result (chain : list Component).

(** One request to the backend: it returns [(img_data, error_msg)], or the
    request, the saving of the file or the sending of the chain raises. *)
Inductive Generated :=
| Returned (img_data : option bytes)
| Raised.

(** [if not img_data]. *)
Definition no_data (img_data : option bytes) : bool :=
  match img_data with
  | Some (_ :: _) => false
  | _ => true
  end.

(** The event once [_comfy_auto_painted] is set. *)
Definition set_auto_painted (event : AstrMessageEvent) : AstrMessageEvent :=
  MkEvent (sender_id event) (message_type event) (get_group_id event)
    (group_id event) (scene_group_id event) (message_str event)
    (_comfy_extracted_prompt event) (_comfy_segments event) true.

Section Batch.

Variable time : Type.
Variable tsub : time -> time -> time.
Variable tlt : time -> time -> bool.
Variable tint : time -> Z.
Variable tzero : time.

(** The backend: what the request for the image of index [img_idx] with a
    prompt gives.  A batch asks at most once for each index. *)
Variable generate : nat -> str -> Generated.

(** One round of the loop over the pairs: the state is [img_idx] and the
    messages sent so far. *)
Definition deliver_step (self : ComfyUIPlugin time) (event : AstrMessageEvent)
  (st : nat * list Sent) (pair : DeliveryPair) : nat * list Sent :=
  let text_content := text pair in
  match truthy_opt (prompt pair) with
  | Some prompt_content =>
    let img_idx := S st.1 in
    match _auto_paint_from_llm_policy self text_content img_idx
            prompt_content event with
    | Some reply => (img_idx, st.2 ++ [plain_result reply])
    | None =>
      match generate img_idx prompt_content with
      | Returned img_data =>
        if no_data img_data then
          (img_idx,
           st.2 ++ [plain_result
                      (text_content ++ IMAGE_FAILED_OPEN
                         ++ str_of_nat img_idx ++ IMAGE_FAILED_CLOSE)])
        else
          let chain :=
            (if truthy text_content then [Plain (text_content ++ [10])]
             else [])
            ++ [Image (default [] img_data)] in
          (img_idx, st.2 ++ [chain_result chain])
      | Raised => (img_idx, st.2)
      end
    end
  | None =>
    if truthy text_content then (st.1, st.2 ++ [plain_result text_content])
    else st
  end.

(** The loop, from an index and the messages sent so far. *)
Definition deliver (self : ComfyUIPlugin time) (event : AstrMessageEvent)
  (pairs : list DeliveryPair) (st : nat * list Sent) : nat * list Sent :=
  fold_left (deliver_step self event) pairs st.

(** The multi-image branch of [_auto_paint_from_llm]: the event, the plugin
    and the messages sent, [None] when the handler does not take the
    branch. *)
Definition _auto_paint_from_llm_multi (self : ComfyUIPlugin time)
  (event : AstrMessageEvent) (current_time : time)
  : option (AstrMessageEvent * ComfyUIPlugin time * list Sent) :=
  if _comfy_auto_painted event then None
  else
    match _comfy_segments event with
    | Some (seg :: segs) =>
      if multi_image_mode self then
        let segments := seg :: segs in
        let event := set_auto_painted event in
        let '(allowed, reason) := _check_access self event in
        if negb allowed then Some (event, self, [])
        else
          let pairs := build_pairs segments in
          let '((ok, remain), self') :=
            _check_cooldown tsub tlt tint tzero self event current_time in
          if negb ok then
            Some (event, self',
                  [plain_result
                     (BATCH_COOLDOWN_OPEN ++ str_of_Z remain
                        ++ COOLDOWN_CLOSE)])
          else Some (event, self', (deliver self' event pairs (0%nat, [])).2)
      else None
    | _ => None
    end.

End Batch.

Arguments deliver_step {time}.
Arguments deliver {time}.
Arguments _auto_paint_from_llm_multi {time}.

(** The number of pairs whose prompt is not empty. *)
Definition prompt_count (pairs : list DeliveryPair) : nat :=
  List.length (List.filter (fun pair => truthy_o (prompt pair)) pairs).

(** ** System prompt *)

(** [inject_system_prompt]: [req.system_prompt] after the call, for the
    configured prompt and [req.system_prompt] before the call ([None] when
    the request has none). *)
Definition inject_system_prompt (my_prompt : str)
  (system_prompt : option str) : option str :=
  if negb (truthy my_prompt) then system_prompt
  else
    let current_prompt := default [] system_prompt in
    if occurs my_prompt current_prompt then system_prompt
    else if truthy current_prompt then
      Some (strip (current_prompt ++ [10; 10] ++ my_prompt))
    else Some (strip my_prompt).
(** ** Notions for the properties of the delivery *)

(** The chain of an image that is sent with the text of a chunk of the
    completion: the trimmed chunk and a line feed when the chunk is not
    blank. *)
Definition caption (chunk : str) : list Component :=
  if truthy (strip chunk) then [Plain (strip chunk ++ [10])] else [].

(** The message of the text after the last tag, when that text is not
    blank. *)
Definition tail_message (tail : str) : list Sent :=
  if truthy (strip tail) then [plain_result (strip tail)] else [].

(** A private message with a text. *)
Definition private_command (sender message : str) : AstrMessageEvent :=
  MkEvent sender (Some (lit "private")) None None None message
    None None false.

(** A plugin in multi-image mode whose whitelist holds the group [g1],
    with the [lite] tier for groups and the term [cat] in that tier. *)
Definition batch_plugin : ComfyUIPlugin Q :=
  _build_policy_patterns
    (MkPlugin 60%Q ∅ {[ lit "admin" ]} false {[ lit "g1" ]} true
       (lit "lite") (lit "none") ∅ (init_policies full_categories)
       true true true cat_lexicon ∅).

(** Two backends: one that never gives an image, and one that raises for
    the prompt [a cat] and never gives an image for another prompt. *)
Definition no_image_backend (img_idx : nat) (p : str) : Generated :=
  Returned None.

Definition raising_backend (img_idx : nat) (p : str) : Generated :=
  if bool_decide (p = lit "a cat") then Raised else Returned None.

(** A backend that gives the index of the image as the data of the
    image. *)
Definition index_image (img_idx : nat) (p : str) : bytes :=
  [Byte.x2a; default Byte.x00 (Byte.of_nat img_idx)].

Definition index_backend (img_idx : nat) (p : str) : Generated :=
  Returned (Some (index_image img_idx p)).
(** ** Step overrides *)

(** The replies of [cmd_comfy_add], as code points.  The reply to a number
    of steps out of range holds the node and the value between its parts,
    the reply to a value that is no number ends with the value. *)
Definition ADD_NOT_ADMIN : str :=
  [0x1F6AB; 0x20; 0x6743; 0x9650; 0x4E0D; 0x8DB3; 0xFF0C; 0x4EC5; 0x7BA1;
   0x7406; 0x5458; 0x53EF; 0x8BBE; 0x7F6E; 0x6B65; 0x6570; 0x8986; 0x76D6].
Definition API_NOT_READY : str :=
  [0x274C; 0x20; 0x43; 0x6F; 0x6D; 0x66; 0x79; 0x55; 0x49; 0x20; 0x41;
   0x50; 0x49; 0x20; 0x672A; 0x521D; 0x59CB; 0x5316].
Definition ADD_HELP : str :=
  [0x1F4DD; 0x20; 0x6B65; 0x6570; 0x8986; 0x76D6; 0x8BBE; 0x7F6E; 0xFF08;
   0x6309; 0x8282; 0x70B9; 0x49; 0x44; 0xFF09; 0xA; 0x2501; 0x2501;
   0x2501; 0x2501; 0x2501; 0x2501; 0x2501; 0x2501; 0x2501; 0x2501; 0x2501;
   0x2501; 0x2501; 0x2501; 0x2501; 0x2501; 0x2501; 0x2501; 0xA; 0x7528;
   0x6CD5; 0xFF1A; 0xA; 0x20; 0x20; 0x2F; 0x63; 0x6F; 0x6D; 0x66; 0x79;
   0x5F; 0x61; 0x64; 0x64; 0x20; 0x3C; 0x8282; 0x70B9; 0x49; 0x44; 0x3E;
   0x20; 0x3C; 0x6B65; 0x6570; 0x3E; 0x20; 0x20; 0x20; 0x20; 0x20; 0x20;
   0x5355; 0x4E2A; 0x8BBE; 0x7F6E; 0xA; 0x20; 0x20; 0x2F; 0x63; 0x6F;
   0x6D; 0x66; 0x79; 0x5F; 0x61; 0x64; 0x64; 0x20; 0x3C; 0x49; 0x44; 0x31;
   0x3E; 0x20; 0x3C; 0x6B65; 0x6570; 0x31; 0x3E; 0x20; 0x3C; 0x49; 0x44;
   0x32; 0x3E; 0x20; 0x3C; 0x6B65; 0x6570; 0x32; 0x3E; 0x20; 0x20; 0x6279;
   0x91CF; 0x8BBE; 0x7F6E; 0xA; 0x20; 0x20; 0x2F; 0x63; 0x6F; 0x6D; 0x66;
   0x79; 0x5F; 0x61; 0x64; 0x64; 0x20; 0x3C; 0x8282; 0x70B9; 0x49; 0x44;
   0x3E; 0x20; 0x6F; 0x66; 0x66; 0x20; 0x20; 0x20; 0x20; 0x20; 0x20; 0x20;
   0x20; 0x20; 0x53D6; 0x6D88; 0x5355; 0x4E2A; 0xA; 0x20; 0x20; 0x2F;
   0x63; 0x6F; 0x6D; 0x66; 0x79; 0x5F; 0x61; 0x64; 0x64; 0x20; 0x6C; 0x69;
   0x73; 0x74; 0x20; 0x20; 0x20; 0x20; 0x20; 0x20; 0x20; 0x20; 0x20; 0x20;
   0x20; 0x20; 0x20; 0x20; 0x20; 0x20; 0x20; 0x67E5; 0x770B; 0x5F53;
   0x524D; 0x8986; 0x76D6; 0xA; 0x20; 0x20; 0x2F; 0x63; 0x6F; 0x6D; 0x66;
   0x79; 0x5F; 0x61; 0x64; 0x64; 0x20; 0x63; 0x6C; 0x65; 0x61; 0x72; 0x20;
   0x20; 0x20; 0x20; 0x20; 0x20; 0x20; 0x20; 0x20; 0x20; 0x20; 0x20; 0x20;
   0x20; 0x20; 0x20; 0x6E05; 0x7A7A; 0x6240; 0x6709; 0x8986; 0x76D6; 0xA;
   0x2501; 0x2501; 0x2501; 0x2501; 0x2501; 0x2501; 0x2501; 0x2501; 0x2501;
   0x2501; 0x2501; 0x2501; 0x2501; 0x2501; 0x2501; 0x2501; 0x2501; 0x2501;
   0xA; 0x793A; 0x4F8B; 0xFF1A; 0xA; 0x20; 0x20; 0x2F; 0x63; 0x6F; 0x6D;
   0x66; 0x79; 0x5F; 0x61; 0x64; 0x64; 0x20; 0x33; 0x38; 0x33; 0x39; 0x20;
   0x32; 0x30; 0x20; 0x20; 0x20; 0x20; 0x20; 0x20; 0x20; 0x20; 0x20; 0x20;
   0x20; 0x20; 0x20; 0x20; 0x8282; 0x70B9; 0x33; 0x38; 0x33; 0x39; 0x8BBE;
   0x4E3A; 0x32; 0x30; 0x6B65; 0xA; 0x20; 0x20; 0x2F; 0x63; 0x6F; 0x6D;
   0x66; 0x79; 0x5F; 0x61; 0x64; 0x64; 0x20; 0x33; 0x38; 0x33; 0x39; 0x20;
   0x32; 0x30; 0x20; 0x34; 0x35; 0x32; 0x31; 0x20; 0x35; 0x30; 0x20; 0x20;
   0x20; 0x20; 0x20; 0x20; 0x540C; 0x65F6; 0x8BBE; 0x7F6E; 0x4E24; 0x4E2A;
   0x8282; 0x70B9; 0xA; 0x2501; 0x2501; 0x2501; 0x2501; 0x2501; 0x2501;
   0x2501; 0x2501; 0x2501; 0x2501; 0x2501; 0x2501; 0x2501; 0x2501; 0x2501;
   0x2501; 0x2501; 0x2501; 0xA; 0x1F4A1; 0x20; 0x8282; 0x70B9; 0x49; 0x44;
   0x53EF; 0x5728; 0x5DE5; 0x4F5C; 0x6D41; 0x4A; 0x53; 0x4F; 0x4E; 0x4E2D;
   0x67E5; 0x627E; 0x20; 0x50; 0x61; 0x72; 0x61; 0x6D; 0x65; 0x74; 0x65;
   0x72; 0x42; 0x72; 0x65; 0x61; 0x6B; 0x20; 0x8282; 0x70B9].
Definition ODD_PARAMS : str :=
  [0x274C; 0x20; 0x53C2; 0x6570; 0x683C; 0x5F0F; 0x9519; 0x8BEF; 0xFF0C;
   0x9700; 0x8981; 0x6210; 0x5BF9; 0x8F93; 0x5165; 0xFF1A; 0x3C; 0x8282;
   0x70B9; 0x49; 0x44; 0x3E; 0x20; 0x3C; 0x6B65; 0x6570; 0x3E].
Definition RANGE_OPEN : str :=
  [0x274C; 0x20; 0x6B65; 0x6570; 0x5E94; 0x5728; 0x20; 0x31; 0x2D; 0x32;
   0x30; 0x30; 0x20; 0x4E4B; 0x95F4; 0xFF0C; 0x8282; 0x70B9; 0x20].
Definition RANGE_VALUE : str :=
  [0x20; 0x7684; 0x503C; 0x20].
Definition RANGE_CLOSE : str :=
  [0x20; 0x65E0; 0x6548].
Definition NOT_A_NUMBER : str :=
  [0x274C; 0x20; 0x65E0; 0x6548; 0x7684; 0x6B65; 0x6570; 0x503C; 0xFF1A].
Definition CHANGES_HEAD : str :=
  [0x2705; 0x20; 0x5DF2; 0x8BBE; 0x7F6E; 0x3A; 0x20].
Definition REMOVES_HEAD : str :=
  [0x1F5D1; 0xFE0F; 0x20; 0x5DF2; 0x79FB; 0x9664; 0x3A; 0x20].
Definition WORKFLOW_HEAD : str :=
  [0x1F4CD; 0x20; 0x5DE5; 0x4F5C; 0x6D41; 0x3A; 0x20].

(** The values that remove the override of a node. *)
Definition OFF_WORDS : list str :=
  [lit "off"; lit "0"; lit "del"; lit "delete"; lit "rm"; lit "remove"].

(** What the overrides file holds, as [json.load] gives it: an object,
    with values of a type [V]; an array, of which only the strings matter
    ([None] stands for any other item); a string; or a number, [true],
    [false] or [null].  A file that is absent, or that cannot be read,
    counts as the empty object. *)
Inductive Json (V : Type) :=
| JsonObject (members : gmap str V)
| JsonArray (items : list (option str))
| JsonString (s : str)
| JsonScalar.

Arguments JsonObject {V}.
Arguments JsonArray {V}.
Arguments JsonString {V}.
Arguments JsonScalar {V}.

(** [node_id in existing]: [None] when it raises [TypeError]. *)
Definition json_contains {V : Type} (existing : Json V) (node_id : str)
  : option bool :=
  match existing with
  | JsonObject members => Some (bool_decide (is_Some (members !! node_id)))
  | JsonArray items => Some (bool_decide (Some node_id ∈ items))
  | JsonString s => Some (occurs node_id s)
  | JsonScalar => None
  end.

(** [del existing[node_id]] for a string [node_id] that [existing] holds:
    [None] when it raises [TypeError]. *)
Definition json_delete {V : Type} (existing : Json V) (node_id : str)
  : option (Json V) :=
  match existing with
  | JsonObject members => Some (JsonObject (delete node_id members))
  | _ => None
  end.

(** [existing[node_id] = v] for a string [node_id]: [None] when it raises
    [TypeError]. *)
Definition json_set {V : Type} (existing : Json V) (node_id : str) (v : V)
  : option (Json V) :=
  match existing with
  | JsonObject members => Some (JsonObject (<[node_id := v]> members))
  | _ => None
  end.

(** The loop over the pairs of a node and a value: a round replies and
    returns, a round raises [TypeError], which nothing catches, or the loop
    ends with [existing], [changes] and [removes]. *)
Inductive Loop (V : Type) :=
| LoopReply (reply : str)
| LoopRaises
| LoopDone (existing : Json V) (changes removes : list str).

Arguments LoopReply {V}.
Arguments LoopRaises {V}.
Arguments LoopDone {V}.

(** What [cmd_comfy_add] does: it replies without writing anything, it
    hands over to [_comfy_add_list] or to [_comfy_add_clear], it raises
    [TypeError], or it saves [existing] (it writes it when it is not
    empty, and removes the file otherwise) and replies. *)
Inductive AddOutcome (V : Type) :=
| AddReply (reply : str)
| AddList
| AddClear
| AddRaises
| AddSaved (existing : Json V) (reply : str).

Arguments AddReply {V}.
Arguments AddList {V}.
Arguments AddClear {V}.
Arguments AddRaises {V}.
Arguments AddSaved {V}.

Section StepOverrides.

(** [str.lower] and [int] on the words of a message are parameters: [py_int]
    gives [None] when [int] raises [ValueError].  So are the values of the
    members of the overrides file, with [steps_entry steps] for the object
    [{"steps": steps}]. *)
Variable lower : str -> str.
Variable py_int : str -> option Z.
Variable V : Type.
Variable steps_entry : Z -> V.

Fixpoint update_overrides (params : list str) (existing : Json V)
  (changes removes : list str) : Loop V :=
  match params with
  | node_id :: raw :: rest =>
    let value := lower raw in
    if bool_decide (value ∈ OFF_WORDS) then
      match json_contains existing node_id with
      | None => LoopRaises
      | Some true =>
        match json_delete existing node_id with
        | None => LoopRaises
        | Some existing' =>
          update_overrides rest existing' changes (removes ++ [node_id])
        end
      | Some false => update_overrides rest existing changes removes
      end
    else
      match py_int value with
      | Some steps =>
        if negb ((1 <=? steps)%Z && (steps <=? 200)%Z) then
          LoopReply
            (RANGE_OPEN ++ node_id ++ RANGE_VALUE ++ value ++ RANGE_CLOSE)
        else
          match json_set existing node_id (steps_entry steps) with
          | None => LoopRaises
          | Some existing' =>
            update_overrides rest existing'
              (changes
                 ++ [node_id ++ [0x3A] ++ str_of_Z steps ++ [0x6B65]])
              removes
          end
      | None => LoopReply (NOT_A_NUMBER ++ value)
      end
  | _ => LoopDone existing changes removes
  end.

(** [cmd_comfy_add].  [api] tells whether [self.api] is set,
    [current_file] is [self.api.wf_filename] and [content] is what the
    overrides file of that workflow holds. *)
Definition cmd_comfy_add {time : Type} (self : ComfyUIPlugin time)
  (event : AstrMessageEvent) (api : bool) (current_file : str)
  (content : Json V) : AddOutcome V :=
  if negb (is_admin self event) then AddReply ADD_NOT_ADMIN
  else if negb api then AddReply API_NOT_READY
  else
    let args := py_split (message_str event) in
    match args with
    | _ :: (first :: _) as params =>
      let sub_cmd := lower first in
      if str_eqb sub_cmd (lit "list") then AddList
      else if str_eqb sub_cmd (lit "clear") then AddClear
      else if negb (Nat.even (List.length params)) then AddReply ODD_PARAMS
      else
        match update_overrides params content [] [] with
        | LoopReply reply => AddReply reply
        | LoopRaises => AddRaises
        | LoopDone existing changes removes =>
          let msg_parts :=
            (match changes with
             | [] => []
             | _ :: _ => [CHANGES_HEAD ++ join (lit ", ") changes]
             end)
            ++ (match removes with
                | [] => []
                | _ :: _ => [REMOVES_HEAD ++ join (lit ", ") removes]
                end)
            ++ [WORKFLOW_HEAD ++ current_file] in
          AddSaved existing (join [10] msg_parts)
        end
    | _ => AddReply ADD_HELP
    end.

End StepOverrides.

Arguments update_overrides lower py_int {V} steps_entry params existing
  changes removes.
Arguments cmd_comfy_add lower py_int {V} steps_entry {time} self event api
  current_file content.

(** [int] on a word, for the examples: white space at the ends, a sign,
    ASCII digits and single underscores between digits.  It is [int] on
    every ASCII word; a word with a decimal digit outside ASCII, which
    [int] reads, is refused here. *)
Fixpoint digits_value (acc : Z) (after_digit : bool) (s : str) : option Z :=
  match s with
  | [] => if after_digit then Some acc else None
  | c :: s' =>
    if is_digit_ascii c then
      digits_value (10 * acc + Z.of_N (c - 48))%Z true s'
    else if (c =? 0x5F) && after_digit then digits_value acc false s'
    else None
  end.

Definition digits_int (s : str) : option Z :=
  match strip s with
  | 0x2B :: digits => digits_value 0%Z false digits
  | 0x2D :: digits => option_map Z.opp (digits_value 0%Z false digits)
  | digits => digits_value 0%Z false digits
  end.

(** * Proofs *)

(** ** Pairing for delivery *)

Lemma build_pairs_finish (segments : list Segment) :
  build_pairs segments = finish_pairs (fold_left pair_step segments ([], [])).
Proof.
  unfold build_pairs, finish_pairs.
  destruct (fold_left pair_step segments ([], [])) as [pairs cur]; reflexivity.
Qed.

Lemma pair_loop_walk (segments : list Segment) :
  forall (acc : list DeliveryPair) (pending : str),
    finish_pairs (fold_left pair_step segments (acc, pending))
    = acc ++ walk_pairs pending segments.
Proof.
  induction segments as [|s rest IH]; intros acc pending; simpl.
  - unfold finish_pairs; simpl. destruct (truthy pending); simpl.
    + reflexivity.
    + now rewrite app_nil_r.
  - unfold pair_step at 2. destruct (seg_type s); simpl.
    + apply IH.
    + rewrite IH, <- app_assoc. reflexivity.
Qed.

Lemma walk_pairs_text_text (pre : list Segment) :
  forall (pending a b : str) (post : list Segment),
    walk_pairs pending
      (pre ++ MkSegment SegText a :: MkSegment SegText b :: post)
    = walk_pairs pending (pre ++ MkSegment SegText b :: post).
Proof.
  induction pre as [|s pre IH]; intros pending a b post; simpl.
  - reflexivity.
  - destruct (seg_type s); rewrite IH; reflexivity.
Qed.

Lemma build_pairs_app (pre rest : list Segment) :
  build_pairs (pre ++ rest)
  = emitted pre ++ walk_pairs (pending_after pre) rest.
Proof.
  rewrite build_pairs_finish, fold_left_app.
  unfold emitted, pending_after.
  destruct (fold_left pair_step pre ([], [])) as [acc pend]; simpl.
  apply pair_loop_walk.
Qed.

Lemma build_pairs_walk (segments : list Segment) :
  build_pairs segments = walk_pairs [] segments.
Proof.
  rewrite build_pairs_finish, pair_loop_walk. reflexivity.
Qed.

Lemma emitted_have_prompt (segments : list Segment) :
  forall (acc : list DeliveryPair) (pend : str),
    Forall (fun pr => is_Some (prompt pr)) acc ->
    Forall (fun pr => is_Some (prompt pr))
      (fold_left pair_step segments (acc, pend)).1.
Proof.
  induction segments as [|s rest IH]; intros acc pend Hacc; simpl.
  - exact Hacc.
  - unfold pair_step at 2. destruct (seg_type s); simpl.
    + now apply IH.
    + apply IH. apply Forall_app. split; [exact Hacc|].
      constructor; [|constructor]. simpl. eauto.
Qed.

(** C9. The pairing loop of [_auto_paint_from_llm] is the walk of the
    specification started with an empty pending text: a text segment
    replaces the pending text, a prompt segment emits the pair (pending
    text, prompt) and empties it, and a pending text that is not empty at
    the end emits one last pair without prompt, every other pair having a
    prompt.  Hence of two text segments in a row only the second one is
    kept, and a text segment right before a prompt segment is the text of
    that prompt's pair. *)
Theorem build_pairs_is_walk :
  (forall segments : list Segment,
      build_pairs segments = walk_pairs [] segments)
  /\ (forall segments : list Segment,
        build_pairs segments
        = emitted segments
          ++ (if truthy (pending_after segments)
              then [MkPair (pending_after segments) None] else [])
        /\ Forall (fun pr => is_Some (prompt pr)) (emitted segments))
  /\ (forall (pre post : list Segment) (a b : str),
        build_pairs
          (pre ++ MkSegment SegText a :: MkSegment SegText b :: post)
        = build_pairs (pre ++ MkSegment SegText b :: post))
  /\ (forall (pre post : list Segment) (t p : str),
        build_pairs
          (pre ++ MkSegment SegText t :: MkSegment SegPrompt p :: post)
        = emitted pre ++ MkPair t (Some p) :: build_pairs post).
Proof.
  split; [exact build_pairs_walk|].
  split.
  { intros segments. split.
    - rewrite build_pairs_finish. unfold finish_pairs, emitted, pending_after.
      destruct (truthy _); [reflexivity|now rewrite app_nil_r].
    - apply emitted_have_prompt. constructor. }
  split.
  - intros pre post a b.
    rewrite !build_pairs_walk. apply walk_pairs_text_text.
  - intros pre post t p.
    rewrite build_pairs_app. simpl. now rewrite build_pairs_walk.
Qed.

(** ** Response segmenter: a single prompt *)

Lemma clean_prompts_loop (prompts : list str) :
  forall acc : list str,
    fold_left
      (fun cleaned p =>
         let p := clean_prompt p in
         if truthy p then cleaned ++ [p] else cleaned)
      prompts acc
    = acc ++ List.filter truthy (List.map clean_prompt prompts).
Proof.
  induction prompts as [|p rest IH]; intros acc; simpl.
  - now rewrite app_nil_r.
  - rewrite IH. destruct (truthy (clean_prompt p)); simpl.
    + now rewrite <- app_assoc.
    + reflexivity.
Qed.

Lemma clean_prompts_usable (full_text : str) :
  clean_prompts (re_findall_tags full_text) = usable_prompts full_text.
Proof.
  unfold clean_prompts, usable_prompts. now rewrite clean_prompts_loop.
Qed.

(** C8. When exactly one usable prompt is found, the handler stores it as
    the extracted prompt and stores no segment list, whatever the
    multi-image mode of the plugin. *)
Theorem single_prompt_extracted {time : Type} (self : ComfyUIPlugin time)
  (event : AstrMessageEvent) (full_text p : str) :
  usable_prompts full_text = [p] ->
  let event' := _extract_prompt_before_filter self event (Some full_text) in
  event' = set_extracted_prompt event p
  /\ _comfy_extracted_prompt event' = Some p
  /\ _comfy_segments event' = _comfy_segments event.
Proof.
  intros Hone. cbv zeta.
  assert (Heq : _extract_prompt_before_filter self event (Some full_text)
                = set_extracted_prompt event p).
  { unfold _extract_prompt_before_filter.
    pose proof (clean_prompts_usable full_text) as Hclean.
    rewrite Hone in Hclean.
    destruct full_text as [|c full_text'] eqn:Htext.
    - discriminate Hone.
    - simpl negb. cbv iota.
      destruct (re_findall_tags (c :: full_text')) as [|q qs] eqn:Hfind.
      + discriminate Hclean.
      + rewrite Hclean. reflexivity. }
  rewrite Heq. repeat split.
Qed.

Lemma single_prompt_extracted_witness :
  usable_prompts single_prompt_text = [lit "a cat"]
  /\ _comfy_extracted_prompt
       (_extract_prompt_before_filter
          (sample_plugin ∅ ∅ true (lit "none") true)
          (private_event (lit "u1")) (Some single_prompt_text))
     = Some (lit "a cat")
  /\ _comfy_segments
       (_extract_prompt_before_filter
          (sample_plugin ∅ ∅ true (lit "none") true)
          (private_event (lit "u1")) (Some single_prompt_text))
     = None.
Proof.
  split; [vm_compute; reflexivity|].
  exact (proj2 (single_prompt_extracted
                  (sample_plugin ∅ ∅ true (lit "none") true)
                  (private_event (lit "u1")) single_prompt_text (lit "a cat")
                  eq_refl)).
Defined.

(** ** Cooldown *)

Section CooldownProofs.

Variable time : Type.
Variable tsub : time -> time -> time.
Variable tlt : time -> time -> bool.
Variable tint : time -> Z.
Variable tzero : time.

(** C4. For a user who is not an administrator with the cooldown bypass,
    with [elapsed] the current time minus the recorded time stamp of the
    user (0 when none is recorded): the check fails exactly when
    [elapsed < cooldown_seconds]; it then reports
    [int(cooldown_seconds - elapsed)] and leaves the plugin as it is;
    otherwise it passes with 0 and records the current time for that user,
    the time stamps of the other users being kept. *)
Theorem check_cooldown_spec (self : ComfyUIPlugin time)
  (event : AstrMessageEvent) (current_time : time) :
  is_admin self event && admin_bypass_cooldown self = false ->
  let user_id := sender_id event in
  let elapsed :=
    tsub current_time (default tzero (user_cooldowns self !! user_id)) in
  let r := _check_cooldown tsub tlt tint tzero self event current_time in
  (r.1.1 = false <-> tlt elapsed (cooldown_seconds self) = true)
  /\ (tlt elapsed (cooldown_seconds self) = true ->
      r = ((false, tint (tsub (cooldown_seconds self) elapsed)), self))
  /\ (tlt elapsed (cooldown_seconds self) = false ->
      r.1 = (true, 0%Z)
      /\ r.2 = set_user_cooldowns self
                 (<[user_id := current_time]> (user_cooldowns self))
      /\ user_cooldowns r.2 !! user_id = Some current_time
      /\ forall other : str,
           other <> user_id ->
           user_cooldowns r.2 !! other = user_cooldowns self !! other).
Proof.
  intros Hadmin user_id elapsed r.
  subst r. unfold _check_cooldown. rewrite Hadmin.
  fold user_id. fold elapsed.
  destruct (tlt elapsed (cooldown_seconds self)) eqn:Hlt; simpl.
  - split; [tauto|]. split; [reflexivity|discriminate].
  - split; [split; discriminate|]. split; [discriminate|].
    intros _. repeat split.
    + apply lookup_insert_eq.
    + intros other Hother. apply lookup_insert_ne. congruence.
Qed.

End CooldownProofs.

Lemma check_cooldown_spec_witness :
  _check_cooldown Qminus Qtime_lt Qtime_int 0%Q
    (sample_plugin ∅ {[ lit "u1" := 1000%Q ]} false (lit "none") true)
    (private_event (lit "u1")) 1010%Q
  = ((false, 50%Z),
     sample_plugin ∅ {[ lit "u1" := 1000%Q ]} false (lit "none") true).
Proof.
  exact (proj1 (proj2 (check_cooldown_spec Q Qminus Qtime_lt Qtime_int 0%Q
    (sample_plugin ∅ {[ lit "u1" := 1000%Q ]} false (lit "none") true)
    (private_event (lit "u1")) 1010%Q eq_refl)) eq_refl).
Defined.

(** The example of the specification, with a cooldown of 60 s and an action
    accepted at time 1000: an action 10 s later is rejected with 50 s left
    and the table is kept; an action 60 s later is accepted and the time
    stamp becomes 1060. *)
Example cooldown_sixty_seconds :
  let accepted :=
    _check_cooldown Qminus Qtime_lt Qtime_int 0%Q
      (sample_plugin ∅ ∅ false (lit "none") true)
      (private_event (lit "u1")) 1000%Q in
  accepted.1 = (true, 0%Z)
  /\ user_cooldowns accepted.2 !! lit "u1" = Some 1000%Q
  /\ _check_cooldown Qminus Qtime_lt Qtime_int 0%Q accepted.2
       (private_event (lit "u1")) 1010%Q
     = ((false, 50%Z), accepted.2)
  /\ (_check_cooldown Qminus Qtime_lt Qtime_int 0%Q accepted.2
        (private_event (lit "u1")) 1060%Q).1 = (true, 0%Z)
  /\ user_cooldowns
       (_check_cooldown Qminus Qtime_lt Qtime_int 0%Q accepted.2
          (private_event (lit "u1")) 1060%Q).2 !! lit "u1" = Some 1060%Q.
Proof.
  vm_compute. repeat split.
Qed.

(** ** Rejection messages *)

Lemma check_sensitive_fails {time : Type} (self : ComfyUIPlugin time)
  (prompt : str) (event : AstrMessageEvent) (sensitive : list str) :
  _check_sensitive self prompt event = (false, sensitive)
  <-> (sensitive = _find_sensitive_words self prompt (Some event)
       /\ sensitive <> []
       /\ is_admin self event && admin_bypass_sensitive self = false).
Proof.
  unfold _check_sensitive.
  destruct (_find_sensitive_words self prompt (Some event)) as [|w ws].
  - split; [discriminate|]. intros (-> & Hne & _). now contradiction Hne.
  - destruct (is_admin self event && admin_bypass_sensitive self).
    + split; [discriminate|]. intros (_ & _ & H). discriminate H.
    + split.
      * intros [= <-]. repeat split. discriminate.
      * intros (-> & _ & _). reflexivity.
Qed.

(** C2, as the code has it.  When the content-policy check fails, the
    command path shows the first five matched terms and, when more than
    five terms matched, the number of all matched terms; the tool path
    shows the first five matched terms and no number; the batch path shows
    the first three matched terms of the prompt and no number. *)
Theorem rejection_messages {time : Type} (self : ComfyUIPlugin time)
  (prompt : str) (event : AstrMessageEvent) (sensitive : list str) :
  _check_sensitive self prompt event = (false, sensitive) ->
  _handle_paint_logic_policy self prompt event
  = Some (DETECTED ++ join SEP (List.firstn 5 sensitive)
            ++ (if (5 <? List.length sensitive)%nat
                then ETC ++ str_of_nat (List.length sensitive) ++ ITEMS
                else [])
            ++ CANNOT_PAINT)
  /\ comfyui_txt2img_policy self prompt event
     = Some (DETECTED ++ join SEP (List.firstn 5 sensitive)
               ++ CANNOT_GENERATE)
  /\ (forall (text_content : str) (img_idx : nat),
        _auto_paint_from_llm_policy self text_content img_idx prompt event
        = Some (text_content ++ [10] ++ IMAGE_OPEN ++ str_of_nat img_idx
                  ++ IMAGE_CLOSE ++ join SEP (List.firstn 3 sensitive)))
  /\ (List.length (List.firstn 5 sensitive) <= 5)%nat
  /\ (List.length (List.firstn 3 sensitive) <= 3)%nat.
Proof.
  intros Hfail.
  unfold _handle_paint_logic_policy, comfyui_txt2img_policy,
    _auto_paint_from_llm_policy.
  rewrite Hfail. simpl.
  repeat split; try reflexivity; rewrite length_firstn; lia.
Qed.

Lemma rejection_messages_witness :
  comfyui_txt2img_policy
    (sample_plugin six_terms_lexicon ∅ false (lit "full") false)
    six_terms_prompt (group_event (lit "u1") (lit "g1"))
  = Some (DETECTED ++ join SEP (List.firstn 5 six_terms) ++ CANNOT_GENERATE).
Proof.
  exact (proj1 (proj2 (rejection_messages
    (sample_plugin six_terms_lexicon ∅ false (lit "full") false)
    six_terms_prompt (group_event (lit "u1") (lit "g1")) six_terms
    eq_refl))).
Defined.

(** C2 fails when six terms matched and the check failed: the message of
    the tool path shows five terms and holds no digit 1 for the one term
    left out, the message of the batch path shows three terms, and the
    message of the command path shows the number 6 of all matched terms. *)
Lemma rejection_without_remainder_count :
  let self := sample_plugin six_terms_lexicon ∅ false (lit "full") false in
  let event := group_event (lit "u1") (lit "g1") in
  _check_sensitive self six_terms_prompt event = (false, six_terms)
  /\ List.length six_terms = 6%nat
  /\ (exists msg : str,
        comfyui_txt2img_policy self six_terms_prompt event = Some msg
        /\ occurs (str_of_nat 1) msg = false)
  /\ (exists msg : str,
        _auto_paint_from_llm_policy self [] 1 six_terms_prompt event
        = Some msg
        /\ occurs (lit "dd") msg = false)
  /\ _handle_paint_logic_policy self six_terms_prompt event
     = Some (DETECTED ++ join SEP (List.firstn 5 six_terms)
               ++ ETC ++ lit "6" ++ ITEMS ++ CANNOT_PAINT).
Proof.
  cbv zeta. split; [vm_compute; reflexivity|].
  split; [reflexivity|].
  split; [eexists; split; vm_compute; reflexivity|].
  split; [eexists; split; vm_compute; reflexivity|].
  vm_compute; reflexivity.
Qed.

(** ** Tier names *)

Lemma lower_cp_lowered (c : char) :
  flat_map lower_cp (lower_cp c) = lower_cp c.
Proof.
  unfold lower_cp.
  destruct (is_upper_ascii c) eqn:Hup.
  - simpl. unfold lower_cp.
    assert (Hlow : is_upper_ascii (c + 32) = false).
    { unfold is_upper_ascii in *.
      apply andb_true_iff in Hup as [H1 H2].
      apply N.leb_le in H1, H2.
      apply andb_false_iff. right. apply N.leb_gt. lia. }
    rewrite Hlow.
    assert (H1 : (c + 32 =? 0x130) = false).
    { unfold is_upper_ascii in Hup.
      apply andb_true_iff in Hup as [_ H2]. apply N.leb_le in H2.
      apply N.eqb_neq. lia. }
    assert (H2 : (c + 32 =? 0x212A) = false).
    { unfold is_upper_ascii in Hup.
      apply andb_true_iff in Hup as [_ H2]. apply N.leb_le in H2.
      apply N.eqb_neq. lia. }
    now rewrite H1, H2.
  - destruct (c =? 0x130) eqn:H130; [reflexivity|].
    destruct (c =? 0x212A) eqn:H212; [reflexivity|].
    simpl. unfold lower_cp. now rewrite Hup, H130, H212.
Qed.

Lemma py_lower_app (a b : str) : py_lower (a ++ b) = py_lower a ++ py_lower b.
Proof. unfold py_lower. apply flat_map_app. Qed.

Lemma py_lower_idempotent (s : str) : py_lower (py_lower s) = py_lower s.
Proof.
  induction s as [|c s IH]; [reflexivity|].
  change (py_lower (c :: s)) with (lower_cp c ++ py_lower s).
  rewrite py_lower_app, IH. f_equal. apply lower_cp_lowered.
Qed.

(** [__init__] stores lower-cased tier names, and the tier command keeps
    them so. *)
Lemma load_policy_settings_lowered {time : Type} (self : ComfyUIPlugin time)
  (dg dp : str) (gp : gmap str str) :
  policy_names_lowered (load_policy_settings self dg dp gp).
Proof.
  unfold policy_names_lowered; simpl.
  split; [apply py_lower_idempotent|].
  split; [apply py_lower_idempotent|].
  intros gid v Hv. apply lookup_fmap_Some in Hv as (v0 & <- & _).
  apply py_lower_idempotent.
Qed.

Lemma set_group_policy_lowered {time : Type} (self self' : ComfyUIPlugin time)
  (gid arg : str) :
  policy_names_lowered self ->
  set_group_policy self gid arg = Some self' ->
  policy_names_lowered self'.
Proof.
  intros (Hg & Hp & Hm). unfold set_group_policy.
  destruct (bool_decide _); [|discriminate]. intros [= <-].
  unfold policy_names_lowered; simpl.
  split; [exact Hg|]. split; [exact Hp|].
  apply map_Forall_insert_2; [apply py_lower_idempotent|exact Hm].
Qed.

Lemma resolved_policy_lowered {time : Type} (self : ComfyUIPlugin time)
  (event : AstrMessageEvent) :
  policy_names_lowered self ->
  py_lower (_get_policy_for_event self event)
  = _get_policy_for_event self event.
Proof.
  intros (Hg & Hp & Hm). unfold _get_policy_for_event.
  destruct (_is_group_message event); [|exact Hp].
  destruct (_get_group_id event) as [gid|]; [|exact Hg].
  destruct (group_policies self !! gid) as [v|] eqn:Hv; simpl.
  - exact (Hm gid v Hv).
  - exact Hg.
Qed.

(** The table [_build_policy_patterns] fills, key by key. *)
Lemma build_lookup_other (lex : gmap str (list str))
  (table : list (str * list str)) :
  forall (pp : gmap str (option pattern)) (name : str),
    name ∉ List.map fst table ->
    fold_left
      (fun pp '(policy, cats) => <[policy := compile_tier lex cats]> pp)
      table pp !! name
    = pp !! name.
Proof.
  induction table as [|[policy cats] table IH]; intros pp name Hnot; simpl.
  - reflexivity.
  - simpl in Hnot. apply not_elem_of_cons in Hnot as [Hne Hnot].
    rewrite IH by exact Hnot. apply lookup_insert_ne. congruence.
Qed.

Lemma build_lookup_tier (lex : gmap str (list str))
  (table : list (str * list str)) :
  forall (pp : gmap str (option pattern)) (name : str) (cats : list str),
    NoDup (List.map fst table) ->
    (name, cats) ∈ table ->
    fold_left
      (fun pp '(policy, cats) => <[policy := compile_tier lex cats]> pp)
      table pp !! name
    = Some (compile_tier lex cats).
Proof.
  induction table as [|[policy cs] table IH]; intros pp name cats Hnd Hin;
    simpl.
  - now apply elem_of_nil in Hin.
  - simpl in Hnd. apply NoDup_cons in Hnd as [Hfresh Hnd].
    apply elem_of_cons in Hin as [Heq|Hin].
    + injection Heq as -> ->.
      rewrite build_lookup_other by exact Hfresh.
      apply lookup_insert_eq.
    + now apply IH.
Qed.

(** C10. A tier name other than [none], [lite] and [full] resolved for an
    event (the tier names of the plugin being lower-cased, as [__init__] and
    the tier command store them) selects no pattern: for every text the
    search returns the empty list without error, and the content-policy
    check passes. *)
Theorem unknown_tier_matches_nothing {time : Type}
  (self0 : ComfyUIPlugin time) (event : AstrMessageEvent) (text : str) :
  _policy_patterns self0 = ∅ ->
  List.map fst (policies self0) = tier_names ->
  policy_names_lowered self0 ->
  let self := _build_policy_patterns self0 in
  _get_policy_for_event self event ∉ tier_names ->
  _find_sensitive_words self text (Some event) = []
  /\ _check_sensitive self text event = (true, []).
Proof.
  intros Hempty Hkeys Hlow self Hunknown.
  assert (Hfind : _find_sensitive_words self text (Some event) = []).
  { unfold _find_sensitive_words.
    destruct (negb (truthy text)); [reflexivity|].
    unfold find_with_policy.
    destruct (str_eqb _ (lit "none")); [reflexivity|].
    change (_get_policy_for_event self event)
      with (_get_policy_for_event self0 event) in *.
    rewrite (resolved_policy_lowered self0 event Hlow).
    unfold self, _build_policy_patterns; simpl.
    rewrite build_lookup_other, Hempty.
    - now rewrite lookup_empty.
    - rewrite Hkeys. exact Hunknown. }
  split; [exact Hfind|].
  unfold _check_sensitive. now rewrite Hfind.
Qed.

Lemma unknown_tier_matches_nothing_witness :
  _get_policy_for_event
    (sample_plugin six_terms_lexicon ∅ false (lit "ful") false)
    (group_event (lit "u1") (lit "g1")) = lit "ful"
  /\ _find_sensitive_words
       (sample_plugin six_terms_lexicon ∅ false (lit "ful") false)
       six_terms_prompt (Some (group_event (lit "u1") (lit "g1"))) = []
  /\ _check_sensitive
       (sample_plugin six_terms_lexicon ∅ false (lit "ful") false)
       six_terms_prompt (group_event (lit "u1") (lit "g1")) = (true, []).
Proof.
  split; [reflexivity|].
  apply (unknown_tier_matches_nothing
           (sample_config six_terms_lexicon ∅ false (lit "ful") false)
           (group_event (lit "u1") (lit "g1")) six_terms_prompt).
  - reflexivity.
  - reflexivity.
  - split; [reflexivity|]. split; [reflexivity|]. apply map_Forall_empty.
  - apply (bool_decide_eq_false_1 (lit "ful" ∈ tier_names)).
    vm_compute. reflexivity.
Defined.

(** ** The matcher *)

(** Case analysis on the comparisons of code points. *)
Ltac char_cases :=
  unfold ci_char, is_word_class, is_word_ascii, is_letter_ascii,
    sre_lower, ascii_lower, is_upper_ascii, is_lower_ascii, is_digit_ascii
    in *;
  cbv zeta in *;
  repeat match goal with
  | |- context [N.leb ?a ?b] => destruct (N.leb_spec a b)
  | |- context [N.eqb ?a ?b] => destruct (N.eqb_spec a b)
  | H : context [N.leb ?a ?b] |- _ => destruct (N.leb_spec a b)
  | H : context [N.eqb ?a ?b] |- _ => destruct (N.eqb_spec a b)
  end;
  simpl in *; try reflexivity; try discriminate; try lia.

(** The flag-free class is inside the compiled class. *)
Lemma word_ascii_in_class (c : char) :
  is_word_class c = false -> is_word_ascii c = false.
Proof.
  unfold is_word_class. intros H.
  apply orb_false_iff in H as [H _].
  apply orb_false_iff in H as [H _].
  apply orb_false_iff in H as [H _].
  apply orb_false_iff in H as [H _]. exact H.
Qed.

Lemma letter_lower_range (p : char) :
  is_letter_ascii p = true -> 97 <= ascii_lower p <= 122.
Proof.
  unfold is_letter_ascii, ascii_lower. intros H.
  destruct (is_upper_ascii p) eqn:Hu.
  - unfold is_upper_ascii in Hu. apply andb_true_iff in Hu as [H1 H2].
    apply N.leb_le in H1, H2. lia.
  - simpl in H. unfold is_lower_ascii in H.
    apply andb_true_iff in H as [H1 H2]. apply N.leb_le in H1, H2. lia.
Qed.

(** A space of the text is matched by a space of the term only. *)
Lemma ci_char_space (p : char) : ci_char p 32 = true -> p = 32.
Proof.
  unfold ci_char. destruct (is_letter_ascii p) eqn:Hp.
  - pose proof (letter_lower_range p Hp) as Hr. cbv zeta.
    change (sre_lower 32) with 32.
    change (32 =? 0x131) with false. change (32 =? 0x17F) with false.
    rewrite !andb_false_r, !orb_false_r.
    intros H. apply N.eqb_eq in H. lia.
  - intros H. apply N.eqb_eq in H. now symmetry.
Qed.

(** A space of the term matches a space of the text only. *)
Lemma ci_char_of_space (c : char) : ci_char 32 c = true -> c = 32.
Proof.
  unfold ci_char. change (is_letter_ascii 32) with false. cbv iota.
  intros H. now apply N.eqb_eq in H.
Qed.

Lemma sre_lower_ascii (p : char) : p < 128 -> sre_lower p = ascii_lower p.
Proof.
  intros Hp. unfold sre_lower, ascii_lower.
  destruct (is_upper_ascii p); [reflexivity|].
  destruct (N.eqb_spec p 0x130); [lia|].
  destruct (N.eqb_spec p 0x212A); [lia|reflexivity].
Qed.

(** An ASCII character of a term matches itself. *)
Lemma ci_char_refl (p : char) : p < 128 -> ci_char p p = true.
Proof.
  intros Hp. unfold ci_char. destruct (is_letter_ascii p).
  - cbv zeta. rewrite (sre_lower_ascii p Hp), N.eqb_refl. reflexivity.
  - apply N.eqb_refl.
Qed.

Lemma lit_match_refl (t : str) (post : str) :
  _is_ascii_term t = true -> lit_match t (t ++ post) = true.
Proof.
  induction t as [|p t IH]; simpl; [reflexivity|].
  intros H. apply andb_true_iff in H as [Hp Ht].
  apply N.ltb_lt in Hp. rewrite ci_char_refl by exact Hp. now apply IH.
Qed.

Lemma lit_match_length (t rest : str) :
  lit_match t rest = true -> (List.length t <= List.length rest)%nat.
Proof.
  revert rest. induction t as [|p t IH]; intros rest H; simpl in *; [lia|].
  destruct rest as [|c rest]; [discriminate|].
  apply andb_true_iff in H as [_ H]. apply IH in H. simpl. lia.
Qed.

Lemma has_space_cons (c : char) (s : str) :
  has_space (c :: s) = (32 =? c) || has_space s.
Proof. reflexivity. Qed.

Lemma lit_match_cons (p : char) (t : str) (c : char) (rest : str) :
  lit_match (p :: t) (c :: rest) = ci_char p c && lit_match t rest.
Proof. reflexivity. Qed.

(** A match of a term without space holds no space. *)
Lemma lit_match_no_space (t rest : str) :
  has_space t = false -> lit_match t rest = true ->
  has_space (List.firstn (List.length t) rest) = false.
Proof.
  revert rest. induction t as [|p t IH]; intros rest Hsp Hm.
  - reflexivity.
  - destruct rest as [|c rest]; [discriminate|].
    rewrite lit_match_cons in Hm. apply andb_true_iff in Hm as [Hc Hm].
    rewrite has_space_cons in Hsp. apply orb_false_iff in Hsp as [Hp Hsp].
    change (List.firstn (List.length (p :: t)) (c :: rest))
      with (c :: List.firstn (List.length t) rest).
    rewrite has_space_cons. apply orb_false_iff. split; [|now apply IH].
    destruct (N.eqb_spec 32 c) as [<-|]; [|reflexivity].
    apply ci_char_space in Hc. subst p. discriminate Hp.
Qed.

(** A match of a term with a space holds a space. *)
Lemma lit_match_space (t rest : str) :
  has_space t = true -> lit_match t rest = true ->
  has_space (List.firstn (List.length t) rest) = true.
Proof.
  revert rest. induction t as [|p t IH]; intros rest Hsp Hm.
  - discriminate.
  - destruct rest as [|c rest]; [discriminate|].
    rewrite lit_match_cons in Hm. apply andb_true_iff in Hm as [Hc Hm].
    rewrite has_space_cons in Hsp.
    change (List.firstn (List.length (p :: t)) (c :: rest))
      with (c :: List.firstn (List.length t) rest).
    rewrite has_space_cons.
    apply orb_true_iff in Hsp as [Hp|Hsp].
    + apply N.eqb_eq in Hp. subst p.
      apply ci_char_of_space in Hc. subst c.
      reflexivity.
    + apply orb_true_iff. right. now apply IH.
Qed.

(** *** The terms of a compiled tier *)

Lemma add_term_loop (ts : list str) :
  forall acc : list str * list str,
    fold_left add_term ts acc
    = (acc.1 ++ List.filter is_word_term ts,
       acc.2 ++ List.filter is_phrase_term ts).
Proof.
  induction ts as [|t ts IH]; intros [ws ps]; simpl.
  - now rewrite !app_nil_r.
  - rewrite IH. unfold add_term, is_word_term, is_phrase_term.
    destruct (truthy t); simpl; [|reflexivity].
    destruct (_is_ascii_term t); simpl; [|reflexivity].
    destruct (has_space t); simpl; now rewrite <- app_assoc.
Qed.

Lemma collect_terms_loop (lex : gmap str (list str)) (cats : list str) :
  forall acc : list str * list str,
    fold_left
      (fun acc cat => fold_left add_term (default [] (lex !! cat)) acc)
      cats acc
    = (acc.1 ++ List.filter is_word_term (all_terms lex cats),
       acc.2 ++ List.filter is_phrase_term (all_terms lex cats)).
Proof.
  induction cats as [|cat cats IH]; intros [ws ps]; simpl.
  - now rewrite !app_nil_r.
  - rewrite IH, add_term_loop. simpl.
    unfold all_terms; simpl. rewrite !List.filter_app, !app_assoc.
    reflexivity.
Qed.

Lemma collect_terms_spec (lex : gmap str (list str)) (cats : list str) :
  collect_terms lex cats
  = (List.filter is_word_term (all_terms lex cats),
     List.filter is_phrase_term (all_terms lex cats)).
Proof. unfold collect_terms. now rewrite collect_terms_loop. Qed.

Lemma fromkeys_loop_In (xs : list str) :
  forall (acc : list str) (x : str),
    In x (fold_left
            (fun acc x => if bool_decide (x ∈ acc) then acc else acc ++ [x])
            xs acc)
    <-> In x acc \/ In x xs.
Proof.
  induction xs as [|y xs IH]; intros acc x; simpl.
  - tauto.
  - rewrite IH. destruct (bool_decide (y ∈ acc)) eqn:Hy.
    + apply bool_decide_eq_true in Hy. apply list_elem_of_In in Hy.
      split; [tauto|]. intros [H|[<-|H]]; tauto.
    + rewrite in_app_iff. simpl. tauto.
Qed.

Lemma fromkeys_In (xs : list str) (x : str) :
  In x (fromkeys xs) <-> In x xs.
Proof. unfold fromkeys. rewrite fromkeys_loop_In. simpl. tauto. Qed.

Lemma fromkeys_nil (xs : list str) : fromkeys xs = [] -> xs = [].
Proof.
  intros H. destruct xs as [|x xs]; [reflexivity|].
  assert (Hin : In x (fromkeys (x :: xs))) by (apply fromkeys_In; now left).
  rewrite H in Hin. destruct Hin.
Qed.

(** What a compiled tier holds. *)
Lemma compile_tier_Some (lex : gmap str (list str)) (cats : list str)
  (pat : pattern) :
  compile_tier lex cats = Some pat ->
  word_terms pat = fromkeys (List.filter is_word_term (all_terms lex cats))
  /\ phrase_terms pat
     = fromkeys (List.filter is_phrase_term (all_terms lex cats)).
Proof.
  unfold compile_tier. rewrite collect_terms_spec.
  destruct (fromkeys (List.filter is_word_term _)) as [|w ws] eqn:Hw;
    destruct (fromkeys (List.filter is_phrase_term _)) as [|p ps] eqn:Hp;
    [discriminate| | |]; intros [= <-]; simpl; auto.
Qed.

Lemma compile_tier_word (lex : gmap str (list str)) (cats : list str)
  (pat : pattern) (w : str) :
  compile_tier lex cats = Some pat ->
  In w (word_terms pat) <-> (In w (all_terms lex cats) /\ is_word_term w = true).
Proof.
  intros H. apply compile_tier_Some in H as [-> _].
  rewrite fromkeys_In, List.filter_In. reflexivity.
Qed.

Lemma compile_tier_phrase (lex : gmap str (list str)) (cats : list str)
  (pat : pattern) (p : str) :
  compile_tier lex cats = Some pat ->
  In p (phrase_terms pat)
  <-> (In p (all_terms lex cats) /\ is_phrase_term p = true).
Proof.
  intros H. apply compile_tier_Some in H as [_ ->].
  rewrite fromkeys_In, List.filter_In. reflexivity.
Qed.

(** A tier with a term that passes the filters has a pattern. *)
Lemma compile_tier_exists (lex : gmap str (list str)) (cats : list str)
  (t : str) :
  In t (all_terms lex cats) ->
  is_word_term t = true \/ is_phrase_term t = true ->
  exists pat : pattern, compile_tier lex cats = Some pat.
Proof.
  intros Hin Hkind. unfold compile_tier. rewrite collect_terms_spec.
  destruct (fromkeys (List.filter is_word_term _)) as [|w ws] eqn:Hw;
    destruct (fromkeys (List.filter is_phrase_term _)) as [|p ps] eqn:Hp;
    eauto.
  apply fromkeys_nil in Hw, Hp. exfalso. destruct Hkind as [Hk|Hk].
  - assert (Hf : In t (List.filter is_word_term (all_terms lex cats)))
      by (apply List.filter_In; auto).
    rewrite Hw in Hf. destruct Hf.
  - assert (Hf : In t (List.filter is_phrase_term (all_terms lex cats)))
      by (apply List.filter_In; auto).
    rewrite Hp in Hf. destruct Hf.
Qed.

Lemma all_terms_In (lex : gmap str (list str)) (cats : list str) (t : str) :
  In t (all_terms lex cats)
  <-> exists cat : str, In cat cats /\ In t (default [] (lex !! cat)).
Proof. unfold all_terms. apply in_flat_map. Qed.

(** *** One attempt of the pattern *)

Lemma match_here_inv (pat : pattern) (prev : option char) (rest : str)
  (len : nat) :
  match_here pat prev rest = Some len ->
  (lookbehind_ok prev = true
   /\ exists w : str,
        In w (word_terms pat) /\ List.length w = len
        /\ lit_match w rest = true /\ lookahead_ok w rest = true)
  \/ (exists p : str,
        In p (phrase_terms pat) /\ List.length p = len
        /\ lit_match p rest = true).
Proof.
  unfold match_here, word_branch, phrase_branch.
  destruct (lookbehind_ok prev) eqn:Hb.
  - destruct (List.find _ (word_terms pat)) as [w|] eqn:Hw; simpl.
    + intros [= <-]. left. split; [reflexivity|].
      apply List.find_some in Hw as [Hin Hok].
      apply andb_true_iff in Hok as [H1 H2]. eauto.
    + destruct (List.find _ (phrase_terms pat)) as [p|] eqn:Hp; simpl;
        [|discriminate].
      intros [= <-]. right. apply List.find_some in Hp as [Hin Hok]. eauto.
  - destruct (List.find _ (phrase_terms pat)) as [p|] eqn:Hp; simpl;
      [|discriminate].
    intros [= <-]. right. apply List.find_some in Hp as [Hin Hok]. eauto.
Qed.

Lemma match_here_word (pat : pattern) (prev : option char) (rest w : str) :
  lookbehind_ok prev = true ->
  In w (word_terms pat) ->
  lit_match w rest = true -> lookahead_ok w rest = true ->
  match_here pat prev rest <> None.
Proof.
  intros Hb Hin Hm Ha. unfold match_here, word_branch. rewrite Hb.
  destruct (List.find _ (word_terms pat)) as [w'|] eqn:Hw; simpl;
    [discriminate|].
  exfalso. apply (List.find_none _ _ Hw) in Hin. simpl in Hin.
  rewrite Hm, Ha in Hin. discriminate.
Qed.

Lemma match_here_phrase (pat : pattern) (prev : option char) (rest p : str) :
  In p (phrase_terms pat) ->
  lit_match p rest = true ->
  match_here pat prev rest <> None.
Proof.
  intros Hin Hm. unfold match_here.
  destruct (word_branch _ prev rest); [discriminate|].
  unfold phrase_branch.
  destruct (List.find _ (phrase_terms pat)) as [p'|] eqn:Hp; simpl;
    [discriminate|].
  exfalso. apply (List.find_none _ _ Hp) in Hin. simpl in Hin.
  rewrite Hm in Hin. discriminate.
Qed.

(** *** The scan *)

Lemma prev_after_cons (prev : option char) (c : char) (pre : str) :
  prev_after prev (c :: pre) = prev_after (Some c) pre.
Proof.
  unfold prev_after. destruct pre as [|d pre]; [reflexivity|].
  change (last (c :: d :: pre)) with (last (d :: pre)).
  destruct (last (d :: pre)) eqn:Hl; [reflexivity|].
  now apply last_None in Hl.
Qed.

Lemma scan_sound (pat : pattern) (rest : str) :
  forall (pos : nat) (prev : option char) (skip : nat) (m : Match),
    In m (scan pat pos prev skip rest) ->
    exists (pre suf : str) (len : nat),
      rest = pre ++ suf
      /\ m_start m = (pos + List.length pre)%nat
      /\ m_end m = (pos + List.length pre + len)%nat
      /\ m_group m = List.firstn len suf
      /\ match_here pat (prev_after prev pre) suf = Some len.
Proof.
  induction rest as [|c tl IH]; intros pos prev skip m Hin.
  - destruct Hin.
  - assert (Hstep :
      In m (scan pat (S pos) (Some c) (Nat.pred skip) tl)
      \/ (exists k, In m (scan pat (S pos) (Some c) k tl))
      \/ (skip = O /\ exists len,
            match_here pat prev (c :: tl) = Some len
            /\ m = MkMatch pos (pos + len)%nat (List.firstn len (c :: tl)))).
    { simpl in Hin. destruct skip as [|k]; [|now left].
      destruct (match_here pat prev (c :: tl)) as [len|] eqn:Hm.
      - destruct Hin as [<-|Hin]; [|right; left; eauto].
        right; right. eauto.
      - right; left; eauto. }
    assert (Htail : forall k, In m (scan pat (S pos) (Some c) k tl) ->
      exists (pre suf : str) (len : nat),
        c :: tl = pre ++ suf
        /\ m_start m = (pos + List.length pre)%nat
        /\ m_end m = (pos + List.length pre + len)%nat
        /\ m_group m = List.firstn len suf
        /\ match_here pat (prev_after prev pre) suf = Some len).
    { intros k Hk. apply IH in Hk as (pre & suf & len & -> & Hs & He & Hg & Hm).
      exists (c :: pre), suf, len. rewrite prev_after_cons. simpl.
      repeat split; try assumption; lia. }
    destruct Hstep as [H|[[k H]|(_ & len & Hm & ->)]]; eauto.
    exists [], (c :: tl), len. simpl. repeat split; try assumption; lia.
Qed.

Lemma finditer_sound (pat : pattern) (text : str) (m : Match) :
  In m (finditer pat text) -> match_at pat text m.
Proof.
  intros Hin. apply scan_sound in Hin as (pre & suf & len & H).
  exists pre, suf, len. unfold prev_after in H.
  destruct (last pre); simpl in H; exact H.
Qed.

Lemma scan_complete (pat : pattern) (pre : str) :
  forall (suf : str) (pos : nat) (prev : option char),
    suf <> [] ->
    match_here pat (prev_after prev pre) suf <> None ->
    scan pat pos prev O (pre ++ suf) <> [].
Proof.
  induction pre as [|c pre IH]; intros suf pos prev Hne Hm.
  - destruct suf as [|c tl]; [now contradiction Hne|].
    simpl in *. unfold prev_after in Hm. simpl in Hm.
    destruct (match_here pat prev (c :: tl)); [discriminate|].
    now contradiction Hm.
  - rewrite prev_after_cons in Hm.
    change ((c :: pre) ++ suf) with (c :: (pre ++ suf)). simpl.
    destruct (match_here pat prev (c :: pre ++ suf)); [discriminate|].
    now apply IH.
Qed.

Lemma finditer_complete (pat : pattern) (pre suf : str) :
  suf <> [] ->
  match_here pat (last pre) suf <> None ->
  finditer pat (pre ++ suf) <> [].
Proof.
  intros Hne Hm. apply scan_complete; [exact Hne|].
  unfold prev_after. destruct (last pre); exact Hm.
Qed.

(** *** Word boundaries *)

Lemma char_before_app (pre suf : str) :
  char_before (pre ++ suf) (List.length pre) = last pre.
Proof.
  destruct pre as [|c pre] using rev_ind; [reflexivity|].
  rewrite last_snoc, length_app. simpl.
  replace (List.length pre + 1)%nat with (S (List.length pre)) by lia.
  simpl. rewrite <- app_assoc. simpl.
  rewrite nth_error_app2 by lia. now rewrite Nat.sub_diag.
Qed.

Lemma nth_error_skipn_head (suf : str) (len : nat) (c : char) :
  List.nth_error suf len = Some c ->
  exists tl : str, List.skipn len suf = c :: tl.
Proof.
  revert suf. induction len as [|len IH]; intros [|d suf] H;
    try discriminate.
  - injection H as ->. eauto.
  - simpl in *. now apply IH.
Qed.

Lemma ci_equal_no_space (t g : str) :
  ci_equal t g = true -> has_space t = false -> has_space g = false.
Proof.
  unfold ci_equal. intros H Hsp. apply andb_true_iff in H as [Hlen Hm].
  apply Nat.eqb_eq in Hlen.
  pose proof (lit_match_no_space t g Hsp Hm) as Hg.
  rewrite Hlen, firstn_all in Hg. exact Hg.
Qed.

(** C6. A match that is an occurrence of a term without space (a
    single-token term) lies between boundaries: the character of the text
    right before the match, if any, and the character right after it, if
    any, are neither an ASCII letter, nor an ASCII digit, nor an underscore
    (nor one of the four letters the class gains with the flag).  The
    examples with the term [cat] follow the theorem. *)
Theorem word_term_needs_boundaries (lex : gmap str (list str))
  (cats : list str) (pat : pattern) (text t : str) (m : Match) :
  compile_tier lex cats = Some pat ->
  has_space t = false ->
  In m (finditer pat text) ->
  ci_equal t (m_group m) = true ->
  (forall c : char,
      char_before text (m_start m) = Some c ->
      is_word_ascii c = false /\ is_word_class c = false)
  /\ (forall c : char,
        List.nth_error text (m_end m) = Some c ->
        is_word_ascii c = false /\ is_word_class c = false).
Proof.
  intros Hpat Hsp Hin Hocc.
  pose proof (ci_equal_no_space _ _ Hocc Hsp) as Hgsp.
  apply finditer_sound in Hin as (pre & suf & len & -> & Hs & He & Hg & Hm).
  apply match_here_inv in Hm as [(Hb & w & Hw & Hlen & Hlit & Ha)|
                                 (p & Hp & Hlen & Hlit)].
  - split.
    + intros c Hc. rewrite Hs, char_before_app in Hc.
      rewrite Hc in Hb. simpl in Hb. apply negb_true_iff in Hb.
      split; [now apply word_ascii_in_class|exact Hb].
    + intros c Hc. rewrite He, nth_error_app2 in Hc by lia.
      replace (List.length pre + len - List.length pre)%nat with len in Hc
        by lia.
      apply nth_error_skipn_head in Hc as (tl & Htl).
      unfold lookahead_ok in Ha. rewrite Hlen, Htl in Ha.
      apply negb_true_iff in Ha.
      split; [now apply word_ascii_in_class|exact Ha].
  - exfalso.
    apply (compile_tier_phrase lex cats pat p Hpat) in Hp as [_ Hkind].
    unfold is_phrase_term in Hkind.
    apply andb_true_iff in Hkind as [_ Hpsp].
    pose proof (lit_match_space p suf Hpsp Hlit) as Hhas.
    rewrite Hlen, <- Hg, Hgsp in Hhas. discriminate.
Qed.

Lemma word_term_needs_boundaries_witness :
  In cat_match
    (finditer (Pattern [lit "cat"; lit "foo"] []) (lit "a cat sat"))
  /\ is_word_ascii 32 = false.
Proof.
  split; [vm_compute; auto|].
  exact (proj1 (proj1 (word_term_needs_boundaries cat_lexicon [LEGACY_LITE]
                         (Pattern [lit "cat"; lit "foo"] [])
                         (lit "a cat sat") (lit "cat") cat_match
                         eq_refl eq_refl (or_introl eq_refl) eq_refl)
                      32 eq_refl)).
Defined.

(** The examples of the specification: the term [cat] is not found in
    [category] and is found in [a cat sat]. *)
Example cat_in_category :
  _find_sensitive_words (sample_plugin cat_lexicon ∅ false (lit "none") true)
    (lit "category") None = []
  /\ _find_sensitive_words
       (sample_plugin cat_lexicon ∅ false (lit "none") true)
       (lit "a cat sat") None = [lit "cat"].
Proof. vm_compute. split; reflexivity. Qed.

(** *** Case of the text *)

Lemma ascii_lower_eq (c c' : char) :
  ascii_lower c = ascii_lower c' ->
  c = c'
  \/ (is_upper_ascii c = true /\ c' = c + 32)
  \/ (is_upper_ascii c' = true /\ c = c' + 32).
Proof.
  unfold ascii_lower.
  destruct (is_upper_ascii c) eqn:Hc, (is_upper_ascii c') eqn:Hc'; intros H.
  - left. lia.
  - right; left. split; [reflexivity|]. now symmetry.
  - right; right. split; [reflexivity|]. exact H.
  - now left.
Qed.

Lemma upper_range (c : char) : is_upper_ascii c = true -> 65 <= c <= 90.
Proof.
  unfold is_upper_ascii. intros H. apply andb_true_iff in H as [H1 H2].
  apply N.leb_le in H1, H2. lia.
Qed.

Lemma sre_lower_upper (c : char) :
  is_upper_ascii c = true -> sre_lower c = c + 32 /\ sre_lower (c + 32) = c + 32.
Proof.
  intros H. pose proof (upper_range c H) as Hr. clear H. char_cases.
Qed.

Lemma letter_upper (c : char) :
  is_upper_ascii c = true ->
  is_letter_ascii c = true /\ is_letter_ascii (c + 32) = true.
Proof.
  intros H. pose proof (upper_range c H) as Hr. clear H. char_cases.
Qed.

Lemma ci_char_upper (p c : char) :
  is_upper_ascii c = true -> ci_char p c = ci_char p (c + 32).
Proof.
  intros Hu. unfold ci_char.
  destruct (sre_lower_upper c Hu) as [-> ->].
  destruct (letter_upper c Hu) as [Hl Hl'].
  pose proof (upper_range c Hu) as Hr.
  destruct (is_letter_ascii p) eqn:Hp.
  - cbv zeta.
    assert (H1 : (c =? 0x131) = false) by (apply N.eqb_neq; lia).
    assert (H2 : (c + 32 =? 0x131) = false) by (apply N.eqb_neq; lia).
    assert (H3 : (c =? 0x17F) = false) by (apply N.eqb_neq; lia).
    assert (H4 : (c + 32 =? 0x17F) = false) by (apply N.eqb_neq; lia).
    now rewrite H1, H2, H3, H4.
  - destruct (N.eqb_spec c p) as [->|_]; [congruence|].
    destruct (N.eqb_spec (c + 32) p) as [<-|_]; [congruence|reflexivity].
Qed.

Lemma ci_char_case (p c c' : char) :
  ascii_lower c = ascii_lower c' -> ci_char p c = ci_char p c'.
Proof.
  intros H. destruct (ascii_lower_eq c c' H) as [->|[[Hu ->]|[Hu ->]]].
  - reflexivity.
  - now apply ci_char_upper.
  - symmetry. now apply ci_char_upper.
Qed.

Lemma is_word_class_upper (c : char) :
  is_upper_ascii c = true ->
  is_word_class c = true /\ is_word_class (c + 32) = true.
Proof.
  intros H. destruct (letter_upper c H) as [H1 H2].
  unfold is_word_class, is_word_ascii. now rewrite H1, H2.
Qed.

Lemma is_word_class_case (c c' : char) :
  ascii_lower c = ascii_lower c' -> is_word_class c = is_word_class c'.
Proof.
  intros H. destruct (ascii_lower_eq c c' H) as [->|[[Hu ->]|[Hu ->]]].
  - reflexivity.
  - destruct (is_word_class_upper c Hu) as [-> ->]. reflexivity.
  - destruct (is_word_class_upper c' Hu) as [-> ->]. reflexivity.
Qed.

Lemma lit_match_case (t : str) :
  forall rest rest' : str,
    List.map ascii_lower rest = List.map ascii_lower rest' ->
    lit_match t rest = lit_match t rest'.
Proof.
  induction t as [|p t IH]; intros rest rest' H; [reflexivity|].
  destruct rest as [|c rest], rest' as [|c' rest']; try discriminate;
    [reflexivity|].
  injection H as Hc Hrest. rewrite !lit_match_cons.
  now rewrite (ci_char_case p c c' Hc), (IH rest rest' Hrest).
Qed.

Lemma skipn_case (n : nat) :
  forall rest rest' : str,
    List.map ascii_lower rest = List.map ascii_lower rest' ->
    List.map ascii_lower (List.skipn n rest)
    = List.map ascii_lower (List.skipn n rest').
Proof.
  induction n as [|n IH]; intros rest rest' H; [exact H|].
  destruct rest as [|c rest], rest' as [|c' rest']; try discriminate;
    [reflexivity|].
  injection H as _ Hrest. simpl. now apply IH.
Qed.

Lemma lookahead_ok_case (t rest rest' : str) :
  List.map ascii_lower rest = List.map ascii_lower rest' ->
  lookahead_ok t rest = lookahead_ok t rest'.
Proof.
  intros H. apply (skipn_case (List.length t)) in H. unfold lookahead_ok.
  destruct (List.skipn _ rest) as [|c tl], (List.skipn _ rest') as [|c' tl'];
    try discriminate; [reflexivity|].
  injection H as Hc _. now rewrite (is_word_class_case c c' Hc).
Qed.

Lemma find_pointwise (f g : str -> bool) (l : list str) :
  (forall x, f x = g x) -> List.find f l = List.find g l.
Proof.
  intros H. induction l as [|x l IH]; simpl; [reflexivity|].
  now rewrite H, IH.
Qed.

Lemma match_here_case (pat : pattern) (prev prev' : option char)
  (rest rest' : str) :
  option_map ascii_lower prev = option_map ascii_lower prev' ->
  List.map ascii_lower rest = List.map ascii_lower rest' ->
  match_here pat prev rest = match_here pat prev' rest'.
Proof.
  intros Hprev Hrest. unfold match_here, word_branch, phrase_branch.
  assert (Hb : lookbehind_ok prev = lookbehind_ok prev').
  { destruct prev as [c|], prev' as [c'|]; try discriminate; [|reflexivity].
    injection Hprev as Hc. simpl. now rewrite (is_word_class_case c c' Hc). }
  rewrite Hb.
  rewrite (find_pointwise
             (fun w => lit_match w rest && lookahead_ok w rest)
             (fun w => lit_match w rest' && lookahead_ok w rest')).
  - rewrite (find_pointwise (fun p => lit_match p rest)
               (fun p => lit_match p rest')); [reflexivity|].
    intros p. now apply lit_match_case.
  - intros w. now rewrite (lit_match_case w rest rest' Hrest),
      (lookahead_ok_case w rest rest' Hrest).
Qed.

Lemma scan_case (pat : pattern) (rest : str) :
  forall (rest' : str) (pos : nat) (prev prev' : option char) (skip : nat),
    option_map ascii_lower prev = option_map ascii_lower prev' ->
    List.map ascii_lower rest = List.map ascii_lower rest' ->
    List.map span (scan pat pos prev skip rest)
    = List.map span (scan pat pos prev' skip rest').
Proof.
  induction rest as [|c tl IH]; intros rest' pos prev prev' skip Hprev Hrest.
  - destruct rest'; [reflexivity|discriminate].
  - destruct rest' as [|c' tl']; [discriminate|].
    pose proof (match_here_case pat prev prev' (c :: tl) (c' :: tl')
                  Hprev Hrest) as Hm.
    injection Hrest as Hc Htl.
    assert (Hnext : option_map ascii_lower (Some c)
                    = option_map ascii_lower (Some c'))
      by (simpl; now rewrite Hc).
    simpl. destruct skip as [|k]; [|now apply IH].
    rewrite Hm. destruct (match_here pat prev' (c' :: tl')) as [len|].
    + simpl. f_equal. now apply IH.
    + now apply IH.
Qed.

Lemma finditer_case (pat : pattern) (text text' : str) :
  List.map ascii_lower text = List.map ascii_lower text' ->
  List.map span (finditer pat text) = List.map span (finditer pat text').
Proof. intros H. now apply scan_case. Qed.

(** *** The reported list *)

Lemma dedup_loop (ms : list Match) :
  forall seen result : list str,
    fold_left dedup_step ms (seen, result)
    = (seen ++ List.map py_lower (first_by_key seen (List.map m_group ms)),
       result ++ first_by_key seen (List.map m_group ms)).
Proof.
  induction ms as [|m ms IH]; intros seen result; simpl.
  - now rewrite !app_nil_r.
  - unfold dedup_step at 2. simpl.
    destruct (bool_decide (py_lower (m_group m) ∈ seen)).
    + apply IH.
    + rewrite IH. simpl. now rewrite <- !app_assoc.
Qed.

Lemma report_first_by_key (ms : list Match) :
  report ms = first_by_key [] (List.map m_group ms).
Proof. unfold report. now rewrite dedup_loop. Qed.

Lemma first_by_key_fresh (ws : list str) :
  forall (seen : list str) (w : str),
    In w (first_by_key seen ws) -> py_lower w ∉ seen.
Proof.
  induction ws as [|x ws IH]; intros seen w Hin; simpl in Hin.
  - destruct Hin.
  - destruct (bool_decide (py_lower x ∈ seen)) eqn:Hx.
    + now apply IH.
    + apply bool_decide_eq_false in Hx.
      destruct Hin as [<-|Hin]; [exact Hx|].
      apply IH in Hin. intros Hs. apply Hin.
      apply elem_of_app. now left.
Qed.

Lemma first_by_key_NoDup (ws : list str) :
  forall seen : list str,
    List.NoDup (List.map py_lower (first_by_key seen ws)).
Proof.
  induction ws as [|x ws IH]; intros seen; simpl.
  - constructor.
  - destruct (bool_decide (py_lower x ∈ seen)); [apply IH|].
    simpl. constructor; [|apply IH].
    intros Hin. apply in_map_iff in Hin as (w & Hkey & Hin).
    apply first_by_key_fresh in Hin. apply Hin.
    apply elem_of_app. right. rewrite Hkey. apply list_elem_of_singleton.
    reflexivity.
Qed.

Lemma first_by_key_first (ws : list str) :
  forall (seen : list str) (w : str),
    In w (first_by_key seen ws) -> first_occurrence w ws.
Proof.
  induction ws as [|x ws IH]; intros seen w Hin; simpl in Hin.
  - destruct Hin.
  - destruct (bool_decide (py_lower x ∈ seen)) eqn:Hx.
    + pose proof (first_by_key_fresh _ _ _ Hin) as Hfresh.
      apply bool_decide_eq_true in Hx.
      apply IH in Hin as (before & after & -> & Hbefore).
      exists (x :: before), after. split; [reflexivity|].
      intros w' [<-|Hw']; [|now apply Hbefore].
      intros Heq. apply Hfresh. now rewrite <- Heq.
    + destruct Hin as [<-|Hin].
      * exists [], ws. split; [reflexivity|]. intros w' [].
      * pose proof (first_by_key_fresh _ _ _ Hin) as Hfresh.
        apply IH in Hin as (before & after & -> & Hbefore).
        exists (x :: before), after. split; [reflexivity|].
        intros w' [<-|Hw']; [|now apply Hbefore].
        intros Heq. apply Hfresh. apply elem_of_app. right.
        rewrite Heq. now apply list_elem_of_singleton.
Qed.

Lemma first_by_key_keeps (before : list str) :
  forall (seen : list str) (w : str) (after : list str),
    py_lower w ∉ seen ->
    (forall w' : str, In w' before -> py_lower w' <> py_lower w) ->
    In w (first_by_key seen (before ++ w :: after)).
Proof.
  induction before as [|x before IH]; intros seen w after Hfresh Hbefore;
    simpl.
  - rewrite bool_decide_eq_false_2 by exact Hfresh. now left.
  - destruct (bool_decide (py_lower x ∈ seen)).
    + apply IH; [exact Hfresh|]. intros w' Hw'. apply Hbefore. now right.
    + right. apply IH.
      * intros Hin. apply elem_of_app in Hin as [Hin|Hin]; [tauto|].
        apply list_elem_of_singleton in Hin.
        apply (Hbefore x); [now left|]. now symmetry.
      * intros w' Hw'. apply Hbefore. now right.
Qed.

Lemma first_by_key_sublist (ws : list str) :
  forall seen : list str, sublist (first_by_key seen ws) ws.
Proof.
  induction ws as [|x ws IH]; intros seen; simpl.
  - constructor.
  - destruct (bool_decide (py_lower x ∈ seen)).
    + apply sublist_cons, IH.
    + apply sublist_skip, IH.
Qed.

Lemma first_by_key_covers (ws : list str) :
  forall (seen : list str) (g : str),
    In g ws ->
    py_lower g ∈ seen
    \/ exists w : str, In w (first_by_key seen ws) /\ py_lower w = py_lower g.
Proof.
  induction ws as [|x ws IH]; intros seen g Hin; [destruct Hin|].
  simpl. destruct (bool_decide (py_lower x ∈ seen)) eqn:Hx.
  - destruct Hin as [<-|Hin].
    + left. now apply bool_decide_eq_true in Hx.
    + now apply IH.
  - destruct Hin as [<-|Hin].
    + right. exists x. split; [now left|reflexivity].
    + destruct (IH (seen ++ [py_lower x]) g Hin) as [Hs|(w & Hw & Hkey)].
      * apply elem_of_app in Hs as [Hs|Hs]; [now left|].
        apply list_elem_of_singleton in Hs.
        right. exists x. split; [now left|now symmetry].
      * right. exists w. split; [now right|exact Hkey].
Qed.

Lemma find_sensitive_report {time : Type} (self : ComfyUIPlugin time)
  (text : str) (event : option AstrMessageEvent) :
  _find_sensitive_words self text event
  = report (tier_matches self (event_policy self event) text).
Proof.
  unfold _find_sensitive_words, find_with_policy, tier_matches, event_policy.
  destruct text as [|c text]; simpl negb; cbv iota.
  - destruct (str_eqb _ (lit "none")); [reflexivity|].
    destruct (_policy_patterns self !! _) as [[pat|]|]; reflexivity.
  - destruct (str_eqb _ (lit "none")); [reflexivity|].
    destruct (_policy_patterns self !! _) as [[pat|]|]; reflexivity.
Qed.

(** C7. For every tier and every text: the spans of the matches do not
    depend on the case of the ASCII letters of the text, and the reported
    list keeps, in the order of the text, exactly the first occurrence of
    each lower-cased match: no two reported entries have the same lower
    case, every match has its lower case reported once, and the entry
    reported is the text of the first match with that lower case. *)
Theorem matches_ignore_case_and_are_deduplicated {time : Type}
  (self : ComfyUIPlugin time) (text : str)
  (event : option AstrMessageEvent) :
  let policy := event_policy self event in
  let found := _find_sensitive_words self text event in
  let groups := List.map m_group (tier_matches self policy text) in
  (forall text' : str,
      List.map ascii_lower text' = List.map ascii_lower text ->
      List.map span (tier_matches self policy text')
      = List.map span (tier_matches self policy text))
  /\ List.NoDup (List.map py_lower found)
  /\ sublist found groups
  /\ (forall w : str, In w found <-> first_occurrence w groups)
  /\ (forall g : str,
        In g groups -> exists w : str, In w found /\ py_lower w = py_lower g).
Proof.
  intros policy found groups. subst found.
  rewrite find_sensitive_report, report_first_by_key.
  fold policy. fold groups.
  split.
  { intros text' Hcase. unfold tier_matches.
    destruct (str_eqb policy (lit "none")); [reflexivity|].
    destruct (_policy_patterns self !! py_lower policy) as [[pat|]|];
      try reflexivity.
    now apply finditer_case. }
  split; [apply first_by_key_NoDup|].
  split; [apply first_by_key_sublist|].
  split.
  - intros w. split; [apply first_by_key_first|].
    intros (before & after & -> & Hbefore).
    apply first_by_key_keeps; [apply not_elem_of_nil|exact Hbefore].
  - intros g Hg.
    destruct (first_by_key_covers groups [] g Hg) as [Hs|H]; [|exact H].
    now apply elem_of_nil in Hs.
Qed.

(** The example of the specification: with the term [foo], a text that
    holds [Foo] and then [foo] reports the single entry [Foo], and the
    upper-cased text has its two matches at the same places. *)
Lemma matches_ignore_case_and_are_deduplicated_witness :
  _find_sensitive_words (sample_plugin cat_lexicon ∅ false (lit "none") true)
    (lit "Foo and foo") None = [lit "Foo"]
  /\ List.map span
       (tier_matches (sample_plugin cat_lexicon ∅ false (lit "none") true)
          (lit "full") (lit "FOO AND FOO"))
     = [(0, 3); (8, 11)]%nat.
Proof.
  split; [vm_compute; reflexivity|].
  exact (proj1 (matches_ignore_case_and_are_deduplicated
                  (sample_plugin cat_lexicon ∅ false (lit "none") true)
                  (lit "Foo and foo") None)
               (lit "FOO AND FOO") eq_refl).
Defined.

(** *** Tiers and their categories *)

Lemma all_terms_incl (lex : gmap str (list str)) (cats1 cats2 : list str)
  (t : str) :
  incl cats1 cats2 -> In t (all_terms lex cats1) -> In t (all_terms lex cats2).
Proof.
  intros Hincl Hin. apply all_terms_In in Hin as (cat & Hcat & Ht).
  apply all_terms_In. exists cat. split; [now apply Hincl|exact Ht].
Qed.

Lemma lit_match_nonempty (t rest : str) :
  truthy t = true -> lit_match t rest = true -> rest <> [].
Proof.
  destruct t as [|p t]; [discriminate|].
  destruct rest as [|c rest]; [discriminate|]. discriminate.
Qed.

Lemma word_term_truthy (t : str) : is_word_term t = true -> truthy t = true.
Proof.
  unfold is_word_term. intros H.
  apply andb_true_iff in H as [H _]. now apply andb_true_iff in H as [H _].
Qed.

Lemma phrase_term_truthy (t : str) :
  is_phrase_term t = true -> truthy t = true.
Proof.
  unfold is_phrase_term. intros H.
  apply andb_true_iff in H as [H _]. now apply andb_true_iff in H as [H _].
Qed.

(** A text matched by the pattern of some categories is matched by the
    pattern of more categories. *)
Lemma compile_tier_monotone (lex : gmap str (list str))
  (cats1 cats2 : list str) (pat1 : pattern) (text : str) :
  incl cats1 cats2 ->
  compile_tier lex cats1 = Some pat1 ->
  finditer pat1 text <> [] ->
  exists pat2 : pattern,
    compile_tier lex cats2 = Some pat2 /\ finditer pat2 text <> [].
Proof.
  intros Hincl Hpat1 Hfound.
  destruct (finditer pat1 text) as [|m ms] eqn:Hms; [now contradiction Hfound|].
  assert (Hin : In m (finditer pat1 text)) by (rewrite Hms; now left).
  apply finditer_sound in Hin as (pre & suf & len & -> & _ & _ & _ & Hm).
  apply match_here_inv in Hm as [(Hb & w & Hw & _ & Hlit & Ha)|
                                 (p & Hp & _ & Hlit)].
  - apply (compile_tier_word lex cats1 pat1 w Hpat1) in Hw as [Hw Hkind].
    apply (all_terms_incl lex cats1 cats2 w Hincl) in Hw.
    destruct (compile_tier_exists lex cats2 w Hw (or_introl Hkind))
      as [pat2 Hpat2].
    exists pat2. split; [exact Hpat2|].
    apply finditer_complete.
    + apply (lit_match_nonempty w); [now apply word_term_truthy|exact Hlit].
    + apply (match_here_word pat2 _ _ w); try assumption.
      apply (compile_tier_word lex cats2 pat2 w Hpat2). now split.
  - apply (compile_tier_phrase lex cats1 pat1 p Hpat1) in Hp as [Hp Hkind].
    apply (all_terms_incl lex cats1 cats2 p Hincl) in Hp.
    destruct (compile_tier_exists lex cats2 p Hp (or_intror Hkind))
      as [pat2 Hpat2].
    exists pat2. split; [exact Hpat2|].
    apply finditer_complete.
    + apply (lit_match_nonempty p); [now apply phrase_term_truthy|exact Hlit].
    + apply (match_here_phrase pat2 _ _ p); try assumption.
      apply (compile_tier_phrase lex cats2 pat2 p Hpat2). now split.
Qed.

Lemma report_nil (ms : list Match) : report ms = [] <-> ms = [].
Proof.
  rewrite report_first_by_key. destruct ms as [|m ms].
  - simpl. tauto.
  - cbn [List.map first_by_key].
    rewrite bool_decide_eq_false_2 by apply not_elem_of_nil.
    split; discriminate.
Qed.

Lemma tier_names_NoDup : NoDup tier_names.
Proof.
  apply (bool_decide_unpack (NoDup tier_names)). vm_compute. exact I.
Qed.

(** The pattern stored for each of the three tiers. *)
Lemma built_pattern_of_tier {time : Type} (self0 : ComfyUIPlugin time)
  (fo : list str) (tier : str) (cats : list str) :
  policies self0 = init_policies fo ->
  In (tier, cats) (init_policies fo) ->
  py_lower tier = tier
  /\ _policy_patterns (_build_policy_patterns self0) !! tier
     = Some (compile_tier (lexicon self0) cats).
Proof.
  intros Htable Hin. split.
  - destruct Hin as [[= <- _]|[[= <- _]|[[= <- _]|[]]]]; reflexivity.
  - unfold _build_policy_patterns; simpl. rewrite Htable.
    apply build_lookup_tier.
    + exact tier_names_NoDup.
    + now apply list_elem_of_In.
Qed.

Lemma find_with_policy_found {time : Type} (self : ComfyUIPlugin time)
  (policy text : str) :
  find_with_policy self policy text <> [] ->
  str_eqb policy (lit "none") = false
  /\ exists pat : pattern,
       _policy_patterns self !! py_lower policy = Some (Some pat)
       /\ finditer pat text <> [].
Proof.
  unfold find_with_policy.
  destruct (str_eqb policy (lit "none")); [intros H; now contradiction H|].
  destruct (_policy_patterns self !! py_lower policy) as [[pat|]|];
    try (intros H; now contradiction H).
  intros H. split; [reflexivity|]. exists pat. split; [reflexivity|].
  intros Hnil. apply H. now apply report_nil.
Qed.

(** C5. For two tiers of the plugin whose category sets are ordered by
    inclusion, a text with a match under the smaller tier has a match
    under the larger tier; in particular under [full] when it has one
    under [lite]. *)
Theorem tier_inclusion_monotone {time : Type} (self0 : ComfyUIPlugin time)
  (full_order : list str) (tier1 tier2 : str) (cats1 cats2 : list str)
  (text : str) :
  policies self0 = init_policies full_order ->
  In (tier1, cats1) (init_policies full_order) ->
  In (tier2, cats2) (init_policies full_order) ->
  incl cats1 cats2 ->
  let self := _build_policy_patterns self0 in
  find_with_policy self tier1 text <> [] ->
  find_with_policy self tier2 text <> [].
Proof.
  intros Htable Hin1 Hin2 Hincl self Hfound1.
  apply find_with_policy_found in Hfound1 as (_ & pat1 & Hlook1 & Hms1).
  destruct (built_pattern_of_tier self0 full_order tier1 cats1 Htable Hin1)
    as [Hlow1 Hpat1].
  destruct (built_pattern_of_tier self0 full_order tier2 cats2 Htable Hin2)
    as [Hlow2 Hpat2].
  fold self in Hpat1, Hpat2.
  rewrite Hlow1, Hpat1 in Hlook1. injection Hlook1 as Hc1.
  destruct (compile_tier_monotone (lexicon self0) cats1 cats2 pat1 text
              Hincl Hc1 Hms1) as (pat2 & Hc2 & Hms2).
  unfold find_with_policy. rewrite Hlow2, Hpat2, Hc2.
  assert (Hnone : str_eqb tier2 (lit "none") = false).
  { destruct Hin2 as [[= <- <-]|[[= <- _]|[[= <- _]|[]]]]; try reflexivity.
    discriminate Hc2. }
  rewrite Hnone. intros Hnil. apply Hms2. now apply report_nil.
Qed.

Lemma tier_inclusion_monotone_witness :
  find_with_policy (sample_plugin cat_lexicon ∅ false (lit "none") true)
    (lit "full") (lit "a cat sat") <> [].
Proof.
  apply (tier_inclusion_monotone
           (sample_config cat_lexicon ∅ false (lit "none") true)
           full_categories (lit "lite") (lit "full")
           [LEGACY_LITE] full_categories (lit "a cat sat")).
  - reflexivity.
  - right; left; reflexivity.
  - right; right; left; reflexivity.
  - intros c [<-|[]]. left; reflexivity.
  - vm_compute. discriminate.
Defined.

(** *** The [full] tier *)

Lemma lit_match_app (t occ post : str) :
  lit_match t occ = true -> lit_match t (occ ++ post) = true.
Proof.
  revert occ. induction t as [|p t IH]; intros occ H; [reflexivity|].
  destruct occ as [|c occ]; [discriminate|].
  rewrite lit_match_cons in H. apply andb_true_iff in H as [Hc H].
  change ((c :: occ) ++ post) with (c :: (occ ++ post)).
  rewrite lit_match_cons, Hc. now apply IH.
Qed.

(** C1, as the code has it.  The [full] tier activates the ten categories
    [__init__] lists for it.  Every ASCII term that is not empty, in one of
    these categories of the lexicon, is in the pattern of the [full] tier,
    as a word term when it has no space and as a phrase term otherwise; and
    a text that holds the term, up to case, has a match under the [full]
    tier, provided, when the term has no space, that no character right
    before or right after the occurrence is one the class [[A-Za-z0-9_]]
    matches under [re.IGNORECASE]: an ASCII letter, an ASCII digit, the
    underscore, or one of U+0130, U+0131, U+017F and U+212A, which the flag
    adds to the class ([is_word_class]). *)
Theorem full_tier_covers_its_categories {time : Type}
  (self0 : ComfyUIPlugin time) (full_order : list str) (cat : str)
  (ts : list str) (t pre occ post : str) :
  policies self0 = init_policies full_order ->
  Permutation full_order full_categories ->
  In cat full_categories ->
  lexicon self0 !! cat = Some ts ->
  In t ts ->
  t <> [] ->
  _is_ascii_term t = true ->
  ci_equal t occ = true ->
  (has_space t = false ->
   (forall c : char, last pre = Some c -> is_word_class c = false)
   /\ (forall c : char, head post = Some c -> is_word_class c = false)) ->
  let self := _build_policy_patterns self0 in
  (exists pat : pattern,
      _policy_patterns self !! lit "full" = Some (Some pat)
      /\ (if has_space t then In t (phrase_terms pat)
          else In t (word_terms pat)))
  /\ _find_sensitive_words self (pre ++ occ ++ post) None <> [].
Proof.
  intros Htable Hperm Hcat Hlex Ht Hne Hascii Hocc Hbound self.
  assert (Hfo : In cat full_order).
  { apply (Permutation_in cat (Permutation_sym Hperm)). exact Hcat. }
  assert (Hall : In t (all_terms (lexicon self0) full_order)).
  { apply all_terms_In. exists cat. split; [exact Hfo|].
    rewrite Hlex. exact Ht. }
  assert (Htruthy : truthy t = true) by (destruct t; [now contradiction Hne|reflexivity]).
  assert (Hkind : is_word_term t = true \/ is_phrase_term t = true).
  { unfold is_word_term, is_phrase_term. rewrite Htruthy, Hascii.
    destruct (has_space t); auto. }
  destruct (compile_tier_exists _ _ t Hall Hkind) as [pat Hpat].
  assert (Hin : In (lit "full", full_order) (init_policies full_order))
    by (right; right; left; reflexivity).
  destruct (built_pattern_of_tier self0 full_order _ _ Htable Hin)
    as [_ Hlook].
  fold self in Hlook. rewrite Hpat in Hlook.
  unfold ci_equal in Hocc. apply andb_true_iff in Hocc as [Hlen Hlit].
  apply Nat.eqb_eq in Hlen.
  assert (Hterm : if has_space t then In t (phrase_terms pat)
                  else In t (word_terms pat)).
  { destruct (has_space t) eqn:Hsp.
    - apply (compile_tier_phrase _ _ _ t Hpat). split; [exact Hall|].
      unfold is_phrase_term. now rewrite Htruthy, Hascii, Hsp.
    - apply (compile_tier_word _ _ _ t Hpat). split; [exact Hall|].
      unfold is_word_term. now rewrite Htruthy, Hascii, Hsp. }
  split; [exists pat; split; [exact Hlook|exact Hterm]|].
  assert (Hsuf : occ ++ post <> []).
  { apply (lit_match_nonempty t); [exact Htruthy|now apply lit_match_app]. }
  assert (Hms : finditer pat (pre ++ occ ++ post) <> []).
  { apply finditer_complete; [exact Hsuf|].
    destruct (has_space t) eqn:Hsp.
    - apply (match_here_phrase pat _ _ t Hterm). now apply lit_match_app.
    - destruct (Hbound eq_refl) as [Hbefore Hafter].
      apply (match_here_word pat _ _ t); [|exact Hterm| |].
      + unfold lookbehind_ok. destruct (last pre) as [c|]; [|reflexivity].
        now rewrite (Hbefore c eq_refl).
      + now apply lit_match_app.
      + unfold lookahead_ok. rewrite Hlen, skipn_app, skipn_all, Nat.sub_diag.
        change ([] ++ List.skipn 0 post) with post.
        destruct post as [|c post]; [reflexivity|].
        now rewrite (Hafter c eq_refl). }
  unfold _find_sensitive_words.
  destruct (pre ++ occ ++ post) as [|c text] eqn:Htext.
  { destruct pre; [now contradiction Hsuf|discriminate]. }
  simpl negb. cbv iota. unfold find_with_policy.
  change (str_eqb (lit "full") (lit "none")) with false. cbv iota.
  change (py_lower (lit "full")) with (lit "full").
  rewrite Hlook. intros Hnil. apply Hms. now apply report_nil.
Qed.

Lemma full_tier_covers_its_categories_witness :
  _find_sensitive_words (sample_plugin cat_lexicon ∅ false (lit "none") true)
    (lit "a CAT sat") None <> [].
Proof.
  apply (full_tier_covers_its_categories
           (sample_config cat_lexicon ∅ false (lit "none") true)
           full_categories LEGACY_LITE [lit "cat"; lit "foo"] (lit "cat")
           (lit "a ") (lit "CAT") (lit " sat")).
  - reflexivity.
  - apply Permutation_refl.
  - left; reflexivity.
  - reflexivity.
  - left; reflexivity.
  - discriminate.
  - reflexivity.
  - reflexivity.
  - intros _. split; intros c [= <-]; reflexivity.
Defined.

(** C1 fails for a category that is not one of the ten: the term
    [badword] of the category [full] of the lexicon is an ASCII word term,
    the text is that term, and the [full] tier has no pattern and reports
    nothing. *)
Lemma full_tier_misses_other_categories :
  let self := sample_plugin other_category_lexicon ∅ false (lit "none") true in
  lexicon self !! lit "full" = Some [lit "badword"]
  /\ is_word_term (lit "badword") = true
  /\ _policy_patterns self !! lit "full" = Some None
  /\ _find_sensitive_words self (lit "badword") None = [].
Proof. vm_compute. repeat split. Qed.

(** The boundary of a word term is the class as [re.IGNORECASE] reads it:
    the Kelvin sign (U+212A) is no character of [[A-Za-z0-9_]] read without
    flags, it is one of the class of the compiled pattern, and the text
    [cat] followed by it has no match under the [full] tier, while [cat]
    followed by U+00E9 has one. *)
Example kelvin_sign_is_no_boundary :
  let self := sample_plugin cat_lexicon ∅ false (lit "none") true in
  is_word_ascii 0x212A = false
  /\ is_word_class 0x212A = true
  /\ _find_sensitive_words self (lit "cat" ++ [0x212A]) None = []
  /\ _find_sensitive_words self (lit "cat" ++ [0xE9]) None = [lit "cat"].
Proof. vm_compute. repeat split. Qed.

(** ** Response segmenter: several prompts *)

Lemma skipn_nth_error_Some (l : list str) :
  forall (i : nat) (p : str),
    List.nth_error l i = Some p -> List.skipn i l = p :: List.skipn (S i) l.
Proof.
  induction l as [|x l IH]; intros [|i] p H; try discriminate.
  - now injection H as ->.
  - simpl in H. apply IH in H. exact H.
Qed.

Lemma skipn_nth_error_None (l : list str) :
  forall i : nat, List.nth_error l i = None -> List.skipn i l = [].
Proof.
  induction l as [|x l IH]; intros [|i] H; try reflexivity; try discriminate.
  simpl in H. now apply IH.
Qed.

Lemma segment_loop (cleaned : list str) (parts : list str) :
  forall (acc : list Segment) (idx : nat),
    (fold_left (segment_step cleaned) parts (acc, idx)).1
    = acc ++ interleave parts (List.skipn idx cleaned).
Proof.
  induction parts as [|chunk parts IH]; intros acc idx; simpl.
  - now rewrite app_nil_r.
  - unfold segment_step at 2. simpl.
    destruct (List.nth_error cleaned idx) as [p|] eqn:Hnth.
    + rewrite IH, (skipn_nth_error_Some cleaned idx p Hnth).
      unfold text_segment.
      destruct (truthy (strip chunk)); simpl; now rewrite <- !app_assoc.
    + rewrite IH, (skipn_nth_error_None cleaned idx Hnth).
      unfold text_segment.
      destruct (truthy (strip chunk)); simpl; now rewrite <- ?app_assoc.
Qed.

Lemma build_segments_interleave (parts cleaned : list str) :
  build_segments parts cleaned = interleave parts cleaned.
Proof. unfold build_segments. now rewrite segment_loop. Qed.

Lemma filter_prompt_text_segment (chunk : str) (rest : list Segment) :
  List.filter is_prompt (text_segment chunk ++ rest)
  = List.filter is_prompt rest.
Proof.
  unfold text_segment. destruct (truthy (strip chunk)); reflexivity.
Qed.

Lemma interleave_nil_prompts (chunks : list str) :
  List.filter is_prompt (interleave chunks []) = [].
Proof.
  induction chunks as [|c chunks IH]; [reflexivity|].
  simpl. now rewrite filter_prompt_text_segment.
Qed.

(** The prompt segments are the prompts, in order, when there are enough
    chunks. *)
Lemma interleave_prompts (chunks : list str) :
  forall prompts : list str,
    (List.length prompts <= List.length chunks)%nat ->
    List.map content (List.filter is_prompt (interleave chunks prompts))
    = prompts.
Proof.
  induction chunks as [|c chunks IH]; intros prompts Hlen.
  - destruct prompts; [reflexivity|simpl in Hlen; lia].
  - simpl. rewrite filter_prompt_text_segment.
    destruct prompts as [|p prompts].
    + now rewrite interleave_nil_prompts.
    + simpl. f_equal. apply IH. simpl in Hlen. lia.
Qed.

Lemma no_adjacent_text_after_text (chunk : str) (p : str)
  (rest : list Segment) :
  no_adjacent_text (text_segment chunk ++ MkSegment SegPrompt p :: rest)
  = no_adjacent_text (MkSegment SegPrompt p :: rest).
Proof.
  unfold text_segment. destruct (truthy (strip chunk)); reflexivity.
Qed.

Lemma no_adjacent_text_prompt (p : str) (rest : list Segment) :
  no_adjacent_text (MkSegment SegPrompt p :: rest) = no_adjacent_text rest.
Proof. destruct rest; reflexivity. Qed.

(** With one chunk more than prompts, a text segment is never followed by
    a text segment. *)
Lemma interleave_no_adjacent_text (chunks : list str) :
  forall prompts : list str,
    List.length chunks = S (List.length prompts) ->
    no_adjacent_text (interleave chunks prompts) = true.
Proof.
  induction chunks as [|c chunks IH]; intros prompts Hlen; [discriminate|].
  destruct prompts as [|p prompts].
  - destruct chunks; [|discriminate]. simpl. rewrite app_nil_r.
    unfold text_segment. destruct (truthy (strip c)); reflexivity.
  - simpl. rewrite no_adjacent_text_after_text, no_adjacent_text_prompt.
    apply IH. simpl in Hlen. lia.
Qed.

Lemma alternating_after_text (chunk : str) (p : str) (rest : list Segment) :
  alternating (text_segment chunk ++ MkSegment SegPrompt p :: rest)
  = alternating (MkSegment SegPrompt p :: rest).
Proof.
  unfold text_segment. destruct (truthy (strip chunk)); reflexivity.
Qed.

Lemma alternating_from_prompt (chunks : list str) :
  forall (prompts : list str) (p : str),
    List.length chunks = S (List.length prompts) ->
    alternating (MkSegment SegPrompt p :: interleave chunks prompts)
    = forallb not_blank (List.removelast chunks).
Proof.
  induction chunks as [|c chunks IH]; intros prompts p Hlen; [discriminate|].
  destruct prompts as [|p' prompts].
  - destruct chunks; [|discriminate]. simpl. rewrite app_nil_r.
    unfold text_segment. destruct (truthy (strip c)); reflexivity.
  - assert (Hlen' : List.length chunks = S (List.length prompts))
      by (simpl in Hlen; lia).
    destruct chunks as [|c' chunks]; [discriminate|].
    change (List.removelast (c :: c' :: chunks))
      with (c :: List.removelast (c' :: chunks)).
    change (forallb not_blank (c :: List.removelast (c' :: chunks)))
      with (not_blank c && forallb not_blank (List.removelast (c' :: chunks))).
    rewrite <- (IH prompts p' Hlen').
    change (interleave (c :: c' :: chunks) (p' :: prompts))
      with (text_segment c
              ++ MkSegment SegPrompt p' :: interleave (c' :: chunks) prompts).
    unfold text_segment, not_blank.
    destruct (truthy (strip c)); reflexivity.
Qed.

(** With one chunk more than prompts, the sequence alternates exactly when
    no chunk between two tags is blank. *)
Lemma interleave_alternating (chunks prompts : list str) :
  List.length chunks = S (List.length prompts) ->
  alternating (interleave chunks prompts)
  = forallb not_blank (inner_chunks chunks).
Proof.
  intros Hlen. destruct chunks as [|c chunks]; [discriminate|].
  unfold inner_chunks. simpl List.tl.
  destruct prompts as [|p prompts].
  - destruct chunks; [|discriminate]. simpl. rewrite app_nil_r.
    unfold text_segment. destruct (truthy (strip c)); reflexivity.
  - simpl interleave. rewrite alternating_after_text.
    apply alternating_from_prompt. simpl in Hlen. lia.
Qed.

Lemma re_split_tags_length (full_text : str) :
  List.length (re_split_tags full_text)
  = S (List.length (re_findall_tags full_text)).
Proof.
  unfold re_split_tags, re_findall_tags.
  rewrite length_app, !length_map. simpl. lia.
Qed.

Lemma usable_prompts_length (full_text : str) :
  (List.length (usable_prompts full_text)
   <= List.length (re_findall_tags full_text))%nat.
Proof.
  unfold usable_prompts.
  etransitivity; [apply List.filter_length_le|]. now rewrite length_map.
Qed.

Lemma interleave_snoc (chunks : list str) :
  forall (prompts : list str) (tail : str),
    List.length chunks = List.length prompts ->
    interleave (chunks ++ [tail]) prompts
    = interleave chunks prompts ++ text_segment tail.
Proof.
  induction chunks as [|c chunks IH]; intros prompts tail Hlen.
  - destruct prompts; [|discriminate]. simpl. now rewrite app_nil_r.
  - destruct prompts as [|p prompts]; [discriminate|].
    simpl. rewrite IH by (simpl in Hlen; lia).
    now rewrite <- app_assoc.
Qed.

(** With as many chunks as prompts, the walk ends with a prompt
    segment. *)
Lemma interleave_last_prompt (chunks : list str) :
  forall prompts : list str,
    List.length chunks = List.length prompts ->
    prompts <> [] ->
    exists p : str,
      last (interleave chunks prompts) = Some (MkSegment SegPrompt p).
Proof.
  induction chunks as [|c chunks IH]; intros prompts Hlen Hne.
  - destruct prompts; [now contradiction Hne|discriminate].
  - destruct prompts as [|p prompts]; [discriminate|].
    simpl interleave. rewrite last_app_cons.
    destruct prompts as [|p' prompts].
    + destruct chunks; [|discriminate]. exists p. reflexivity.
    + destruct (IH (p' :: prompts)) as [q Hq];
        [simpl in Hlen |- *; lia|discriminate|].
      exists q. rewrite last_cons, Hq. reflexivity.
Qed.

(** C3, as the code has it.  With the multi-image mode on and more than
    one usable prompt, the handler stores the segments of the walk over the
    chunks around the tags and the usable prompts: for each chunk the
    trimmed chunk as a text segment when it is not empty, then the next
    prompt that is left.  The prompt segments are the usable prompts, in
    order.  When every tag holds a usable prompt, no two text segments are
    adjacent, the sequence alternates exactly when no chunk between two
    tags is blank (two prompt segments are adjacent otherwise), and it is
    a sequence that ends with a prompt segment, followed by the trimmed
    text after the last tag as one text segment when that text is not
    blank. *)
Theorem multi_image_segments {time : Type} (self : ComfyUIPlugin time)
  (event : AstrMessageEvent) (full_text : str) :
  multi_image_mode self = true ->
  (2 <= List.length (usable_prompts full_text))%nat ->
  let chunks := re_split_tags full_text in
  let segments := interleave chunks (usable_prompts full_text) in
  _extract_prompt_before_filter self event (Some full_text)
  = set_segments event segments
  /\ List.map content (List.filter is_prompt segments)
     = usable_prompts full_text
  /\ (List.length (usable_prompts full_text)
      = List.length (re_findall_tags full_text) ->
      no_adjacent_text segments = true
      /\ alternating segments = forallb not_blank (inner_chunks chunks)
      /\ exists (front : list Segment) (p : str),
           segments = front ++ text_segment (tag_matches full_text).2
           /\ last front = Some (MkSegment SegPrompt p)).
Proof.
  intros Hmulti Htwo chunks segments.
  pose proof (re_split_tags_length full_text) as Hchunks.
  pose proof (usable_prompts_length full_text) as Hle.
  split; [|split].
  - unfold _extract_prompt_before_filter.
    pose proof (clean_prompts_usable full_text) as Hclean.
    destruct full_text as [|c0 text0] eqn:Htext.
    { simpl in Htwo. lia. }
    simpl negb. cbv iota.
    destruct (re_findall_tags (c0 :: text0)) as [|q qs] eqn:Hfind.
    { simpl in Hle. lia. }
    rewrite Hclean.
    subst segments chunks.
    destruct (usable_prompts (c0 :: text0)) as [|p1 [|p2 ps]] eqn:Husable;
      [simpl in Htwo; lia|simpl in Htwo; lia|].
    rewrite Hmulti, build_segments_interleave.
    destruct (re_split_tags (c0 :: text0)) as [|chunk rest] eqn:Hsplit;
      [discriminate|].
    simpl interleave. unfold text_segment.
    destruct (truthy (strip chunk)); reflexivity.
  - apply interleave_prompts. fold chunks in Hchunks. lia.
  - intros Hall. fold chunks in Hchunks. split; [|split].
    + apply interleave_no_adjacent_text. lia.
    + apply interleave_alternating. lia.
    + assert (Hlen : List.length (List.map fst (tag_matches full_text).1)
                     = List.length (usable_prompts full_text)).
      { rewrite Hall. unfold re_findall_tags. now rewrite !length_map. }
      destruct (interleave_last_prompt _ _ Hlen) as [p Hp].
      { intros Hnil. rewrite Hnil in Htwo. simpl in Htwo. lia. }
      exists (interleave (List.map fst (tag_matches full_text).1)
                (usable_prompts full_text)), p.
      split; [|exact Hp].
      subst segments chunks. unfold re_split_tags.
      now apply interleave_snoc.
Qed.

Lemma multi_image_segments_witness :
  _comfy_segments
    (_extract_prompt_before_filter
       (sample_plugin ∅ ∅ true (lit "none") true)
       (private_event (lit "u1")) (Some two_prompts_text))
  = Some [ MkSegment SegText (lit "intro"); MkSegment SegPrompt (lit "p1");
           MkSegment SegText (lit "middle"); MkSegment SegPrompt (lit "p2");
           MkSegment SegText (lit "tail") ].
Proof.
  exact (f_equal _comfy_segments
           (proj1 (multi_image_segments
                     (sample_plugin ∅ ∅ true (lit "none") true)
                     (private_event (lit "u1")) two_prompts_text
                     eq_refl (le_n 2)))).
Defined.

(** The example of the specification with two prompts: its segments pair
    into (intro, p1), (middle, p2) and (tail, no prompt). *)
Example two_prompts_pairs :
  build_pairs
    (interleave (re_split_tags two_prompts_text)
       (usable_prompts two_prompts_text))
  = [ MkPair (lit "intro") (Some (lit "p1"));
      MkPair (lit "middle") (Some (lit "p2"));
      MkPair (lit "tail") None ].
Proof. vm_compute. reflexivity. Qed.

(** C3 fails on two tags in a row: the two usable prompts give two prompt
    segments that are adjacent. *)
Lemma adjacent_tags_not_alternating :
  let event' :=
    _extract_prompt_before_filter
      (sample_plugin ∅ ∅ true (lit "none") true)
      (private_event (lit "u1")) (Some adjacent_tags_text) in
  usable_prompts adjacent_tags_text = [lit "a"; lit "b"]
  /\ _comfy_segments event'
     = Some [MkSegment SegPrompt (lit "a"); MkSegment SegPrompt (lit "b")]
  /\ alternating
       [MkSegment SegPrompt (lit "a"); MkSegment SegPrompt (lit "b")]
     = false.
Proof. vm_compute. repeat split. Qed.

(** A tag whose prompt is blank shifts the prompts that follow it: the
    prompt [a] is placed after the chunk [x], before the blank tag, and the
    last two chunks give two text segments in a row. *)
Example blank_prompt_shifts_prompts :
  _comfy_segments
    (_extract_prompt_before_filter
       (sample_plugin ∅ ∅ true (lit "none") true)
       (private_event (lit "u1")) (Some blank_prompt_text))
  = Some [ MkSegment SegText (lit "x"); MkSegment SegPrompt (lit "a");
           MkSegment SegText (lit "y"); MkSegment SegPrompt (lit "b");
           MkSegment SegText (lit "z"); MkSegment SegText (lit "w") ].
Proof. vm_compute. reflexivity. Qed.

(** ** The scan of the tags is total and loses no text *)

Lemma starts_with_spec (pre s after : str) :
  starts_with pre s = Some after -> s = pre ++ after.
Proof.
  revert s. induction pre as [|p pre IH]; intros s H; simpl in H.
  - now injection H as ->.
  - destruct s as [|c s]; [discriminate|].
    destruct (N.eqb_spec p c) as [->|]; [|discriminate].
    apply IH in H. now rewrite H.
Qed.

Lemma find_lit_spec (needle s : str) :
  forall before after : str,
    find_lit needle s = Some (before, after) ->
    s = before ++ needle ++ after.
Proof.
  induction s as [|c s IH]; intros before after H.
  - simpl in H. destruct (starts_with needle []) as [a|] eqn:Hs;
      [|discriminate].
    injection H as <- <-. now apply starts_with_spec in Hs.
  - simpl in H. destruct (starts_with needle (c :: s)) as [a|] eqn:Hs.
    + injection H as <- <-. now apply starts_with_spec in Hs.
    + destruct (find_lit needle s) as [[b a]|] eqn:Hf; [|discriminate].
      injection H as <- <-. now rewrite (IH b a eq_refl).
Qed.

Lemma tag_scan_shorter (s before inner captured after : str) :
  find_lit OPEN_TAG s = Some (before, inner) ->
  find_lit CLOSE_TAG inner = Some (captured, after) ->
  (List.length after < List.length s)%nat.
Proof.
  intros H1 H2. apply find_lit_spec in H1, H2. subst s inner.
  rewrite !length_app. simpl. lia.
Qed.

(** The result does not depend on the fuel, once there is as much fuel as
    characters. *)
Lemma tag_scan_fuel (n : nat) :
  forall (m : nat) (s : str),
    (List.length s <= n)%nat -> (List.length s <= m)%nat ->
    tag_scan n s = tag_scan m s.
Proof.
  induction n as [|n IH]; intros m s Hn Hm.
  - destruct s; [|simpl in Hn; lia]. destruct m; reflexivity.
  - destruct m as [|m].
    + destruct s; [reflexivity|simpl in Hm; lia].
    + simpl. destruct (find_lit OPEN_TAG s) as [[before inner]|] eqn:H1;
        [|reflexivity].
      destruct (find_lit CLOSE_TAG inner) as [[captured after]|] eqn:H2;
        [|reflexivity].
      pose proof (tag_scan_shorter _ _ _ _ _ H1 H2) as Hlt.
      rewrite (IH m after) by lia. reflexivity.
Qed.

(** The chunks, the tags with their captured groups and the last chunk
    make the text again. *)
Lemma tag_scan_rebuild (n : nat) :
  forall s : str, rebuild (tag_scan n s).1 (tag_scan n s).2 = s.
Proof.
  induction n as [|n IH]; intros s; [reflexivity|].
  simpl. destruct (find_lit OPEN_TAG s) as [[before inner]|] eqn:H1;
    [|reflexivity].
  destruct (find_lit CLOSE_TAG inner) as [[captured after]|] eqn:H2;
    [|reflexivity].
  specialize (IH after).
  destruct (tag_scan n after) as [ms tail].
  apply find_lit_spec in H1, H2. subst s inner.
  cbn [fst snd] in *. rewrite <- IH.
  unfold rebuild. cbn [flat_map fst snd].
  now rewrite <- !app_assoc.
Qed.

(** The lower case, not the relation of the pattern, decides which matches
    are one entry: the long s (U+017F) is matched by the letter [s] of a
    term, is its own lower case, and is reported apart from [set]. *)
Example long_s_is_reported_apart :
  report (finditer (Pattern [lit "set"] [])
            (lit "Set set " ++ [0x17F] ++ lit "et"))
  = [lit "Set"; [0x17F] ++ lit "et"].
Proof. vm_compute. reflexivity. Qed.

(** * Further properties *)

(** ** Access check *)

(** X1. The access check passes exactly when the sender is an
    administrator or there is no lockdown, and the message is either not a
    group message or a group message whose group id is known and is in the
    whitelist or sent by an administrator with the whitelist bypass.  A
    pass has the empty reason, a refusal a reason that is not empty. *)
Theorem check_access_decision {time : Type} (self : ComfyUIPlugin time)
  (event : AstrMessageEvent) :
  ((_check_access self event).1 = true
   <-> ((lockdown self = false \/ is_admin self event = true)
        /\ (_is_group_message event = false
            \/ exists gid : str,
                 _get_group_id event = Some gid
                 /\ (gid ∈ whitelist_group_ids self
                     \/ (is_admin self event = true
                         /\ admin_bypass_whitelist self = true)))))
  /\ ((_check_access self event).1 = true
      -> (_check_access self event).2 = [])
  /\ ((_check_access self event).1 = false
      -> (_check_access self event).2 <> []).
Proof.
  assert (Hne : forall gid : str,
            NOT_WHITELISTED_OPEN ++ gid ++ NOT_WHITELISTED_CLOSE <> []).
  { intros gid H. discriminate H. }
  unfold _check_access.
  destruct (lockdown self) eqn:Hlock; destruct (is_admin self event) eqn:Hadm;
    cbn [negb andb].
  2: { split; [|split]; cbn [fst snd]; [|discriminate|intros _; discriminate].
       split; [discriminate|]. intros [[H|H] _]; discriminate. }
  all: destruct (_is_group_message event) eqn:Hgrp.
  all: try (split; [|split]; cbn [fst snd]; [|reflexivity|discriminate];
            split; [intros _; split; auto|reflexivity]).
  all: destruct (_get_group_id event) as [gid|] eqn:Hgid.
  all: try (split; [|split]; cbn [fst snd]; [|discriminate|intros _; discriminate];
            split; [discriminate|];
            intros [_ [H|(g & H & _)]]; discriminate).
  all: destruct (bool_decide (gid ∈ whitelist_group_ids self)) eqn:Hwl.
  all: try (apply bool_decide_eq_true in Hwl;
            split; [|split]; cbn [fst snd]; [|reflexivity|discriminate];
            split; [intros _; split; [auto|right; exists gid; auto]|reflexivity]).
  all: apply bool_decide_eq_false in Hwl.
  all: destruct (admin_bypass_whitelist self) eqn:Hbp; cbn [andb].
  all: try (split; [|split]; cbn [fst snd]; [|reflexivity|discriminate];
            split; [intros _; split; [auto|right; exists gid; auto]|reflexivity]).
  all: split; [|split]; cbn [fst snd]; [|discriminate|intros _; apply Hne].
  all: split; [discriminate|].
  all: intros [_ [H|(g & Hg & [H|[H1 H2]])]];
    [discriminate|injection Hg as <-; now contradiction Hwl|discriminate].
Qed.

Lemma check_access_decision_witness :
  (_check_access (gate_plugin true {[ lit "g1" ]} true)
     (group_event (lit "admin") (lit "g2"))).1 = true.
Proof.
  apply (proj1 (check_access_decision (gate_plugin true {[ lit "g1" ]} true)
                  (group_event (lit "admin") (lit "g2")))).
  split; [right; reflexivity|].
  right. exists (lit "g2"). split; [reflexivity|].
  right. split; reflexivity.
Defined.

(** X2. Outside a lockdown and with the whitelist bypass switched off, the
    access check does not depend on who sends the message: an
    administrator is refused in a group that is not in the whitelist like
    anybody else. *)
Theorem check_access_ignores_sender {time : Type}
  (self : ComfyUIPlugin time) (event : AstrMessageEvent) (sender : str) :
  lockdown self = false ->
  admin_bypass_whitelist self = false ->
  _check_access self (with_sender event sender) = _check_access self event.
Proof.
  intros Hlock Hbp. unfold _check_access. rewrite Hlock, Hbp.
  cbn [andb]. rewrite !andb_false_r. reflexivity.
Qed.

Lemma check_access_ignores_sender_witness :
  _check_access (gate_plugin false {[ lit "g1" ]} false)
    (group_event (lit "admin") (lit "g2"))
  = _check_access (gate_plugin false {[ lit "g1" ]} false)
      (group_event (lit "u1") (lit "g2"))
  /\ (_check_access (gate_plugin false {[ lit "g1" ]} false)
        (group_event (lit "admin") (lit "g2"))).1 = false.
Proof.
  split; [|vm_compute; reflexivity].
  exact (check_access_ignores_sender (gate_plugin false {[ lit "g1" ]} false)
           (group_event (lit "u1") (lit "g2")) (lit "admin")
           eq_refl eq_refl).
Defined.

(** ** Cooldown over several checks *)

(** Projections of a plugin given by its fields. *)
Ltac plugin_fields :=
  cbn [fst snd cooldown_seconds user_cooldowns admin_user_ids lockdown
       whitelist_group_ids multi_image_mode default_group_policy
       default_private_policy group_policies policies
       admin_bypass_whitelist admin_bypass_cooldown admin_bypass_sensitive
       lexicon _policy_patterns].

Tactic Notation "plugin_fields" "in" hyp(H) :=
  cbn [fst snd cooldown_seconds user_cooldowns admin_user_ids lockdown
       whitelist_group_ids multi_image_mode default_group_policy
       default_private_policy group_policies policies
       admin_bypass_whitelist admin_bypass_cooldown admin_bypass_sensitive
       lexicon _policy_patterns] in H.

Section CooldownRunProofs.

Variable time : Type.
Variable tsub : time -> time -> time.
Variable tlt : time -> time -> bool.
Variable tint : time -> Z.
Variable tzero : time.

Lemma check_cooldown_admin (self : ComfyUIPlugin time)
  (event : AstrMessageEvent) (t : time) :
  is_admin self event && admin_bypass_cooldown self = true ->
  _check_cooldown tsub tlt tint tzero self event t = ((true, 0%Z), self).
Proof. intros H. unfold _check_cooldown. now rewrite H. Qed.

Lemma check_cooldown_run_admin (self : ComfyUIPlugin time)
  (event : AstrMessageEvent) (times : list time) :
  is_admin self event && admin_bypass_cooldown self = true ->
  forall acc : list (bool * Z),
    fold_left
      (fun st t =>
         let r := _check_cooldown tsub tlt tint tzero st.2 event t in
         (st.1 ++ [r.1], r.2))
      times (acc, self)
    = (acc ++ List.repeat (true, 0%Z) (List.length times), self).
Proof.
  intros Hadmin. induction times as [|t times IH]; intros acc; simpl.
  - now rewrite app_nil_r.
  - rewrite (check_cooldown_admin self event t Hadmin). simpl.
    rewrite IH, <- app_assoc. reflexivity.
Qed.

(** X3. An administrator with the cooldown bypass passes every check of a
    run, whatever the times of the checks, and the run leaves the plugin,
    hence the cooldown table, as it was. *)
Theorem admin_bypass_never_cools_down (self : ComfyUIPlugin time)
  (event : AstrMessageEvent) (times : list time) :
  is_admin self event && admin_bypass_cooldown self = true ->
  check_cooldown_run tsub tlt tint tzero self event times
  = (List.repeat (true, 0%Z) (List.length times), self).
Proof.
  intros Hadmin. unfold check_cooldown_run.
  now rewrite (check_cooldown_run_admin self event times Hadmin).
Qed.

Lemma is_admin_set_user_cooldowns (self : ComfyUIPlugin time)
  (uc : gmap str time) (event : AstrMessageEvent) :
  is_admin (set_user_cooldowns self uc) event = is_admin self event.
Proof. reflexivity. Qed.

(** X4. The checks of two different users do not interfere: checking one
    user first or the other first gives each user the same result and
    leaves the same plugin. *)
Theorem check_cooldown_users_commute (self : ComfyUIPlugin time)
  (eventA eventB : AstrMessageEvent) (tA tB : time) :
  sender_id eventA <> sender_id eventB ->
  let rA := _check_cooldown tsub tlt tint tzero self eventA tA in
  let rB := _check_cooldown tsub tlt tint tzero self eventB tB in
  let rAB := _check_cooldown tsub tlt tint tzero rA.2 eventB tB in
  let rBA := _check_cooldown tsub tlt tint tzero rB.2 eventA tA in
  rAB.1 = rB.1 /\ rBA.1 = rA.1 /\ rAB.2 = rBA.2.
Proof.
  intros Hne. cbv zeta. destruct self as [cd uc admins lk wl mi dg dp gp pol
    bw bc bs lex pp].
  unfold _check_cooldown, is_admin, set_user_cooldowns.
  plugin_fields.
  destruct (bool_decide (sender_id eventA ∈ admins) && bc) eqn:HA;
    destruct (bool_decide (sender_id eventB ∈ admins) && bc) eqn:HB;
    plugin_fields; rewrite ?HA, ?HB.
  - repeat split.
  - destruct (tlt _ cd); plugin_fields; rewrite HA; repeat split.
  - destruct (tlt _ cd); plugin_fields; rewrite HB; repeat split.
  - destruct (tlt (tsub tA _) cd) eqn:HtA;
      destruct (tlt (tsub tB _) cd) eqn:HtB;
      plugin_fields; rewrite ?HA, ?HB;
      rewrite ?lookup_insert_ne by congruence;
      rewrite ?HtA, ?HtB; plugin_fields; repeat split.
    f_equal. apply insert_insert_ne. congruence.
Qed.

(** X5. After a check of a user without bypass that passed at time [t],
    the next check of that user at time [t'] fails exactly when
    [t' - t < cooldown_seconds]; it then reports
    [int(cooldown_seconds - (t' - t))] and the recorded time stays [t]. *)
Theorem cooldown_runs_from_last_accepted (self : ComfyUIPlugin time)
  (event : AstrMessageEvent) (t t' : time) :
  is_admin self event && admin_bypass_cooldown self = false ->
  let first := _check_cooldown tsub tlt tint tzero self event t in
  let second := _check_cooldown tsub tlt tint tzero first.2 event t' in
  first.1.1 = true ->
  (second.1.1 = false <-> tlt (tsub t' t) (cooldown_seconds self) = true)
  /\ (tlt (tsub t' t) (cooldown_seconds self) = true ->
      second.1 = (false, tint (tsub (cooldown_seconds self) (tsub t' t)))
      /\ user_cooldowns second.2 !! sender_id event = Some t)
  /\ (tlt (tsub t' t) (cooldown_seconds self) = false ->
      second.1 = (true, 0%Z)
      /\ user_cooldowns second.2 !! sender_id event = Some t').
Proof.
  intros Hadmin. cbv zeta. destruct self as [cd uc admins lk wl mi dg dp gp pol
    bw bc bs lex pp].
  unfold _check_cooldown, is_admin, set_user_cooldowns in *.
  plugin_fields. plugin_fields in Hadmin. rewrite Hadmin.
  destruct (tlt (tsub t _) cd) eqn:Hfirst; plugin_fields;
    [discriminate|]. intros _.
  rewrite Hadmin, lookup_insert_eq. cbn [default from_option id].
  destruct (tlt (tsub t' t) cd) eqn:Hsecond; plugin_fields.
  - split; [split; intros; reflexivity|]. split; [|discriminate].
    intros _. split; [reflexivity|]. apply lookup_insert_eq.
  - split; [split; discriminate|]. split; [discriminate|].
    intros _. split; [reflexivity|]. apply lookup_insert_eq.
Qed.

End CooldownRunProofs.

Lemma admin_bypass_never_cools_down_witness :
  check_cooldown_run Qminus Qtime_lt Qtime_int 0%Q
    (sample_plugin ∅ ∅ false (lit "none") true)
    (private_event (lit "admin")) [1000%Q; 1000%Q; 1001%Q]
  = ([(true, 0%Z); (true, 0%Z); (true, 0%Z)],
     sample_plugin ∅ ∅ false (lit "none") true).
Proof.
  exact (admin_bypass_never_cools_down Q Qminus Qtime_lt Qtime_int 0%Q
           (sample_plugin ∅ ∅ false (lit "none") true)
           (private_event (lit "admin")) [1000%Q; 1000%Q; 1001%Q] eq_refl).
Defined.

Lemma check_cooldown_users_commute_witness :
  (_check_cooldown Qminus Qtime_lt Qtime_int 0%Q
     (_check_cooldown Qminus Qtime_lt Qtime_int 0%Q
        (sample_plugin ∅ ∅ false (lit "none") false)
        (private_event (lit "u1")) 1000%Q).2
     (private_event (lit "u2")) 1001%Q).1
  = (true, 0%Z).
Proof.
  exact (proj1 (check_cooldown_users_commute Q Qminus Qtime_lt Qtime_int 0%Q
                  (sample_plugin ∅ ∅ false (lit "none") false)
                  (private_event (lit "u1")) (private_event (lit "u2"))
                  1000%Q 1001%Q ltac:(discriminate))).
Defined.

Lemma cooldown_runs_from_last_accepted_witness :
  (_check_cooldown Qminus Qtime_lt Qtime_int 0%Q
     (_check_cooldown Qminus Qtime_lt Qtime_int 0%Q
        (sample_plugin ∅ ∅ false (lit "none") false)
        (private_event (lit "u1")) 1000%Q).2
     (private_event (lit "u1")) 1045%Q).1
  = (false, 15%Z).
Proof.
  exact (proj1 (proj1 (proj2 (cooldown_runs_from_last_accepted
                  Q Qminus Qtime_lt Qtime_int 0%Q
                  (sample_plugin ∅ ∅ false (lit "none") false)
                  (private_event (lit "u1")) 1000%Q 1045%Q
                  eq_refl eq_refl)) eq_refl)).
Defined.

(** ** What the matcher reports *)

Lemma build_lookup_inv (lex : gmap str (list str))
  (table : list (str * list str)) :
  forall (pp : gmap str (option pattern)) (name : str)
    (v : option pattern),
    fold_left
      (fun pp '(policy, cats) => <[policy := compile_tier lex cats]> pp)
      table pp !! name = Some v ->
    pp !! name = Some v
    \/ exists cats : list str,
         In (name, cats) table /\ v = compile_tier lex cats.
Proof.
  induction table as [|[policy cats] table IH]; intros pp name v H;
    simpl in H.
  - now left.
  - apply IH in H as [H|(cs & Hin & Hv)].
    + destruct (decide (policy = name)) as [->|Hne].
      * rewrite lookup_insert_eq in H. injection H as <-.
        right. exists cats. split; [now left|reflexivity].
      * rewrite lookup_insert_ne in H by exact Hne. now left.
    + right. exists cs. split; [now right|exact Hv].
Qed.

Lemma lit_match_firstn (t rest : str) :
  lit_match t rest = true ->
  ci_equal t (List.firstn (List.length t) rest) = true.
Proof.
  revert rest. induction t as [|p t IH]; intros rest H.
  - reflexivity.
  - destruct rest as [|c rest]; [discriminate|].
    rewrite lit_match_cons in H. apply andb_true_iff in H as [Hc H].
    specialize (IH rest H). unfold ci_equal in *.
    apply andb_true_iff in IH as [Hlen Hm]. apply Nat.eqb_eq in Hlen.
    change (List.firstn (List.length (p :: t)) (c :: rest))
      with (c :: List.firstn (List.length t) rest).
    rewrite lit_match_cons, Hc, Hm. simpl List.length.
    rewrite <- Hlen, Nat.eqb_refl. reflexivity.
Qed.

Lemma term_kind_inv (t : str) :
  is_word_term t = true \/ is_phrase_term t = true ->
  t <> [] /\ _is_ascii_term t = true.
Proof.
  unfold is_word_term, is_phrase_term.
  intros [H|H]; apply andb_true_iff in H as [H _];
    apply andb_true_iff in H as [Ht Ha];
    (split; [destruct t; [discriminate|discriminate]|exact Ha]).
Qed.

(** A match of a compiled tier is a piece of the text that is, up to case,
    a term of one of the categories of the tier. *)
Lemma compiled_match_origin (lex : gmap str (list str)) (cats : list str)
  (pat : pattern) (text : str) (m : Match) :
  compile_tier lex cats = Some pat ->
  In m (finditer pat text) ->
  exists (cat t pre post : str),
    In cat cats /\ In t (default [] (lex !! cat))
    /\ t <> [] /\ _is_ascii_term t = true
    /\ ci_equal t (m_group m) = true
    /\ text = pre ++ m_group m ++ post.
Proof.
  intros Hpat Hin.
  apply finditer_sound in Hin as (pre & suf & len & -> & _ & _ & Hg & Hm).
  assert (Hterm : exists t : str,
            In t (all_terms lex cats)
            /\ (is_word_term t = true \/ is_phrase_term t = true)
            /\ List.length t = len /\ lit_match t suf = true).
  { apply match_here_inv in Hm as [(_ & w & Hw & Hlen & Hlit & _)|
                                   (p & Hp & Hlen & Hlit)].
    - apply (compile_tier_word lex cats pat w Hpat) in Hw as [Hw Hk]. eauto 8.
    - apply (compile_tier_phrase lex cats pat p Hpat) in Hp as [Hp Hk].
      eauto 8. }
  destruct Hterm as (t & Hall & Hkind & Hlen & Hlit).
  apply all_terms_In in Hall as (cat & Hcat & Ht).
  destruct (term_kind_inv t Hkind) as [Hne Hascii].
  exists cat, t, pre, (List.skipn len suf).
  rewrite Hg. repeat split; try assumption.
  - rewrite <- Hlen. now apply lit_match_firstn.
  - now rewrite firstn_skipn.
Qed.

(** X6. Every term the search reports is a piece of the text that is, up
    to case, a non-empty ASCII term of the lexicon, in a category of the
    tier the search was made with. *)
Theorem reported_terms_come_from_lexicon {time : Type}
  (self0 : ComfyUIPlugin time) (text : str)
  (event : option AstrMessageEvent) (w : str) :
  _policy_patterns self0 = ∅ ->
  let self := _build_policy_patterns self0 in
  In w (_find_sensitive_words self text event) ->
  exists (cats : list str) (cat t pre post : str),
    In (py_lower (event_policy self event), cats) (policies self0)
    /\ In cat cats
    /\ In t (default [] (lexicon self0 !! cat))
    /\ t <> [] /\ _is_ascii_term t = true
    /\ ci_equal t w = true
    /\ text = pre ++ w ++ post.
Proof.
  intros Hempty self Hin.
  rewrite find_sensitive_report, report_first_by_key in Hin.
  pose proof (first_by_key_sublist
                (List.map m_group
                   (tier_matches self (event_policy self event) text)) [])
    as Hsub.
  apply list_elem_of_In in Hin.
  apply (fun H => elem_of_sublist _ _ _ H Hsub) in Hin.
  apply list_elem_of_In in Hin.
  apply in_map_iff in Hin as (m & <- & Hm).
  unfold tier_matches in Hm.
  destruct (str_eqb (event_policy self event) (lit "none")); [destruct Hm|].
  destruct (_policy_patterns self !! py_lower (event_policy self event))
    as [[pat|]|] eqn:Hlook; try destruct Hm.
  unfold self at 1 in Hlook. unfold _build_policy_patterns in Hlook.
  simpl in Hlook. apply build_lookup_inv in Hlook as [Hlook|(cats & Hc & Hv)].
  { rewrite Hempty, lookup_empty in Hlook. discriminate. }
  symmetry in Hv.
  destruct (compiled_match_origin _ _ _ _ _ Hv Hm)
    as (cat & t & pre & post & H).
  exists cats, cat, t, pre, post. split; [exact Hc|exact H].
Qed.

Lemma reported_terms_come_from_lexicon_witness :
  exists (cats : list str) (cat t pre post : str),
    In (lit "full", cats) (init_policies full_categories)
    /\ In cat cats
    /\ In t (default [] (cat_lexicon !! cat))
    /\ t <> [] /\ _is_ascii_term t = true
    /\ ci_equal t (lit "CAT") = true
    /\ lit "a CAT sat" = pre ++ lit "CAT" ++ post.
Proof.
  apply (reported_terms_come_from_lexicon
           (sample_config cat_lexicon ∅ false (lit "none") true)
           (lit "a CAT sat") None (lit "CAT") eq_refl).
  vm_compute. now left.
Defined.

(** ** What the compiler keeps *)

Lemma filter_flat_map (p : str -> bool) (g : str -> list str)
  (l : list str) :
  List.filter p (flat_map g l) = flat_map (fun x => List.filter p (g x)) l.
Proof.
  induction l as [|x l IH]; simpl; [reflexivity|].
  now rewrite List.filter_app, IH.
Qed.

Lemma filter_filter_implied (p q : str -> bool) (l : list str) :
  (forall x : str, p x = true -> q x = true) ->
  List.filter p (List.filter q l) = List.filter p l.
Proof.
  intros Himp. induction l as [|x l IH]; simpl; [reflexivity|].
  destruct (q x) eqn:Hq; simpl.
  - now rewrite IH.
  - rewrite IH. destruct (p x) eqn:Hp; [|reflexivity].
    apply Himp in Hp. congruence.
Qed.

Lemma all_terms_ascii (lex : gmap str (list str)) (cats : list str) :
  all_terms (List.filter _is_ascii_term <$> lex) cats
  = List.filter _is_ascii_term (all_terms lex cats).
Proof.
  unfold all_terms. rewrite filter_flat_map.
  induction cats as [|cat cats IH]; simpl; [reflexivity|].
  rewrite IH, lookup_fmap. now destruct (lex !! cat).
Qed.

Lemma word_term_ascii (t : str) :
  is_word_term t = true -> _is_ascii_term t = true.
Proof.
  unfold is_word_term. intros H. apply andb_true_iff in H as [H _].
  now apply andb_true_iff in H as [_ H].
Qed.

Lemma phrase_term_ascii (t : str) :
  is_phrase_term t = true -> _is_ascii_term t = true.
Proof.
  unfold is_phrase_term. intros H. apply andb_true_iff in H as [H _].
  now apply andb_true_iff in H as [_ H].
Qed.

(** X7. Terms that hold a character outside ASCII play no part in the
    patterns: a lexicon and the same lexicon without these terms compile
    to the same pattern for every tier, and a tier whose categories hold
    no ASCII term has no pattern. *)
Theorem non_ascii_terms_are_ignored (lex : gmap str (list str))
  (cats : list str) :
  compile_tier (List.filter _is_ascii_term <$> lex) cats
  = compile_tier lex cats
  /\ ((forall t : str,
          In t (all_terms lex cats) -> _is_ascii_term t = false) ->
      compile_tier lex cats = None).
Proof.
  split.
  - unfold compile_tier. rewrite !collect_terms_spec, all_terms_ascii.
    rewrite (filter_filter_implied is_word_term _is_ascii_term)
      by exact word_term_ascii.
    rewrite (filter_filter_implied is_phrase_term _is_ascii_term)
      by exact phrase_term_ascii.
    reflexivity.
  - intros Hnon.
    destruct (compile_tier lex cats) as [pat|] eqn:Hpat; [|reflexivity].
    exfalso.
    assert (Hterm : exists t : str,
              In t (all_terms lex cats) /\ _is_ascii_term t = true).
    { pose proof (compile_tier_Some lex cats pat Hpat) as [Hw Hp].
      destruct (word_terms pat) as [|w ws] eqn:Hws.
      - destruct (phrase_terms pat) as [|p ps] eqn:Hps.
        + unfold compile_tier in Hpat. rewrite collect_terms_spec in Hpat.
          rewrite <- Hw, <- Hp in Hpat. discriminate.
        + assert (Hin : In p (phrase_terms pat)) by (rewrite Hps; now left).
          apply (compile_tier_phrase lex cats pat p Hpat) in Hin as [H1 H2].
          exists p. split; [exact H1|now apply phrase_term_ascii].
      - assert (Hin : In w (word_terms pat)) by (rewrite Hws; now left).
        apply (compile_tier_word lex cats pat w Hpat) in Hin as [H1 H2].
        exists w. split; [exact H1|now apply word_term_ascii]. }
    destruct Hterm as (t & Hin & Ha). rewrite (Hnon t Hin) in Ha.
    discriminate.
Qed.

Lemma non_ascii_terms_are_ignored_witness :
  compile_tier non_ascii_lexicon [LEGACY_LITE] = None.
Proof.
  apply (proj2 (non_ascii_terms_are_ignored non_ascii_lexicon [LEGACY_LITE])).
  intros t Hin. vm_compute in Hin. destruct Hin as [<-|[]]. reflexivity.
Defined.

Lemma fromkeys_loop_NoDup (xs : list str) :
  forall acc : list str,
    List.NoDup acc ->
    List.NoDup
      (fold_left
         (fun acc x => if bool_decide (x ∈ acc) then acc else acc ++ [x])
         xs acc).
Proof.
  induction xs as [|x xs IH]; intros acc Hnd; simpl; [exact Hnd|].
  apply IH. destruct (bool_decide (x ∈ acc)) eqn:Hx; [exact Hnd|].
  apply bool_decide_eq_false in Hx.
  apply NoDup_ListNoDup, NoDup_app. apply NoDup_ListNoDup in Hnd.
  split; [exact Hnd|]. split.
  - intros y Hy Hy'. apply list_elem_of_singleton in Hy'. now subst y.
  - apply NoDup_singleton.
Qed.

(** X8. A compiled pattern is well formed: it holds at least one term, no
    term twice in a list, only ASCII terms that are not empty, the terms
    without space as word terms and the terms with a space as phrase
    terms. *)
Theorem compiled_pattern_well_formed (lex : gmap str (list str))
  (cats : list str) (pat : pattern) :
  compile_tier lex cats = Some pat ->
  (word_terms pat <> [] \/ phrase_terms pat <> [])
  /\ List.NoDup (word_terms pat)
  /\ List.NoDup (phrase_terms pat)
  /\ (forall t : str,
        In t (word_terms pat) ->
        t <> [] /\ _is_ascii_term t = true /\ has_space t = false)
  /\ (forall t : str,
        In t (phrase_terms pat) ->
        t <> [] /\ _is_ascii_term t = true /\ has_space t = true).
Proof.
  intros Hpat.
  pose proof (compile_tier_Some lex cats pat Hpat) as [Hw Hp].
  split; [|split; [|split; [|split]]].
  - unfold compile_tier in Hpat. rewrite collect_terms_spec in Hpat.
    rewrite <- Hw, <- Hp in Hpat.
    destruct (word_terms pat); [|left; discriminate].
    destruct (phrase_terms pat); [discriminate|right; discriminate].
  - rewrite Hw. apply fromkeys_loop_NoDup. constructor.
  - rewrite Hp. apply fromkeys_loop_NoDup. constructor.
  - intros t Hin.
    apply (compile_tier_word lex cats pat t Hpat) in Hin as [_ Hk].
    destruct (term_kind_inv t (or_introl Hk)) as [Hne Ha].
    repeat split; try assumption.
    unfold is_word_term in Hk. apply andb_true_iff in Hk as [_ Hs].
    now apply negb_true_iff.
  - intros t Hin.
    apply (compile_tier_phrase lex cats pat t Hpat) in Hin as [_ Hk].
    destruct (term_kind_inv t (or_intror Hk)) as [Hne Ha].
    repeat split; try assumption.
    unfold is_phrase_term in Hk. now apply andb_true_iff in Hk as [_ Hs].
Qed.

Lemma compiled_pattern_well_formed_witness :
  compile_tier mixed_lexicon [LEGACY_LITE]
  = Some (Pattern [lit "cat"] [lit "a b"])
  /\ List.NoDup [lit "cat"].
Proof.
  split; [vm_compute; reflexivity|].
  exact (proj1 (proj2 (compiled_pattern_well_formed mixed_lexicon
                         [LEGACY_LITE] (Pattern [lit "cat"] [lit "a b"])
                         eq_refl))).
Defined.

(** X9. With the sensitive-words bypass, an administrator passes the
    content-policy step of the three call paths for every prompt; for
    anybody else the three steps pass exactly when the search reports
    nothing. *)
Theorem content_policy_bypass {time : Type} (self : ComfyUIPlugin time)
  (prompt text_content : str) (img_idx : nat) (event : AstrMessageEvent) :
  let steps_pass :=
    _handle_paint_logic_policy self prompt event = None
    /\ comfyui_txt2img_policy self prompt event = None
    /\ _auto_paint_from_llm_policy self text_content img_idx prompt event
       = None in
  (is_admin self event && admin_bypass_sensitive self = true -> steps_pass)
  /\ (is_admin self event && admin_bypass_sensitive self = false ->
      (steps_pass <-> _find_sensitive_words self prompt (Some event) = [])).
Proof.
  cbv zeta.
  unfold _handle_paint_logic_policy, comfyui_txt2img_policy,
    _auto_paint_from_llm_policy, _check_sensitive.
  split; intros Hadm; rewrite Hadm;
    destruct (_find_sensitive_words self prompt (Some event)) as [|w ws];
    try (repeat split; fail).
  split; [intros (H & _); discriminate H|discriminate].
Qed.

Lemma content_policy_bypass_witness :
  comfyui_txt2img_policy
    (sample_plugin six_terms_lexicon ∅ false (lit "full") true)
    six_terms_prompt (group_event (lit "admin") (lit "g1")) = None.
Proof.
  exact (proj1 (proj2 (proj1 (content_policy_bypass
    (sample_plugin six_terms_lexicon ∅ false (lit "full") true)
    six_terms_prompt [] 1 (group_event (lit "admin") (lit "g1")))
    eq_refl))).
Defined.

(** ** The tier command *)

Lemma check_access_refusal_head {time : Type} (self : ComfyUIPlugin time)
  (event : AstrMessageEvent) :
  (_check_access self event).1 = false ->
  exists (c : char) (rest : str),
    (_check_access self event).2 = c :: rest /\ c <> 0x2705.
Proof.
  unfold _check_access.
  destruct (lockdown self && negb (is_admin self event)).
  { intros _. eexists _, _. split; [reflexivity|discriminate]. }
  destruct (_is_group_message event); [|discriminate].
  destruct (_get_group_id event) as [gid|].
  2: { intros _. eexists _, _. split; [reflexivity|discriminate]. }
  destruct (bool_decide (gid ∈ whitelist_group_ids self)); [discriminate|].
  destruct (is_admin self event && admin_bypass_whitelist self);
    [discriminate|].
  intros _. eexists _, _. split; [reflexivity|discriminate].
Qed.

Lemma check_access_group_id {time : Type} (self : ComfyUIPlugin time)
  (event : AstrMessageEvent) :
  (_check_access self event).1 = true ->
  _is_group_message event = true ->
  exists gid : str, _get_group_id event = Some gid.
Proof.
  unfold _check_access.
  destruct (lockdown self && negb (is_admin self event)); [discriminate|].
  intros H Hgrp. rewrite Hgrp in H.
  destruct (_get_group_id event) as [gid|]; [eauto|discriminate].
Qed.

(** The two outcomes of the command: nothing changes, or an administrator
    of a group message that passed the access check gets the tier of the
    group set to the lower-cased argument, a key of [policies]. *)
Lemma cmd_set_policy_cases {time : Type} (self : ComfyUIPlugin time)
  (event : AstrMessageEvent) :
  ((cmd_set_policy self event).2 = self
   /\ forall level : str,
        (cmd_set_policy self event).1 <> Some (LEVEL_SET ++ level))
  \/ exists gid level : str,
       (_check_access self event).1 = true
       /\ _is_group_message event = true
       /\ is_admin self event = true
       /\ _get_group_id event = Some gid
       /\ level ∈ List.map fst (policies self)
       /\ py_lower level = level
       /\ cmd_set_policy self event
          = (Some (LEVEL_SET ++ level),
             set_group_policies self (<[gid := level]> (group_policies self))).
Proof.
  unfold cmd_set_policy.
  destruct (_check_access self event) as [allowed reason] eqn:Hacc.
  destruct allowed; cbn [negb].
  2: { left. split; [reflexivity|]. intros level H.
       destruct (check_access_refusal_head self event) as (c & rest & Hr & Hc);
         [now rewrite Hacc|].
       rewrite Hacc in Hr. simpl in Hr. subst reason.
       injection H as H _. now apply Hc. }
  destruct (_is_group_message event) eqn:Hgrp; cbn [negb].
  2: { left. split; [reflexivity|]. intros level H. discriminate H. }
  destruct (is_admin self event) eqn:Hadm; cbn [negb].
  2: { left. split; [reflexivity|]. intros level H. discriminate H. }
  destruct (check_access_group_id self event) as [gid Hgid];
    [now rewrite Hacc|exact Hgrp|].
  rewrite Hgid.
  destruct (py_split (strip (message_str event))) as [|cmd [|arg rest]].
  - left. split; [reflexivity|]. intros level H. discriminate H.
  - left. split; [reflexivity|]. intros level H. discriminate H.
  - unfold set_group_policy.
    destruct (bool_decide (py_lower arg ∈ List.map fst (policies self)))
      eqn:Hkey.
    + right. exists gid, (py_lower arg).
      apply bool_decide_eq_true in Hkey.
      repeat split; try assumption. apply py_lower_idempotent.
    + left. split; [reflexivity|]. intros level H. discriminate H.
Qed.

(** X10. The tier command changes the plugin only for an administrator,
    in a group message that passes the access check; it then answers with
    the confirmation, and the only change is the tier of the group of the
    message, which becomes a key of [policies]. *)
Theorem tier_command_needs_admin {time : Type} (self : ComfyUIPlugin time)
  (event : AstrMessageEvent) :
  (cmd_set_policy self event).2 <> self ->
  is_admin self event = true
  /\ _is_group_message event = true
  /\ (_check_access self event).1 = true
  /\ exists gid level : str,
       _get_group_id event = Some gid
       /\ level ∈ List.map fst (policies self)
       /\ (cmd_set_policy self event).1 = Some (LEVEL_SET ++ level)
       /\ (cmd_set_policy self event).2
          = set_group_policies self
              (<[gid := level]> (group_policies self)).
Proof.
  intros Hchanged.
  destruct (cmd_set_policy_cases self event)
    as [[Hsame _]|(gid & level & Hacc & Hgrp & Hadm & Hgid & Hkey & _ & Heq)].
  - now contradiction Hchanged.
  - repeat split; try assumption.
    exists gid, level. rewrite Heq. repeat split; assumption.
Qed.

Lemma tier_command_needs_admin_witness :
  is_admin tier_plugin
    (group_command (lit "admin") (lit "g1") (lit "/banlevel FULL")) = true.
Proof.
  refine (proj1 (tier_command_needs_admin tier_plugin
            (group_command (lit "admin") (lit "g1") (lit "/banlevel FULL"))
            _)).
  intros H. apply (f_equal (fun s => group_policies s !! lit "g1")) in H.
  vm_compute in H. discriminate H.
Defined.

(** X11. When the tier command answers with the confirmation of a level,
    that level is a key of [policies], every group message of the group of
    the command resolves to it from then on, and the messages of the other
    groups and the private messages resolve as before. *)
Theorem tier_command_round_trip {time : Type} (self : ComfyUIPlugin time)
  (event : AstrMessageEvent) (level : str) :
  (cmd_set_policy self event).1 = Some (LEVEL_SET ++ level) ->
  let self' := (cmd_set_policy self event).2 in
  exists gid : str,
    _get_group_id event = Some gid
    /\ level ∈ List.map fst (policies self)
    /\ (forall e : AstrMessageEvent,
          _is_group_message e = true -> _get_group_id e = Some gid ->
          _get_policy_for_event self' e = level)
    /\ (forall e : AstrMessageEvent,
          _get_group_id e <> Some gid ->
          _get_policy_for_event self' e = _get_policy_for_event self e).
Proof.
  intros Hreply. cbv zeta.
  destruct (cmd_set_policy_cases self event)
    as [[_ Hno]|(gid & lv & _ & _ & _ & Hgid & Hkey & _ & Heq)].
  - now contradiction (Hno level).
  - rewrite Heq in Hreply |- *. cbn [fst snd] in *.
    injection Hreply as Hlv. subst lv.
    exists gid. repeat split; try assumption.
    + intros e Hgrp He. unfold _get_policy_for_event.
      rewrite Hgrp, He. cbn [set_group_policies group_policies].
      now rewrite lookup_insert_eq.
    + intros e He. unfold _get_policy_for_event.
      destruct (_is_group_message e); [|reflexivity].
      destruct (_get_group_id e) as [g|]; [|reflexivity].
      cbn [set_group_policies group_policies default_group_policy].
      rewrite lookup_insert_ne by congruence. reflexivity.
Qed.

Lemma tier_command_round_trip_witness :
  _get_policy_for_event
    (cmd_set_policy tier_plugin
       (group_command (lit "admin") (lit "g1") (lit "/banlevel FULL"))).2
    (group_event (lit "u1") (lit "g1"))
  = lit "full".
Proof.
  destruct (tier_command_round_trip tier_plugin
              (group_command (lit "admin") (lit "g1") (lit "/banlevel FULL"))
              (lit "full") eq_refl) as (gid & Hgid & _ & Hset & _).
  apply Hset; [reflexivity|].
  rewrite <- Hgid. reflexivity.
Defined.

Lemma cmd_set_policy_keeps {time : Type} (self : ComfyUIPlugin time)
  (event : AstrMessageEvent) :
  group_tiers_known self -> policy_names_lowered self ->
  let self' := (cmd_set_policy self event).2 in
  group_tiers_known self' /\ policy_names_lowered self'
  /\ policies self' = policies self
  /\ default_group_policy self' = default_group_policy self
  /\ default_private_policy self' = default_private_policy self
  /\ lexicon self' = lexicon self
  /\ _policy_patterns self' = _policy_patterns self.
Proof.
  intros Hknown Hlow. cbv zeta.
  destruct (cmd_set_policy_cases self event)
    as [[-> _]|(gid & lv & _ & _ & _ & _ & Hkey & Hlv & ->)].
  - split; [exact Hknown|]. split; [exact Hlow|]. repeat split.
  - cbn [snd]. destruct Hlow as (Hg & Hp & Hm).
    repeat split; try assumption.
    + unfold group_tiers_known. cbn [set_group_policies group_policies policies].
      now apply map_Forall_insert_2.
    + cbn [set_group_policies group_policies].
      now apply map_Forall_insert_2.
Qed.

Lemma run_set_policy_keeps {time : Type} (events : list AstrMessageEvent) :
  forall self : ComfyUIPlugin time,
    group_tiers_known self -> policy_names_lowered self ->
    let self' := run_set_policy self events in
    group_tiers_known self' /\ policy_names_lowered self'
    /\ policies self' = policies self
    /\ default_group_policy self' = default_group_policy self
    /\ default_private_policy self' = default_private_policy self
    /\ lexicon self' = lexicon self
    /\ _policy_patterns self' = _policy_patterns self.
Proof.
  induction events as [|e events IH]; intros self Hknown Hlow.
  - split; [exact Hknown|]. split; [exact Hlow|]. repeat split.
  - destruct (cmd_set_policy_keeps self e Hknown Hlow)
      as (Hk & Hl & Hp & Hg & Hd & Hx & Hpp).
    destruct (IH _ Hk Hl) as (Hk' & Hl' & Hp' & Hg' & Hd' & Hx' & Hpp').
    cbv zeta in *. unfold run_set_policy in *. simpl.
    split; [exact Hk'|]. split; [exact Hl'|]. repeat split; congruence.
Qed.

(** X12. Tier commands never store a tier that is not a key of [policies]
    or that is not lower-cased: if the tiers of the groups are known and
    the tier names lower-cased before a run of commands, they are so after
    it, and the run changes neither [policies], nor the two default tiers,
    nor the lexicon, nor the compiled patterns.  If the two default tiers
    are keys of [policies] too, every event resolves to a key of
    [policies] after the run. *)
Theorem tier_commands_keep_tiers_known {time : Type}
  (self : ComfyUIPlugin time) (events : list AstrMessageEvent) :
  group_tiers_known self -> policy_names_lowered self ->
  let self' := run_set_policy self events in
  (group_tiers_known self' /\ policy_names_lowered self'
   /\ policies self' = policies self
   /\ default_group_policy self' = default_group_policy self
   /\ default_private_policy self' = default_private_policy self
   /\ lexicon self' = lexicon self
   /\ _policy_patterns self' = _policy_patterns self)
  /\ (default_group_policy self ∈ List.map fst (policies self) ->
      default_private_policy self ∈ List.map fst (policies self) ->
      forall e : AstrMessageEvent,
        _get_policy_for_event self' e ∈ List.map fst (policies self)).
Proof.
  intros Hknown Hlow. cbv zeta.
  pose proof (run_set_policy_keeps events self Hknown Hlow) as Hkeep.
  cbv zeta in Hkeep. split; [exact Hkeep|].
  destruct Hkeep as (Hk & _ & Hp & Hg & Hd & _ & _).
  intros Hdg Hdp e. unfold _get_policy_for_event.
  rewrite Hg, Hd.
  destruct (_is_group_message e); [|exact Hdp].
  destruct (_get_group_id e) as [gid|]; [|exact Hdg].
  destruct (group_policies (run_set_policy self events) !! gid) as [v|]
    eqn:Hv; cbn [default from_option id]; [|exact Hdg].
  specialize (Hk gid v Hv). cbn beta in Hk. now rewrite Hp in Hk.
Qed.

Lemma tier_commands_keep_tiers_known_witness :
  group_tiers_known
    (run_set_policy tier_plugin
       [ group_command (lit "admin") (lit "g1") (lit "/banlevel FULL");
         group_command (lit "u1") (lit "g1") (lit "/banlevel none");
         group_command (lit "admin") (lit "g1") (lit "/banlevel strict") ]).
Proof.
  refine (proj1 (proj1 (tier_commands_keep_tiers_known tier_plugin _ _ _))).
  - apply map_Forall_empty.
  - split; [reflexivity|]. split; [reflexivity|]. apply map_Forall_empty.
Defined.

(** ** Trimming *)

Lemma lstrip_by_head (f : char -> bool) (s : str) (c : char) (r : str) :
  lstrip_by f s = c :: r -> f c = false.
Proof.
  induction s as [|d s IH]; simpl; [discriminate|].
  destruct (f d) eqn:Hd; [exact IH|].
  intros [= <- _]. exact Hd.
Qed.

Lemma rstrip_by_snoc (f : char -> bool) (s : str) (d : char) :
  rstrip_by f (s ++ [d]) = if f d then rstrip_by f s else s ++ [d].
Proof.
  unfold rstrip_by. rewrite rev_app_distr. simpl.
  destruct (f d); [reflexivity|].
  simpl. now rewrite rev_involutive.
Qed.

Lemma rstrip_by_cons (f : char -> bool) (c : char) (s : str) :
  f c = false -> rstrip_by f (c :: s) = c :: rstrip_by f s.
Proof.
  intros Hc. induction s as [|d s IH] using rev_ind.
  - unfold rstrip_by. simpl. now rewrite Hc.
  - change (c :: s ++ [d]) with ((c :: s) ++ [d]).
    rewrite !rstrip_by_snoc. destruct (f d); [exact IH|reflexivity].
Qed.

Lemma rstrip_by_idempotent (f : char -> bool) (s : str) :
  rstrip_by f (rstrip_by f s) = rstrip_by f s.
Proof.
  induction s as [|d s IH] using rev_ind; [reflexivity|].
  rewrite rstrip_by_snoc. destruct (f d) eqn:Hd; [exact IH|].
  rewrite rstrip_by_snoc, Hd. reflexivity.
Qed.

(** Trimming what is trimmed changes nothing. *)
Lemma strip_by_idempotent (f : char -> bool) (s : str) :
  strip_by f (strip_by f s) = strip_by f s.
Proof.
  unfold strip_by.
  destruct (lstrip_by f s) as [|c r] eqn:Hl; [reflexivity|].
  pose proof (lstrip_by_head f s c r Hl) as Hc.
  pose proof (rstrip_by_cons f c r Hc) as E1.
  pose proof (rstrip_by_cons f c (rstrip_by f r) Hc) as E2.
  unfold char in E1, E2.
  rewrite E1. simpl. rewrite Hc, E2, rstrip_by_idempotent. reflexivity.
Qed.

Lemma clean_prompt_trimmed (p : str) :
  strip (clean_prompt p) = clean_prompt p.
Proof. unfold clean_prompt, strip. apply strip_by_idempotent. Qed.

Lemma usable_prompt_trimmed (full_text p : str) :
  In p (usable_prompts full_text) -> p <> [] /\ strip p = p.
Proof.
  unfold usable_prompts. intros H.
  apply List.filter_In in H as [H Ht].
  apply in_map_iff in H as (q & <- & _). split.
  - destruct (clean_prompt q); [discriminate|discriminate].
  - apply clean_prompt_trimmed.
Qed.

Lemma interleave_trimmed (chunks : list str) :
  forall (prompts : list str) (seg : Segment),
    (forall p : str, In p prompts -> p <> [] /\ strip p = p) ->
    In seg (interleave chunks prompts) ->
    content seg <> [] /\ strip (content seg) = content seg.
Proof.
  induction chunks as [|c chunks IH]; intros prompts seg Hp Hin;
    [destruct Hin|].
  simpl in Hin. apply in_app_or in Hin as [Hin|Hin].
  - unfold text_segment in Hin.
    destruct (truthy (strip c)) eqn:Ht; [|destruct Hin].
    destruct Hin as [<-|[]]. simpl. split.
    + destruct (strip c); [discriminate|discriminate].
    + unfold strip. apply strip_by_idempotent.
  - destruct prompts as [|p prompts].
    + apply (IH [] seg); [intros q []|exact Hin].
    + destruct Hin as [<-|Hin].
      * simpl. apply Hp. now left.
      * apply (IH prompts seg); [|exact Hin].
        intros q Hq. apply Hp. now right.
Qed.

(** ** Occurrences of a literal *)

Lemma starts_with_app (pre after : str) :
  starts_with pre (pre ++ after) = Some after.
Proof.
  induction pre as [|p pre IH]; simpl; [reflexivity|].
  now rewrite N.eqb_refl.
Qed.

Lemma find_lit_complete (needle after : str) (before : str) :
  find_lit needle (before ++ needle ++ after) <> None.
Proof.
  induction before as [|c before IH].
  - simpl app. destruct (needle ++ after) as [|d s] eqn:Hs.
    + simpl. destruct needle; [discriminate|discriminate].
    + simpl. rewrite <- Hs, starts_with_app. discriminate.
  - change ((c :: before) ++ needle ++ after)
      with (c :: (before ++ needle ++ after)).
    simpl. destruct (starts_with needle _); [discriminate|].
    destruct (find_lit needle (before ++ needle ++ after)) as [[b a]|];
      [discriminate|now contradiction IH].
Qed.

Lemma find_lit_leftmost (needle : str) (s : str) :
  forall before after before1 after1 : str,
    find_lit needle s = Some (before, after) ->
    s = before1 ++ needle ++ after1 ->
    (List.length before <= List.length before1)%nat.
Proof.
  induction s as [|c s IH]; intros before after before1 after1 Hf Hs.
  - simpl in Hf. destruct (starts_with needle []); [|discriminate].
    injection Hf as <- _. simpl. lia.
  - simpl in Hf. destruct (starts_with needle (c :: s)) as [a|] eqn:Hsw.
    + injection Hf as <- _. simpl. lia.
    + destruct (find_lit needle s) as [[b a]|] eqn:Hrec; [|discriminate].
      injection Hf as <- <-.
      destruct before1 as [|d before1].
      * simpl in Hs. rewrite Hs, starts_with_app in Hsw. discriminate.
      * injection Hs as -> Hs. simpl.
        specialize (IH b a before1 after1 eq_refl Hs). lia.
Qed.

(** What is before the first occurrence holds no occurrence. *)
Lemma find_lit_before (needle s before after : str) :
  needle <> [] ->
  find_lit needle s = Some (before, after) ->
  occurs needle before = false.
Proof.
  intros Hne Hf. unfold occurs.
  destruct (find_lit needle before) as [[b1 a1]|] eqn:Hb; [|reflexivity].
  exfalso. apply find_lit_spec in Hb.
  pose proof (find_lit_spec _ _ _ _ Hf) as Hs.
  rewrite Hb in Hs. rewrite <- !app_assoc in Hs.
  pose proof (find_lit_leftmost _ _ _ _ _ _ Hf Hs) as Hle.
  rewrite Hb, !length_app in Hle.
  destruct needle; [now contradiction Hne|]. simpl in Hle. lia.
Qed.

(** ** Response segmenter: the other outcomes *)

Lemma tag_scan_no_close (n : nat) (s : str) :
  occurs CLOSE_TAG s = false -> (tag_scan n s).1 = [].
Proof.
  intros Hno. destruct n as [|n]; [reflexivity|]. simpl.
  destruct (find_lit OPEN_TAG s) as [[before inner]|] eqn:H1; [|reflexivity].
  destruct (find_lit CLOSE_TAG inner) as [[captured after]|] eqn:H2;
    [|reflexivity].
  exfalso. apply find_lit_spec in H1, H2. subst s inner.
  unfold occurs in Hno.
  pose proof (find_lit_complete CLOSE_TAG after
                (before ++ OPEN_TAG ++ captured)) as Hc.
  rewrite <- !app_assoc in Hc.
  destruct (find_lit CLOSE_TAG _); [discriminate|now contradiction Hc].
Qed.

Lemma tag_scan_no_open (n : nat) (s : str) :
  occurs OPEN_TAG s = false -> (tag_scan n s).1 = [].
Proof.
  intros Hno. destruct n as [|n]; [reflexivity|]. simpl.
  unfold occurs in Hno.
  destruct (find_lit OPEN_TAG s) as [[before inner]|]; [discriminate|].
  reflexivity.
Qed.

(** The outcomes of the handler: the event as it was, one usable prompt
    stored, or the segments of the walk stored. *)
Lemma extract_cases {time : Type} (self : ComfyUIPlugin time)
  (event : AstrMessageEvent) (resp : option str) :
  _extract_prompt_before_filter self event resp = event
  \/ (exists (full_text p : str),
        resp = Some full_text /\ In p (usable_prompts full_text)
        /\ _extract_prompt_before_filter self event resp
           = set_extracted_prompt event p)
  \/ (exists (full_text : str) (seg : Segment) (segs : list Segment),
        resp = Some full_text
        /\ multi_image_mode self = true
        /\ (2 <= List.length (usable_prompts full_text))%nat
        /\ interleave (re_split_tags full_text) (usable_prompts full_text)
           = seg :: segs
        /\ _extract_prompt_before_filter self event resp
           = set_segments event (seg :: segs)).
Proof.
  unfold _extract_prompt_before_filter.
  destruct resp as [full_text|]; [|now left].
  destruct (negb (truthy full_text)); [now left|].
  destruct (re_findall_tags full_text) as [|q qs] eqn:Hfind; [now left|].
  rewrite <- Hfind, clean_prompts_usable.
  destruct (usable_prompts full_text) as [|p1 [|p2 ps]] eqn:Hus;
    [now left| |].
  - right; left. exists full_text, p1. rewrite Hus.
    repeat split. now left.
  - destruct (multi_image_mode self).
    + rewrite build_segments_interleave.
      destruct (interleave _ _) as [|seg segs] eqn:Hint; [now left|].
      right; right. exists full_text, seg, segs. rewrite Hus.
      repeat split; [simpl; lia|exact Hint].
    + right; left. exists full_text, p1. rewrite Hus.
      repeat split. now left.
Qed.

(** X13. Without response, or when the completion holds no usable prompt,
    the handler leaves the event as it is; a completion without opening tag
    or without closing tag holds no usable prompt. *)
Theorem no_usable_prompt_no_extraction {time : Type}
  (self : ComfyUIPlugin time) (event : AstrMessageEvent) :
  _extract_prompt_before_filter self event None = event
  /\ (forall full_text : str,
        usable_prompts full_text = [] ->
        _extract_prompt_before_filter self event (Some full_text) = event)
  /\ (forall full_text : str,
        occurs OPEN_TAG full_text = false
        \/ occurs CLOSE_TAG full_text = false ->
        usable_prompts full_text = []).
Proof.
  split; [reflexivity|]. split.
  - intros full_text Hnone.
    destruct (extract_cases self event (Some full_text))
      as [H|[(t & p & [= <-] & Hin & _)|
             (t & seg & segs & [= <-] & _ & Htwo & _)]].
    + exact H.
    + rewrite Hnone in Hin. destruct Hin.
    + rewrite Hnone in Htwo. simpl in Htwo. lia.
  - intros full_text Hno. unfold usable_prompts, re_findall_tags, tag_matches.
    destruct Hno as [Hno|Hno].
    + now rewrite (tag_scan_no_open _ _ Hno).
    + now rewrite (tag_scan_no_close _ _ Hno).
Qed.

Lemma no_usable_prompt_no_extraction_witness :
  _extract_prompt_before_filter (sample_plugin ∅ ∅ true (lit "none") true)
    (private_event (lit "u1")) (Some unclosed_tag_text)
  = private_event (lit "u1").
Proof.
  destruct (no_usable_prompt_no_extraction
              (sample_plugin ∅ ∅ true (lit "none") true)
              (private_event (lit "u1"))) as (_ & Hnone & Htags).
  apply Hnone. apply Htags. right. vm_compute. reflexivity.
Defined.

(** X14. With the multi-image mode off and several usable prompts, the
    handler stores the first usable prompt as the extracted prompt and no
    segment list. *)
Theorem multi_mode_off_takes_first {time : Type}
  (self : ComfyUIPlugin time) (event : AstrMessageEvent)
  (full_text first second : str) (others : list str) :
  multi_image_mode self = false ->
  usable_prompts full_text = first :: second :: others ->
  let event' := _extract_prompt_before_filter self event (Some full_text) in
  event' = set_extracted_prompt event first
  /\ _comfy_extracted_prompt event' = Some first
  /\ _comfy_segments event' = _comfy_segments event.
Proof.
  intros Hmulti Hus. cbv zeta.
  assert (Heq : _extract_prompt_before_filter self event (Some full_text)
                = set_extracted_prompt event first).
  { unfold _extract_prompt_before_filter.
    pose proof (clean_prompts_usable full_text) as Hclean.
    rewrite Hus in Hclean.
    destruct full_text as [|c full_text']; [discriminate Hus|].
    simpl negb. cbv iota.
    destruct (re_findall_tags (c :: full_text')) as [|q qs] eqn:Hfind;
      [discriminate Hclean|].
    rewrite Hclean, Hmulti. reflexivity. }
  rewrite Heq. repeat split.
Qed.

Lemma multi_mode_off_takes_first_witness :
  _comfy_extracted_prompt
    (_extract_prompt_before_filter
       (sample_plugin ∅ ∅ false (lit "none") true)
       (private_event (lit "u1")) (Some two_prompts_text))
  = Some (lit "p1").
Proof.
  exact (proj1 (proj2 (multi_mode_off_takes_first
                  (sample_plugin ∅ ∅ false (lit "none") true)
                  (private_event (lit "u1")) two_prompts_text
                  (lit "p1") (lit "p2") [] eq_refl eq_refl))).
Defined.

(** X15. What the handler stores is trimmed: an extracted prompt it sets
    is one of the usable prompts of the completion, is not empty and has
    no white space at either end; a segment list it sets is not empty and
    the content of each of its segments is not empty and has no white
    space at either end.  The handler sets at most one of the two
    attributes. *)
Theorem extracted_contents_are_trimmed {time : Type}
  (self : ComfyUIPlugin time) (event : AstrMessageEvent)
  (resp : option str) :
  let event' := _extract_prompt_before_filter self event resp in
  (_comfy_extracted_prompt event' = _comfy_extracted_prompt event
   \/ _comfy_segments event' = _comfy_segments event)
  /\ (forall p : str,
        _comfy_extracted_prompt event' = Some p ->
        _comfy_extracted_prompt event = Some p
        \/ (p <> [] /\ strip p = p
            /\ exists full_text : str,
                 resp = Some full_text /\ In p (usable_prompts full_text)))
  /\ (forall segs : list Segment,
        _comfy_segments event' = Some segs ->
        _comfy_segments event = Some segs
        \/ (segs <> []
            /\ forall seg : Segment,
                 In seg segs ->
                 content seg <> [] /\ strip (content seg) = content seg)).
Proof.
  cbv zeta.
  destruct (extract_cases self event resp)
    as [->|[(t & p & -> & Hin & ->)|
            (t & seg & segs & -> & _ & _ & Hint & ->)]].
  - split; [now left|]. split; intros x Hx; now left.
  - split; [now right|]. split.
    + intros q [= <-]. right.
      destruct (usable_prompt_trimmed t p Hin) as [Hne Htrim].
      repeat split; try assumption. exists t. now split.
    + intros x Hx. now left.
  - split; [now left|]. split.
    + intros q Hq. now left.
    + intros x [= <-]. right. split; [discriminate|].
      intros s Hs. rewrite <- Hint in Hs.
      apply (interleave_trimmed _ _ s (usable_prompt_trimmed t) Hs).
Qed.

Lemma extracted_contents_are_trimmed_witness :
  strip (lit "a cat") = lit "a cat".
Proof.
  destruct (proj1 (proj2 (extracted_contents_are_trimmed
              (sample_plugin ∅ ∅ true (lit "none") true)
              (private_event (lit "u1")) (Some single_prompt_text)))
              (lit "a cat") eq_refl) as [H|(_ & H & _)].
  - discriminate H.
  - exact H.
Defined.

(** ** The tags of a completion *)

Lemma tag_scan_groups (n : nat) :
  forall (s chunk captured : str),
    In (chunk, captured) (tag_scan n s).1 ->
    occurs OPEN_TAG chunk = false /\ occurs CLOSE_TAG captured = false.
Proof.
  induction n as [|n IH]; intros s chunk captured Hin; [destruct Hin|].
  simpl in Hin.
  destruct (find_lit OPEN_TAG s) as [[before inner]|] eqn:H1;
    [|destruct Hin].
  destruct (find_lit CLOSE_TAG inner) as [[cap after]|] eqn:H2;
    [|destruct Hin].
  destruct (tag_scan n after) as [ms tail] eqn:Hrec. simpl in Hin.
  destruct Hin as [[= <- <-]|Hin].
  - split.
    + apply (find_lit_before OPEN_TAG s before inner); [discriminate|exact H1].
    + apply (find_lit_before CLOSE_TAG inner cap after);
        [discriminate|exact H2].
  - apply (IH after). now rewrite Hrec.
Qed.

(** X16. Splitting on the tags loses no text: the chunks, the tags with
    their captured groups and the text after the last tag make the
    completion again.  The match of a tag is the shortest one: a captured
    group holds no closing tag, and the chunk before a tag holds no opening
    tag. *)
Theorem tags_round_trip (full_text : str) :
  rebuild (tag_matches full_text).1 (tag_matches full_text).2 = full_text
  /\ re_split_tags full_text
     = List.map fst (tag_matches full_text).1 ++ [(tag_matches full_text).2]
  /\ re_findall_tags full_text = List.map snd (tag_matches full_text).1
  /\ (forall captured : str,
        In captured (re_findall_tags full_text) ->
        occurs CLOSE_TAG captured = false)
  /\ (forall chunk : str,
        In chunk (List.map fst (tag_matches full_text).1) ->
        occurs OPEN_TAG chunk = false).
Proof.
  split; [apply tag_scan_rebuild|].
  split; [reflexivity|]. split; [reflexivity|]. split.
  - intros captured Hin. unfold re_findall_tags in Hin.
    apply in_map_iff in Hin as ([chunk cap] & <- & Hin).
    apply (tag_scan_groups _ _ _ _ Hin).
  - intros chunk Hin.
    apply in_map_iff in Hin as ([ch cap] & <- & Hin).
    apply (tag_scan_groups _ _ _ _ Hin).
Qed.

(** ** From the completion to the pairs *)

Lemma walk_pairs_prompts (segments : list Segment) :
  forall pending : str,
    omap prompt (walk_pairs pending segments)
    = List.map content (List.filter is_prompt segments).
Proof.
  induction segments as [|s rest IH]; intros pending; simpl.
  - now destruct (truthy pending).
  - unfold is_prompt at 1. destruct (seg_type s); simpl.
    + apply IH.
    + now rewrite IH.
Qed.

Lemma walk_pairs_chunk (c p : str) (rest : list Segment) :
  walk_pairs [] (text_segment c ++ MkSegment SegPrompt p :: rest)
  = chunk_pair c p :: walk_pairs [] rest.
Proof.
  unfold text_segment, chunk_pair.
  destruct (strip c) as [|d r] eqn:Hs; reflexivity.
Qed.

Lemma walk_pairs_interleave (chunks : list str) :
  forall (prompts : list str) (tail : str),
    List.length chunks = List.length prompts ->
    walk_pairs [] (interleave (chunks ++ [tail]) prompts)
    = zip_with chunk_pair chunks prompts ++ tail_pair tail.
Proof.
  induction chunks as [|c chunks IH]; intros prompts tail Hlen.
  - destruct prompts; [|discriminate]. simpl. rewrite app_nil_r.
    unfold text_segment, tail_pair.
    destruct (strip tail) as [|d r] eqn:Hs; reflexivity.
  - destruct prompts as [|p prompts]; [discriminate|].
    change (interleave ((c :: chunks) ++ [tail]) (p :: prompts))
      with (text_segment c
              ++ MkSegment SegPrompt p
                   :: interleave (chunks ++ [tail]) prompts).
    rewrite walk_pairs_chunk, IH by (simpl in Hlen; lia). reflexivity.
Qed.

Lemma extract_multi {time : Type} (self : ComfyUIPlugin time)
  (event : AstrMessageEvent) (full_text : str) :
  multi_image_mode self = true ->
  (2 <= List.length (usable_prompts full_text))%nat ->
  _extract_prompt_before_filter self event (Some full_text)
  = set_segments event
      (interleave (re_split_tags full_text) (usable_prompts full_text)).
Proof.
  intros Hmulti Htwo.
  pose proof (usable_prompts_length full_text) as Hle.
  pose proof (re_split_tags_length full_text) as Hchunks.
  unfold _extract_prompt_before_filter.
  pose proof (clean_prompts_usable full_text) as Hclean.
  destruct full_text as [|c0 t0]; [simpl in Htwo; lia|].
  simpl negb. cbv iota.
  destruct (re_findall_tags (c0 :: t0)) as [|q qs] eqn:Hfind;
    [simpl in Hle; lia|].
  rewrite Hclean.
  destruct (usable_prompts (c0 :: t0)) as [|p1 [|p2 ps]];
    [simpl in Htwo; lia|simpl in Htwo; lia|].
  rewrite Hmulti, build_segments_interleave.
  destruct (re_split_tags (c0 :: t0)) as [|chunk rest] eqn:Hsplit;
    [discriminate|].
  simpl interleave. unfold text_segment.
  destruct (truthy (strip chunk)); reflexivity.
Qed.

(** X17. From the completion to the delivery loop, with the multi-image
    mode on and several usable prompts: the pairs built from the stored
    segments carry the usable prompts, each once and in order.  When every
    tag holds a usable prompt, the pair of each prompt carries the trimmed
    chunk before its tag (empty when that chunk is blank), and the trimmed
    text after the last tag makes one last pair without prompt when it is
    not blank: no text of the completion is dropped. *)
Theorem delivery_pairs_of_completion {time : Type}
  (self : ComfyUIPlugin time) (event : AstrMessageEvent) (full_text : str) :
  multi_image_mode self = true ->
  (2 <= List.length (usable_prompts full_text))%nat ->
  exists segments : list Segment,
    _comfy_segments
      (_extract_prompt_before_filter self event (Some full_text))
    = Some segments
    /\ omap prompt (build_pairs segments) = usable_prompts full_text
    /\ (List.length (usable_prompts full_text)
        = List.length (re_findall_tags full_text) ->
        build_pairs segments
        = zip_with chunk_pair (List.map fst (tag_matches full_text).1)
            (usable_prompts full_text)
          ++ tail_pair (tag_matches full_text).2).
Proof.
  intros Hmulti Htwo.
  exists (interleave (re_split_tags full_text) (usable_prompts full_text)).
  split; [now rewrite (extract_multi self event full_text Hmulti Htwo)|].
  pose proof (re_split_tags_length full_text) as Hchunks.
  pose proof (usable_prompts_length full_text) as Hle.
  split.
  - rewrite build_pairs_walk, walk_pairs_prompts.
    apply interleave_prompts. lia.
  - intros Hall. rewrite build_pairs_walk. unfold re_split_tags.
    apply walk_pairs_interleave.
    rewrite Hall. unfold re_findall_tags. now rewrite !length_map.
Qed.

Lemma delivery_pairs_of_completion_witness :
  exists segments : list Segment,
    _comfy_segments
      (_extract_prompt_before_filter
         (sample_plugin ∅ ∅ true (lit "none") true)
         (private_event (lit "u1")) (Some two_prompts_text))
    = Some segments
    /\ omap prompt (build_pairs segments) = [lit "p1"; lit "p2"].
Proof.
  destruct (delivery_pairs_of_completion
              (sample_plugin ∅ ∅ true (lit "none") true)
              (private_event (lit "u1")) two_prompts_text
              eq_refl (le_n 2)) as (segs & H1 & H2 & _).
  exists segs. split; [exact H1|exact H2].
Defined.

(** ** The command path and the tool path *)

Lemma command_prompt_trimmed (message : str) :
  strip (command_prompt message) = command_prompt message.
Proof.
  unfold command_prompt.
  destruct (find_lit [32] (strip message)) as [[command rest]|];
    [|reflexivity].
  unfold strip. apply strip_by_idempotent.
Qed.

Lemma command_prompt_shape (message : str) :
  command_prompt message <> [] ->
  exists command rest : str,
    strip message = command ++ [32] ++ rest
    /\ occurs [32] command = false
    /\ command_prompt message = strip rest.
Proof.
  unfold command_prompt. intros Hne.
  destruct (find_lit [32] (strip message)) as [[command rest]|] eqn:Hf;
    [|now contradiction Hne].
  exists command, rest. split; [now apply find_lit_spec|]. split.
  - apply (find_lit_before [32] (strip message) command rest);
      [discriminate|exact Hf].
  - reflexivity.
Qed.

(** A check that fails leaves the plugin as it is. *)
Lemma check_cooldown_failed {time : Type} (tsub : time -> time -> time)
  (tlt : time -> time -> bool) (tint : time -> Z) (tzero : time)
  (self : ComfyUIPlugin time) (event : AstrMessageEvent) (t : time) :
  (_check_cooldown tsub tlt tint tzero self event t).1.1 = false ->
  (_check_cooldown tsub tlt tint tzero self event t).2 = self.
Proof.
  unfold _check_cooldown.
  destruct (is_admin self event && admin_bypass_cooldown self);
    [discriminate|].
  destruct (tlt _ _); [reflexivity|discriminate].
Qed.

(** X18. The command path is a chain of five checks, in this order: access,
    a prompt after the command, the content policy, the backend, the
    cooldown.  The checks the tool repeats or adds (access, a missing or
    blank prompt, the content policy) never decide on this path.  Only the
    request that passes the five checks changes the plugin.  The prompt is
    the trimmed text after the first space of the trimmed message. *)
Theorem paint_command_stages {time : Type} (tsub : time -> time -> time)
  (tlt : time -> time -> bool) (tint : time -> Z) (tzero : time)
  (is_decimal : char -> bool) (self : ComfyUIPlugin time)
  (event : AstrMessageEvent) (api : bool) (current_time : time) :
  let prompt := command_prompt (message_str event) in
  let access := _check_access self event in
  let content := _check_sensitive self prompt event in
  let cooldown :=
    _check_cooldown tsub tlt tint tzero self event current_time in
  _handle_paint_logic_admission tsub tlt tint tzero is_decimal self event
    api current_time
  = (if negb access.1 then (Rejected access.2, self)
     else if negb (truthy prompt) then (Rejected USAGE, self)
     else if negb content.1 then
       (Rejected (paint_rejection content.2), self)
     else if negb api then (Rejected NO_API, self)
     else if negb cooldown.1.1 then
       (Rejected (COOLDOWN_OPEN ++ str_of_Z cooldown.1.2 ++ COOLDOWN_CLOSE),
        self)
     else (Accepted prompt, cooldown.2))
  /\ (prompt <> [] ->
      exists command rest : str,
        strip (message_str event) = command ++ [32] ++ rest
        /\ occurs [32] command = false
        /\ prompt = strip rest).
Proof.
  cbv zeta. split; [|apply command_prompt_shape].
  unfold _handle_paint_logic_admission.
  destruct (_check_access self event) as [allowed reason] eqn:Ha.
  cbn [fst snd]. destruct allowed; cbn [negb]; [|reflexivity].
  pose proof (command_prompt_trimmed (message_str event)) as Htrim.
  remember (command_prompt (message_str event)) as p eqn:Hp.
  destruct (truthy p) eqn:Ht; cbn [negb]; [|reflexivity].
  unfold _handle_paint_logic_policy.
  destruct (_check_sensitive self p event) as [passed sens] eqn:Hs.
  cbn [fst snd]. destruct passed; cbn [negb]; [|reflexivity].
  unfold comfyui_txt2img_admission. rewrite Ha.
  cbn [negb truthy_o]. rewrite Ht. cbn [negb andb truthy_opt].
  rewrite Ht, Htrim, Ht. cbn [negb].
  destruct api; cbn [negb]; [|reflexivity].
  unfold comfyui_txt2img_policy. rewrite Hs.
  pose proof (check_cooldown_failed tsub tlt tint tzero self event
                current_time) as Hfail.
  destruct (_check_cooldown tsub tlt tint tzero self event current_time)
    as [[ok remain] self'].
  cbn [fst snd] in *. destruct ok; cbn [negb]; [reflexivity|].
  now rewrite (Hfail eq_refl).
Qed.

Lemma paint_command_stages_witness :
  exists command rest : str,
    lit "/paint  a cat" = command ++ [32] ++ rest
    /\ occurs [32] command = false
    /\ lit "a cat" = strip rest.
Proof.
  exact (proj2 (paint_command_stages Qminus Qtime_lt Qtime_int 0%Q
                  is_digit_ascii
                  (sample_plugin cat_lexicon ∅ false (lit "none") false)
                  (private_command (lit "u1") (lit "  /paint  a cat "))
                  true 1000%Q)
           ltac:(discriminate)).
Defined.

Lemma strip_truthy (s : str) : truthy (strip s) = true -> truthy s = true.
Proof. destruct s; [discriminate|reflexivity]. Qed.

Lemma truthy_opt_Some (o : option str) (s : str) :
  truthy_opt o = Some s -> o = Some s /\ truthy s = true.
Proof.
  destruct o as [x|]; [|discriminate]. simpl.
  destruct (truthy x) eqn:Hx; [|discriminate].
  intros [= <-]. now split.
Qed.

(** A check that passes reports no remaining time, and records the time of
    the check for a user without bypass. *)
Lemma check_cooldown_passed {time : Type} (tsub : time -> time -> time)
  (tlt : time -> time -> bool) (tint : time -> Z) (tzero : time)
  (self self' : ComfyUIPlugin time) (event : AstrMessageEvent) (t : time)
  (remain : Z) :
  _check_cooldown tsub tlt tint tzero self event t = ((true, remain), self') ->
  remain = 0%Z
  /\ (is_admin self event && admin_bypass_cooldown self = false ->
      user_cooldowns self' !! sender_id event = Some t).
Proof.
  unfold _check_cooldown.
  destruct (is_admin self event && admin_bypass_cooldown self).
  - intros [= <- <-]. split; [reflexivity|discriminate].
  - destruct (tlt _ _); [discriminate|].
    intros [= <- <-]. split; [reflexivity|]. intros _.
    unfold set_user_cooldowns. plugin_fields. apply lookup_insert_eq.
Qed.

(** X19. The tool path changes the plugin only for a request it admits: a
    request it rejects, for any reason, leaves the cooldown table as it
    was.  A request is accepted with a prompt that is not blank, after the
    access check, the content policy and the cooldown check passed; the
    time of the request is then recorded for a user without bypass, before
    the backend is asked.  A prompt that is not blank is passed on as it
    is given, and [text] stands in for a missing prompt. *)
Theorem txt2img_admission_effects {time : Type}
  (tsub : time -> time -> time) (tlt : time -> time -> bool)
  (tint : time -> Z) (tzero : time) (is_decimal : char -> bool)
  (self : ComfyUIPlugin time) (event : AstrMessageEvent)
  (prompt text : option str) (api : bool) (current_time : time) :
  let outcome :=
    comfyui_txt2img_admission tsub tlt tint tzero is_decimal self event
      prompt text api current_time in
  (forall reply : str, outcome.1 = Rejected reply -> outcome.2 = self)
  /\ (forall p : str,
        outcome.1 = Accepted p ->
        truthy (strip p) = true
        /\ api = true
        /\ (_check_access self event).1 = true
        /\ (_check_sensitive self p event).1 = true
        /\ _check_cooldown tsub tlt tint tzero self event current_time
           = ((true, 0%Z), outcome.2)
        /\ (is_admin self event && admin_bypass_cooldown self = false ->
            user_cooldowns outcome.2 !! sender_id event = Some current_time)
        /\ (forall q : str,
              prompt = Some q -> truthy (strip q) = true -> p = q)
        /\ (forall t : str,
              truthy_o prompt = false -> text = Some t ->
              truthy (strip t) = true -> p = t)).
Proof.
  cbv zeta. unfold comfyui_txt2img_admission.
  destruct (_check_access self event) as [allowed reason] eqn:Ha.
  destruct allowed; cbn [negb fst snd];
    [|split; [reflexivity|discriminate]].
  set (chosen := if negb (truthy_o prompt) && truthy_o text
                 then text else prompt).
  destruct (truthy_opt chosen) as [given|] eqn:Hg;
    [|split; [reflexivity|discriminate]].
  apply truthy_opt_Some in Hg as [Hchosen Hgiven].
  set (checked := if negb (truthy (strip given)) then _ else Some given).
  destruct checked as [p0|] eqn:Hchk;
    [|split; [reflexivity|discriminate]].
  assert (Hp0 : truthy (strip p0) = true
                /\ (truthy (strip given) = true -> p0 = given)).
  { subst checked. destruct (truthy (strip given)) eqn:Hsg; cbn [negb] in Hchk.
    - injection Hchk as <-. now split.
    - apply truthy_opt_Some in Hchk as [[= <-] Ht]. split; [|discriminate].
      unfold strip at 1. unfold strip in Ht.
      now rewrite strip_by_idempotent. }
  destruct Hp0 as [Hblank Hsame].
  destruct api; cbn [negb]; [|split; [reflexivity|discriminate]].
  unfold comfyui_txt2img_policy.
  destruct (_check_sensitive self p0 event) as [passed sens] eqn:Hs.
  destruct passed; [|split; [reflexivity|discriminate]].
  pose proof (check_cooldown_failed tsub tlt tint tzero self event
                current_time) as Hfail.
  destruct (_check_cooldown tsub tlt tint tzero self event current_time)
    as [[ok remain] self'] eqn:Hc.
  cbn [fst snd] in Hfail. destruct ok; cbn [negb fst snd].
  - destruct (check_cooldown_passed _ _ _ _ _ _ _ _ _ Hc) as [-> Hrec].
    split; [discriminate|]. intros p [= <-].
    split; [exact Hblank|]. split; [reflexivity|]. split; [reflexivity|].
    split; [now rewrite Hs|]. split; [reflexivity|]. split; [exact Hrec|].
    split.
    + intros q -> Hq.
      assert (given = q) as ->; [|now apply Hsame].
      subst chosen. cbn [truthy_o] in Hchosen.
      rewrite (strip_truthy q Hq) in Hchosen. cbn [negb andb] in Hchosen.
      now injection Hchosen.
    + intros t Hnone -> Ht.
      assert (given = t) as ->; [|now apply Hsame].
      subst chosen. rewrite Hnone in Hchosen.
      cbn [truthy_o negb andb] in Hchosen.
      rewrite (strip_truthy t Ht) in Hchosen. now injection Hchosen.
  - split; [|discriminate]. intros reply _. now apply Hfail.
Qed.

Lemma txt2img_admission_effects_witness :
  user_cooldowns
    (comfyui_txt2img_admission Qminus Qtime_lt Qtime_int 0%Q is_digit_ascii
       batch_plugin (group_event (lit "u1") (lit "g1"))
       (Some (lit " a dog ")) None true 1000%Q).2
  !! lit "u1" = Some 1000%Q.
Proof.
  destruct (proj2 (txt2img_admission_effects Qminus Qtime_lt Qtime_int 0%Q
                     is_digit_ascii batch_plugin
                     (group_event (lit "u1") (lit "g1"))
                     (Some (lit " a dog ")) None true 1000%Q)
              (lit " a dog ") eq_refl)
    as (_ & _ & _ & _ & _ & Hrecord & _).
  exact (Hrecord eq_refl).
Defined.

(** ** The tier of an accepted request *)

Lemma get_group_id_truthy (event : AstrMessageEvent) (gid : str) :
  _get_group_id event = Some gid ->
  _is_group_message event = true /\ gid <> [].
Proof.
  unfold _get_group_id.
  destruct (_is_group_message event); cbn [negb]; [|discriminate].
  assert (Hopt : forall o : option str, truthy_opt o = Some gid -> gid <> []).
  { intros o Ho. apply truthy_opt_Some in Ho as [_ Ht]. now destruct gid. }
  destruct (truthy_opt (get_group_id event)) as [g|] eqn:H1.
  { intros [= <-]. split; [reflexivity|]. now apply (Hopt _ H1). }
  destruct (truthy_opt (group_id event)) as [g|] eqn:H2.
  { intros [= <-]. split; [reflexivity|]. now apply (Hopt _ H2). }
  intros H3. split; [reflexivity|]. now apply (Hopt _ H3).
Qed.

(** X20. The tier of a request that passed the access check: a group
    message has a group id that is not empty, and its tier is the one
    stored for that id, the default of groups when none is stored; the
    tier of any other message is the default of private messages.  Only a
    group message has a group id. *)
Theorem accepted_request_tier {time : Type} (self : ComfyUIPlugin time)
  (event : AstrMessageEvent) :
  (_check_access self event).1 = true ->
  (_is_group_message event = true ->
   exists gid : str,
     _get_group_id event = Some gid /\ gid <> []
     /\ _get_policy_for_event self event
        = default (default_group_policy self) (group_policies self !! gid))
  /\ (_is_group_message event = false ->
      _get_group_id event = None
      /\ _get_policy_for_event self event = default_private_policy self).
Proof.
  intros Haccess. split; intros Hgrp.
  - destruct (check_access_group_id self event Haccess Hgrp) as [gid Hgid].
    exists gid. split; [exact Hgid|]. split.
    + apply (get_group_id_truthy event gid Hgid).
    + unfold _get_policy_for_event. now rewrite Hgrp, Hgid.
  - unfold _get_group_id, _get_policy_for_event. now rewrite Hgrp.
Qed.

Lemma accepted_request_tier_witness :
  exists gid : str,
    _get_group_id (group_event (lit "u1") (lit "g1")) = Some gid
    /\ gid <> []
    /\ _get_policy_for_event batch_plugin (group_event (lit "u1") (lit "g1"))
       = default (default_group_policy batch_plugin)
           (group_policies batch_plugin !! gid).
Proof.
  exact (proj1 (accepted_request_tier batch_plugin
                  (group_event (lit "u1") (lit "g1")) eq_refl) eq_refl).
Defined.

(** ** The delivery loop of a batch *)

Section BatchProofs.

Variable time : Type.
Variable tsub : time -> time -> time.
Variable tlt : time -> time -> bool.
Variable tint : time -> Z.
Variable tzero : time.

(** A round adds at most one message, after the messages sent so far, and
    counts the pair when it holds a prompt. *)
Lemma deliver_step_acc (generate : nat -> str -> Generated)
  (self : ComfyUIPlugin time) (event : AstrMessageEvent) (n : nat)
  (sent : list Sent) (pair : DeliveryPair) :
  deliver_step generate self event (n, sent) pair
  = ((n + if truthy_o (prompt pair) then 1 else 0)%nat,
     sent ++ (deliver_step generate self event (n, []) pair).2)
  /\ (List.length (deliver_step generate self event (n, []) pair).2 <= 1)%nat.
Proof.
  unfold deliver_step. cbn [fst snd].
  destruct (prompt pair) as [p|]; cbn [truthy_opt truthy_o].
  - destruct (truthy p).
    + replace (n + 1)%nat with (S n) by lia.
      destruct (_auto_paint_from_llm_policy _ _ _ _ _);
        [split; [reflexivity|simpl; lia]|].
      destruct (generate (S n) p) as [img_data|].
      * destruct (no_data img_data); split; try reflexivity; simpl; lia.
      * rewrite app_nil_r. split; [reflexivity|simpl; lia].
    + rewrite Nat.add_0_r.
      destruct (truthy (text pair)); cbn [fst snd];
        rewrite ?app_nil_r; split; try reflexivity; simpl; lia.
  - rewrite Nat.add_0_r.
    destruct (truthy (text pair)); cbn [fst snd];
      rewrite ?app_nil_r; split; try reflexivity; simpl; lia.
Qed.

Lemma deliver_acc (generate : nat -> str -> Generated)
  (self : ComfyUIPlugin time) (event : AstrMessageEvent)
  (pairs : list DeliveryPair) :
  forall (n : nat) (sent : list Sent),
    deliver generate self event pairs (n, sent)
    = ((n + prompt_count pairs)%nat,
       sent ++ (deliver generate self event pairs (n, [])).2)
    /\ (List.length (deliver generate self event pairs (n, [])).2
        <= List.length pairs)%nat.
Proof.
  unfold deliver, prompt_count.
  induction pairs as [|pair pairs IH]; intros n sent.
  - simpl. rewrite Nat.add_0_r, app_nil_r. split; [reflexivity|lia].
  - cbn [fold_left List.filter].
    destruct (deliver_step_acc generate self event n sent pair) as [E1 _].
    destruct (deliver_step_acc generate self event n [] pair) as [E0 L0].
    set (out := (deliver_step generate self event (n, []) pair).2) in *.
    set (n' := (n + (if truthy_o (prompt pair) then 1 else 0))%nat) in *.
    cbn [app] in E0. rewrite E1, E0.
    destruct (IH n' (sent ++ out)) as [E2 _].
    destruct (IH n' out) as [E3 L3].
    rewrite E2, E3. cbn [fst snd]. split.
    + f_equal.
      * subst n'. destruct (truthy_o (prompt pair)); simpl; lia.
      * now rewrite app_assoc.
    + rewrite length_app. simpl. lia.
Qed.

(** X21. The image index of a pair is its rank among the pairs with a
    prompt, whatever happened to the pairs before it: the loop over two
    lists of pairs sends what it sends for the first list, then what it
    sends for the second one when it starts from the number of prompts of
    the first.  The loop sends at most one message for each pair and ends
    with the number of the prompts as image index. *)
Theorem batch_indexes_by_prompt (generate : nat -> str -> Generated)
  (self : ComfyUIPlugin time) (event : AstrMessageEvent)
  (pairs1 pairs2 : list DeliveryPair) (n : nat) (sent : list Sent) :
  let run := deliver generate self event in
  (run pairs1 (n, sent)).1 = (n + prompt_count pairs1)%nat
  /\ (run pairs1 (n, sent)).2 = sent ++ (run pairs1 (n, [])).2
  /\ (run (pairs1 ++ pairs2) (n, [])).2
     = (run pairs1 (n, [])).2
       ++ (run pairs2 ((n + prompt_count pairs1)%nat, [])).2
  /\ (List.length (run pairs1 (n, [])).2 <= List.length pairs1)%nat.
Proof.
  cbv zeta.
  destruct (deliver_acc generate self event pairs1 n sent) as [E1 L1].
  rewrite E1. cbn [fst snd].
  split; [reflexivity|]. split; [reflexivity|]. split; [|exact L1].
  unfold deliver at 1. rewrite fold_left_app.
  fold (deliver generate self event pairs1 (n, [])).
  destruct (deliver_acc generate self event pairs1 n []) as [E0 _].
  rewrite E0. cbn [app].
  fold (deliver generate self event pairs2
          ((n + prompt_count pairs1)%nat,
           (deliver generate self event pairs1 (n, [])).2)).
  destruct (deliver_acc generate self event pairs2
              (n + prompt_count pairs1)%nat
              (deliver generate self event pairs1 (n, [])).2) as [E2 _].
  now rewrite E2.
Qed.


(** The content check of a round is the one of the plugin and the event
    the branch started with. *)
Lemma batch_policy_unchanged (self : ComfyUIPlugin time)
  (event : AstrMessageEvent) (t : time) (text_content : str) (img_idx : nat)
  (p : str) :
  _auto_paint_from_llm_policy
    (_check_cooldown tsub tlt tint tzero self event t).2 text_content img_idx
    p (set_auto_painted event)
  = _auto_paint_from_llm_policy self text_content img_idx p event.
Proof.
  unfold _check_cooldown.
  destruct (is_admin self event && admin_bypass_cooldown self);
    [reflexivity|].
  destruct (tlt _ _); reflexivity.
Qed.

Lemma walk_pairs_prompt_segment (segments : list Segment) :
  forall (pending : str) (pair : DeliveryPair) (p : str),
    In pair (walk_pairs pending segments) ->
    prompt pair = Some p ->
    In (MkSegment SegPrompt p) segments.
Proof.
  induction segments as [|s rest IH]; intros pending pair p Hin Hp.
  - simpl in Hin. destruct (truthy pending); [|destruct Hin].
    destruct Hin as [<-|[]]. discriminate Hp.
  - simpl in Hin. destruct s as [ty c]. cbn [seg_type content] in Hin.
    destruct ty.
    + right. apply (IH c pair p Hin Hp).
    + destruct Hin as [<-|Hin].
      * injection Hp as <-. now left.
      * right. apply (IH [] pair p Hin Hp).
Qed.

Lemma walk_pairs_length (segments : list Segment) :
  forall pending : str,
    (List.length (walk_pairs pending segments)
     <= S (List.length (List.filter is_prompt segments)))%nat.
Proof.
  induction segments as [|s rest IH]; intros pending.
  - simpl. destruct (truthy pending); simpl; lia.
  - simpl. unfold is_prompt at 1. destruct (seg_type s); simpl.
    + apply IH.
    + specialize (IH []). lia.
Qed.

(** Two backends that agree on the prompts the loop asks for give the same
    rounds. *)
Lemma deliver_ext (g1 g2 : nat -> str -> Generated)
  (self : ComfyUIPlugin time) (event : AstrMessageEvent)
  (pairs : list DeliveryPair) :
  (forall (pair : DeliveryPair) (p : str) (i : nat),
     In pair pairs -> prompt pair = Some p -> truthy p = true ->
     _auto_paint_from_llm_policy self (text pair) i p event = None ->
     g1 i p = g2 i p) ->
  forall st : nat * list Sent,
    deliver g1 self event pairs st = deliver g2 self event pairs st.
Proof.
  unfold deliver. induction pairs as [|pair pairs IH]; intros Hagree st;
    [reflexivity|].
  cbn [fold_left].
  assert (Hstep : deliver_step g1 self event st pair
                  = deliver_step g2 self event st pair).
  { unfold deliver_step.
    destruct (truthy_opt (prompt pair)) as [p|] eqn:Hp; [|reflexivity].
    apply truthy_opt_Some in Hp as [Hp Ht].
    destruct (_auto_paint_from_llm_policy self (text pair) (S st.1) p event)
      eqn:Hpol; [reflexivity|].
    now rewrite (Hagree pair p (S st.1) (or_introl eq_refl) Hp Ht Hpol). }
  rewrite Hstep. apply IH.
  intros pair' p i Hin. apply Hagree. now right.
Qed.

(** X22. The backend is asked only for a prompt of the stored segments that
    is not empty and passes the content check of the event, and only once
    the access check and the cooldown check passed: what the multi-image
    branch does is the same for two backends that agree on these
    requests. *)
Theorem backend_sees_only_cleared_prompts (g1 g2 : nat -> str -> Generated)
  (self : ComfyUIPlugin time) (event : AstrMessageEvent)
  (current_time : time) :
  (forall (i : nat) (p : str) (segments : list Segment),
     _comfy_segments event = Some segments ->
     In (MkSegment SegPrompt p) segments ->
     p <> [] ->
     (_check_access self event).1 = true ->
     (_check_cooldown tsub tlt tint tzero self event current_time).1.1
     = true ->
     (_check_sensitive self p event).1 = true ->
     g1 i p = g2 i p) ->
  _auto_paint_from_llm_multi tsub tlt tint tzero g1 self event current_time
  = _auto_paint_from_llm_multi tsub tlt tint tzero g2 self event current_time.
Proof.
  intros Hagree. unfold _auto_paint_from_llm_multi.
  destruct (_comfy_auto_painted event); [reflexivity|].
  destruct (_comfy_segments event) as [[|seg segs]|] eqn:Hsegs;
    [reflexivity| |reflexivity].
  destruct (multi_image_mode self); [|reflexivity].
  change (_check_access self (set_auto_painted event))
    with (_check_access self event).
  change (_check_cooldown tsub tlt tint tzero self (set_auto_painted event)
            current_time)
    with (_check_cooldown tsub tlt tint tzero self event current_time).
  destruct (_check_access self event) as [allowed reason] eqn:Ha.
  destruct allowed; cbn [negb]; [|reflexivity].
  pose proof (batch_policy_unchanged self event current_time) as Hpol.
  destruct (_check_cooldown tsub tlt tint tzero self event current_time)
    as [[ok remain] self'] eqn:Hc.
  destruct ok; cbn [negb]; [|reflexivity].
  cbn [fst snd] in *. do 2 f_equal.
  f_equal. apply deliver_ext.
  intros pair p i Hin Hp Ht Hnone. rewrite Hpol in Hnone.
  rewrite build_pairs_walk in Hin.
  apply (Hagree i p (seg :: segs) eq_refl
           (walk_pairs_prompt_segment _ _ _ _ Hin Hp)).
  - now destruct p.
  - reflexivity.
  - reflexivity.
  - unfold _auto_paint_from_llm_policy in Hnone.
    destruct (_check_sensitive self p event) as [passed sens].
    now destruct passed.
Qed.

(** X23. The multi-image branch, for an event that is not marked and holds
    segments: the event is marked, so that the handler does not take the
    branch for it again.  A refused access sends nothing and leaves the
    plugin as it was.  Otherwise the cooldown is checked once for the whole
    batch, whatever the number of its images: a check that fails sends the
    cooldown message alone and leaves the plugin as it was; after a check
    that passes, the batch sends at most one message for each prompt
    segment and one more. *)
Theorem batch_gate (generate : nat -> str -> Generated)
  (self : ComfyUIPlugin time) (event : AstrMessageEvent)
  (seg : Segment) (segs : list Segment) (current_time : time) :
  _comfy_auto_painted event = false ->
  _comfy_segments event = Some (seg :: segs) ->
  multi_image_mode self = true ->
  let access := _check_access self event in
  let cooldown :=
    _check_cooldown tsub tlt tint tzero self event current_time in
  exists (self' : ComfyUIPlugin time) (sent : list Sent),
    _auto_paint_from_llm_multi tsub tlt tint tzero generate self event
      current_time
    = Some (set_auto_painted event, self', sent)
    /\ (forall t : time,
          _auto_paint_from_llm_multi tsub tlt tint tzero generate self'
            (set_auto_painted event) t = None)
    /\ (access.1 = false -> self' = self /\ sent = [])
    /\ (access.1 = true ->
        self' = cooldown.2
        /\ (cooldown.1.1 = false ->
            self' = self
            /\ sent = [plain_result
                         (BATCH_COOLDOWN_OPEN ++ str_of_Z cooldown.1.2
                            ++ COOLDOWN_CLOSE)])
        /\ (cooldown.1.1 = true ->
            (List.length sent
             <= S (List.length (List.filter is_prompt (seg :: segs))))%nat)).
Proof.
  intros Hflag Hsegs Hmulti. cbv zeta.
  unfold _auto_paint_from_llm_multi at 1. rewrite Hflag, Hsegs, Hmulti.
  change (_check_access self (set_auto_painted event))
    with (_check_access self event).
  change (_check_cooldown tsub tlt tint tzero self (set_auto_painted event)
            current_time)
    with (_check_cooldown tsub tlt tint tzero self event current_time).
  destruct (_check_access self event) as [allowed reason] eqn:Ha.
  destruct allowed; cbn [negb fst snd].
  - pose proof (check_cooldown_failed tsub tlt tint tzero self event
                  current_time) as Hfail.
    destruct (_check_cooldown tsub tlt tint tzero self event current_time)
      as [[ok remain] self'] eqn:Hc.
    cbn [fst snd] in *. destruct ok; cbn [negb].
    + eexists _, _. split; [reflexivity|]. split; [reflexivity|].
      split; [discriminate|]. intros _. split; [reflexivity|].
      split; [discriminate|]. intros _.
      destruct (deliver_acc generate self' (set_auto_painted event)
                  (build_pairs (seg :: segs)) 0 []) as [_ Hlen].
      etransitivity; [exact Hlen|].
      rewrite build_pairs_walk. apply walk_pairs_length.
    + eexists _, _. split; [reflexivity|]. split; [reflexivity|].
      split; [discriminate|]. intros _. split; [reflexivity|].
      split; [|discriminate]. intros _. split; [now apply Hfail|reflexivity].
  - eexists _, _. split; [reflexivity|]. split; [reflexivity|].
    split; [now split|discriminate].
Qed.


Lemma deliver_cons (generate : nat -> str -> Generated)
  (self : ComfyUIPlugin time) (event : AstrMessageEvent)
  (pair : DeliveryPair) (pairs : list DeliveryPair) (st : nat * list Sent) :
  deliver generate self event (pair :: pairs) st
  = deliver generate self event pairs
      (deliver_step generate self event st pair).
Proof. reflexivity. Qed.

Lemma deliver_app (generate : nat -> str -> Generated)
  (self : ComfyUIPlugin time) (event : AstrMessageEvent)
  (pairs1 pairs2 : list DeliveryPair) (st : nat * list Sent) :
  deliver generate self event (pairs1 ++ pairs2) st
  = deliver generate self event pairs2
      (deliver generate self event pairs1 st).
Proof. unfold deliver. apply fold_left_app. Qed.

(** The rounds of the pairs of some chunks and prompts, when every prompt
    passes the content check and the backend gives an image for every
    request. *)
Lemma deliver_chunk_pairs (generate : nat -> str -> Generated)
  (image : nat -> str -> bytes) (self : ComfyUIPlugin time)
  (event : AstrMessageEvent) (chunks : list str) :
  (forall (i : nat) (p : str),
     generate i p = Returned (Some (image i p)) /\ image i p <> []) ->
  forall (prompts : list str) (n : nat),
    (forall p : str,
       In p prompts ->
       p <> [] /\ (_check_sensitive self p event).1 = true) ->
    (deliver generate self event (zip_with chunk_pair chunks prompts)
       (n, [])).2
    = imap (fun i cp =>
              chain_result
                (caption cp.1 ++ [Image (image (S (n + i)) cp.2)]))
        (zip chunks prompts).
Proof.
  intros Hgen. induction chunks as [|c chunks IH]; intros prompts n Hok.
  - reflexivity.
  - destruct prompts as [|p prompts]; [reflexivity|].
    cbn [zip_with]. rewrite deliver_cons.
    destruct (Hok p (or_introl eq_refl)) as [Hne Hpass].
    destruct (Hgen (S n) p) as [Hg Hdata].
    assert (Hstep : deliver_step generate self event (n, []) (chunk_pair c p)
                    = (S n, [chain_result
                               (caption c ++ [Image (image (S n) p)])])).
    { unfold deliver_step, chunk_pair, _auto_paint_from_llm_policy.
      cbn [prompt text truthy_opt fst snd].
      destruct p as [|ch p']; [now contradiction Hne|]. cbn [truthy].
      destruct (_check_sensitive self (ch :: p') event) as [passed sens].
      cbn [fst] in Hpass. subst passed. rewrite Hg.
      destruct (image (S n) (ch :: p')) as [|b bs] eqn:Hi;
        [now contradiction Hdata|].
      reflexivity. }
    rewrite Hstep.
    destruct (deliver_acc generate self event
                (zip_with chunk_pair chunks prompts) (S n)
                [chain_result (caption c ++ [Image (image (S n) p)])])
      as [Eacc _].
    rewrite Eacc, (IH prompts (S n)) by (intros q Hq; apply Hok; now right).
    cbn [imap app fst snd]. rewrite Nat.add_0_r. f_equal.
    apply imap_ext. intros i cp _. cbn. now rewrite Nat.add_succ_r.
Qed.

Lemma deliver_tail_pair (generate : nat -> str -> Generated)
  (self : ComfyUIPlugin time) (event : AstrMessageEvent) (tail : str)
  (n : nat) :
  (deliver generate self event (tail_pair tail) (n, [])).2
  = tail_message tail.
Proof.
  unfold tail_pair, tail_message, deliver.
  destruct (truthy (strip tail)) eqn:Ht; [|reflexivity].
  cbn [fold_left]. unfold deliver_step. cbn [prompt text truthy_opt].
  now rewrite Ht.
Qed.

(** X24. From the completion to the messages, in multi-image mode: for a
    completion with several tags that all hold a usable prompt, when
    access, cooldown and the content check of every prompt pass and the
    backend gives an image for every request, the branch sends one chain
    for each tag, in the order of the tags: the trimmed chunk before the
    tag (when it is not blank) and the image of the prompt, numbered from
    one; then the trimmed text after the last tag, when it is not blank. *)
Theorem batch_delivers_completion (generate : nat -> str -> Generated)
  (image : nat -> str -> bytes) (self : ComfyUIPlugin time)
  (event : AstrMessageEvent) (full_text : str) (current_time : time) :
  multi_image_mode self = true ->
  _comfy_auto_painted event = false ->
  (2 <= List.length (usable_prompts full_text))%nat ->
  List.length (usable_prompts full_text)
  = List.length (re_findall_tags full_text) ->
  (_check_access self event).1 = true ->
  (_check_cooldown tsub tlt tint tzero self event current_time).1.1 = true ->
  (forall p : str,
     In p (usable_prompts full_text) ->
     (_check_sensitive self p event).1 = true) ->
  (forall (i : nat) (p : str),
     generate i p = Returned (Some (image i p)) /\ image i p <> []) ->
  let event' := _extract_prompt_before_filter self event (Some full_text) in
  _auto_paint_from_llm_multi tsub tlt tint tzero generate self event'
    current_time
  = Some
      (set_auto_painted event',
       (_check_cooldown tsub tlt tint tzero self event current_time).2,
       imap (fun i cp =>
               chain_result (caption cp.1 ++ [Image (image (S i) cp.2)]))
         (zip (List.map fst (tag_matches full_text).1)
            (usable_prompts full_text))
       ++ tail_message (tag_matches full_text).2).
Proof.
  intros Hmulti Hflag Htwo Hall Haccess Hcool Hpass Hgen. cbv zeta.
  rewrite (extract_multi self event full_text Hmulti Htwo).
  set (segments := interleave (re_split_tags full_text)
                     (usable_prompts full_text)).
  assert (Hpairs : build_pairs segments
                   = zip_with chunk_pair
                       (List.map fst (tag_matches full_text).1)
                       (usable_prompts full_text)
                     ++ tail_pair (tag_matches full_text).2).
  { subst segments. rewrite build_pairs_walk. unfold re_split_tags.
    apply walk_pairs_interleave.
    rewrite Hall. unfold re_findall_tags. now rewrite !length_map. }
  unfold _auto_paint_from_llm_multi.
  change (_comfy_auto_painted (set_segments event segments))
    with (_comfy_auto_painted event).
  rewrite Hflag.
  change (_comfy_segments (set_segments event segments))
    with (Some segments).
  destruct segments as [|seg segs] eqn:Hsegs.
  { exfalso. cbn in Hpairs.
    destruct (usable_prompts full_text) as [|p1 ps]; [simpl in Htwo; lia|].
    destruct (List.map fst (tag_matches full_text).1) as [|c cs] eqn:Hc.
    - unfold re_findall_tags in Hall. rewrite length_map in Hall.
      rewrite <- (length_map fst), Hc in Hall. discriminate Hall.
    - discriminate Hpairs. }
  rewrite Hmulti.
  change (_check_access self
            (set_auto_painted (set_segments event (seg :: segs))))
    with (_check_access self event).
  change (_check_cooldown tsub tlt tint tzero self
            (set_auto_painted (set_segments event (seg :: segs)))
            current_time)
    with (_check_cooldown tsub tlt tint tzero self event current_time).
  destruct (_check_access self event) as [allowed reason].
  cbn [fst] in Haccess. subst allowed. cbn [negb].
  pose proof (fun p => batch_policy_unchanged self event current_time [] 0 p)
    as Hpol.
  destruct (_check_cooldown tsub tlt tint tzero self event current_time)
    as [[ok remain] self'].
  cbn [fst snd] in *. subst ok. cbn [negb]. do 2 f_equal.
  rewrite Hpairs, deliver_app.
  set (event' := set_auto_painted (set_segments event (seg :: segs))).
  set (chunk_pairs := zip_with chunk_pair
                        (List.map fst (tag_matches full_text).1)
                        (usable_prompts full_text)).
  destruct (deliver_acc generate self' event' chunk_pairs 0 []) as [E1 _].
  rewrite E1. cbn [app].
  destruct (deliver_acc generate self' event'
              (tail_pair (tag_matches full_text).2)
              (0 + prompt_count chunk_pairs)%nat
              (deliver generate self' event' chunk_pairs (0%nat, [])).2)
    as [E2 _].
  rewrite E2. cbn [snd]. rewrite deliver_tail_pair. f_equal.
  subst chunk_pairs event'.
  rewrite (deliver_chunk_pairs generate image).
  - reflexivity.
  - exact Hgen.
  - intros p Hp. split.
    + apply (usable_prompt_trimmed full_text p Hp).
    + specialize (Hpol p). specialize (Hpass p Hp).
      unfold _auto_paint_from_llm_policy in Hpol.
      change (_check_sensitive self' p
                (set_auto_painted (set_segments event (seg :: segs))))
        with (_check_sensitive self' p (set_auto_painted event)).
      destruct (_check_sensitive self' p (set_auto_painted event))
        as [passed sens].
      destruct (_check_sensitive self p event) as [passed0 sens0].
      cbn [fst] in *. subst passed0. now destruct passed.
Qed.

End BatchProofs.

Lemma backend_sees_only_cleared_prompts_witness :
  _auto_paint_from_llm_multi Qminus Qtime_lt Qtime_int 0%Q no_image_backend
    batch_plugin
    (set_segments (group_event (lit "u1") (lit "g1"))
       [MkSegment SegText (lit "look"); MkSegment SegPrompt (lit "a cat");
        MkSegment SegPrompt (lit "a dog")])
    1000%Q
  = _auto_paint_from_llm_multi Qminus Qtime_lt Qtime_int 0%Q raising_backend
      batch_plugin
      (set_segments (group_event (lit "u1") (lit "g1"))
         [MkSegment SegText (lit "look"); MkSegment SegPrompt (lit "a cat");
          MkSegment SegPrompt (lit "a dog")])
      1000%Q.
Proof.
  apply (backend_sees_only_cleared_prompts Q Qminus Qtime_lt Qtime_int 0%Q).
  intros i p segments _ _ _ _ _ Hpass.
  unfold no_image_backend, raising_backend.
  destruct (bool_decide_reflect (p = lit "a cat")) as [->|Hne];
    [|reflexivity].
  vm_compute in Hpass. discriminate Hpass.
Defined.

Lemma batch_gate_witness :
  exists (self' : ComfyUIPlugin Q) (sent : list Sent),
    _auto_paint_from_llm_multi Qminus Qtime_lt Qtime_int 0%Q index_backend
      batch_plugin
      (set_segments (group_event (lit "u1") (lit "g2"))
         [MkSegment SegPrompt (lit "a dog")])
      1000%Q
    = Some (set_auto_painted
              (set_segments (group_event (lit "u1") (lit "g2"))
                 [MkSegment SegPrompt (lit "a dog")]),
            self', sent)
    /\ self' = batch_plugin /\ sent = [].
Proof.
  destruct (batch_gate Q Qminus Qtime_lt Qtime_int 0%Q index_backend
              batch_plugin
              (set_segments (group_event (lit "u1") (lit "g2"))
                 [MkSegment SegPrompt (lit "a dog")])
              (MkSegment SegPrompt (lit "a dog")) [] 1000%Q
              eq_refl eq_refl eq_refl)
    as (self' & sent & Hrun & _ & Hrefused & _).
  exists self', sent. split; [exact Hrun|]. apply Hrefused.
  vm_compute. reflexivity.
Defined.

Lemma batch_delivers_completion_witness :
  _auto_paint_from_llm_multi Qminus Qtime_lt Qtime_int 0%Q index_backend
    batch_plugin
    (_extract_prompt_before_filter batch_plugin
       (group_event (lit "u1") (lit "g1")) (Some two_prompts_text))
    1000%Q
  = Some
      (set_auto_painted
         (_extract_prompt_before_filter batch_plugin
            (group_event (lit "u1") (lit "g1")) (Some two_prompts_text)),
       (_check_cooldown Qminus Qtime_lt Qtime_int 0%Q batch_plugin
          (group_event (lit "u1") (lit "g1")) 1000%Q).2,
       imap (fun i cp =>
               chain_result
                 (caption cp.1 ++ [Image (index_image (S i) cp.2)]))
         (zip (List.map fst (tag_matches two_prompts_text).1)
            (usable_prompts two_prompts_text))
       ++ tail_message (tag_matches two_prompts_text).2).
Proof.
  apply (batch_delivers_completion Q Qminus Qtime_lt Qtime_int 0%Q
           index_backend index_image batch_plugin
           (group_event (lit "u1") (lit "g1")) two_prompts_text 1000%Q).
  - reflexivity.
  - reflexivity.
  - vm_compute. lia.
  - reflexivity.
  - vm_compute. reflexivity.
  - vm_compute. reflexivity.
  - intros p Hp. vm_compute in Hp.
    destruct Hp as [<-|[<-|[]]]; vm_compute; reflexivity.
  - intros i p. split; [reflexivity|discriminate].
Defined.

(** ** System prompt *)

Lemma lstrip_by_length (f : char -> bool) (s : str) :
  (List.length (lstrip_by f s) <= List.length s)%nat.
Proof.
  induction s as [|c s IH]; simpl; [lia|].
  destruct (f c); simpl; lia.
Qed.

Lemma rstrip_by_length (f : char -> bool) (s : str) :
  (List.length (rstrip_by f s) <= List.length s)%nat.
Proof.
  unfold rstrip_by. rewrite length_rev.
  etransitivity; [apply lstrip_by_length|]. now rewrite length_rev.
Qed.

(** A string that trimming leaves as it is starts and ends with a
    character that is kept. *)
Lemma strip_by_fixed (f : char -> bool) (s : str) :
  strip_by f s = s -> lstrip_by f s = s /\ rstrip_by f s = s.
Proof.
  unfold strip_by. intros H.
  assert (Hl : lstrip_by f s = s).
  { destruct s as [|c r]; [reflexivity|]. simpl in *.
    destruct (f c); [|reflexivity]. exfalso.
    apply (f_equal (@List.length char)) in H.
    pose proof (rstrip_by_length f (lstrip_by f r)).
    pose proof (lstrip_by_length f r). simpl in H. unfold char, str in *. lia. }
  rewrite Hl in H. now split.
Qed.

Lemma lstrip_by_app (f : char -> bool) (a b : str) :
  b <> [] -> lstrip_by f b = b ->
  lstrip_by f (a ++ b) = lstrip_by f a ++ b.
Proof.
  intros Hne Hb. induction a as [|c a IH]; [exact Hb|].
  simpl. destruct (f c); [exact IH|reflexivity].
Qed.

Lemma rstrip_by_app (f : char -> bool) (a b : str) :
  b <> [] -> rstrip_by f b = b -> rstrip_by f (a ++ b) = a ++ b.
Proof.
  intros Hne Hb. unfold rstrip_by in *.
  rewrite rev_app_distr.
  assert (Hrev : lstrip_by f (List.rev b) = List.rev b).
  { apply (f_equal (@List.rev char)) in Hb.
    now rewrite rev_involutive in Hb. }
  destruct (List.rev b) as [|c r] eqn:Hr.
  - apply (f_equal (@List.rev char)) in Hr.
    rewrite rev_involutive in Hr. now contradiction Hne.
  - pose proof (lstrip_by_head f (c :: r) c r Hrev) as Hc.
    simpl. rewrite Hc.
    change (c :: r ++ List.rev a) with ((c :: r) ++ List.rev a).
    rewrite <- Hr, <- rev_app_distr. apply rev_involutive.
Qed.

(** Trimming a text that ends with a trimmed string keeps that string. *)
Lemma strip_app_trimmed (a b : str) :
  b <> [] -> strip b = b -> strip (a ++ b) = lstrip_by is_space a ++ b.
Proof.
  intros Hne Hb. unfold strip in *.
  destruct (strip_by_fixed is_space b Hb) as [Hl Hr].
  unfold strip_by. rewrite (lstrip_by_app is_space a b Hne Hl).
  now apply rstrip_by_app.
Qed.

Lemma occurs_suffix (needle before : str) :
  occurs needle (before ++ needle) = true.
Proof.
  unfold occurs.
  pose proof (find_lit_complete needle [] before) as H.
  rewrite app_nil_r in H.
  now destruct (find_lit needle (before ++ needle)).
Qed.

Lemma lstrip_by_app_kept (f : char -> bool) (a b : str) :
  lstrip_by f a <> [] -> lstrip_by f (a ++ b) = lstrip_by f a ++ b.
Proof.
  induction a as [|c a IH]; [intros H; now contradiction H|].
  simpl. destruct (f c); [exact IH|reflexivity].
Qed.

Lemma lstrip_by_app_dropped (f : char -> bool) (a b : str) :
  lstrip_by f a = [] -> lstrip_by f (a ++ b) = lstrip_by f b.
Proof.
  induction a as [|c a IH]; [reflexivity|].
  simpl. destruct (f c); [exact IH|discriminate].
Qed.

(** A string is blank when trimming it on the left leaves nothing. *)
Lemma strip_nil_lstrip (s : str) : strip s = [] <-> lstrip_by is_space s = [].
Proof.
  unfold strip, strip_by. split.
  - destruct (lstrip_by is_space s) as [|c r] eqn:Hl; [reflexivity|].
    pose proof (lstrip_by_head is_space s c r Hl) as Hc.
    pose proof (rstrip_by_cons is_space c r Hc) as E.
    unfold char in E. rewrite E. discriminate.
  - intros ->. reflexivity.
Qed.

(** X25. Injection of the configured system prompt: an empty prompt, or one
    that the system prompt of the request already holds, changes nothing.
    A prompt without white space at its ends that the request does not hold
    becomes the whole system prompt when the request has no system prompt
    or a blank one; otherwise it is put after the system prompt of the
    request, which keeps all but its leading white space, with two line
    feeds between them.  For such a prompt the request then holds it, and
    a second injection changes nothing. *)
Theorem system_prompt_injection (my_prompt : str)
  (system_prompt : option str) :
  let result := inject_system_prompt my_prompt system_prompt in
  let current := default [] system_prompt in
  (my_prompt = [] \/ occurs my_prompt current = true ->
   result = system_prompt)
  /\ (my_prompt <> [] -> strip my_prompt = my_prompt ->
      occurs my_prompt current = false ->
      (strip current = [] -> result = Some my_prompt)
      /\ (strip current <> [] ->
          result
          = Some (lstrip_by is_space current ++ [10; 10] ++ my_prompt)))
  /\ (my_prompt <> [] -> strip my_prompt = my_prompt ->
      exists r : str, result = Some r /\ occurs my_prompt r = true)
  /\ (strip my_prompt = my_prompt ->
      inject_system_prompt my_prompt result = result).
Proof.
  cbv zeta.
  assert (Hnoop : my_prompt = []
                  \/ occurs my_prompt (default [] system_prompt) = true ->
                  inject_system_prompt my_prompt system_prompt
                  = system_prompt).
  { unfold inject_system_prompt. intros [->|Hocc]; [reflexivity|].
    rewrite Hocc. now destruct (truthy my_prompt). }
  assert (Hnew : my_prompt <> [] -> strip my_prompt = my_prompt ->
                 occurs my_prompt (default [] system_prompt) = false ->
                 inject_system_prompt my_prompt system_prompt
                 = Some (lstrip_by is_space
                           (default [] system_prompt ++ [10; 10])
                           ++ my_prompt)).
  { unfold inject_system_prompt. intros Hne Htrim Hocc. rewrite Hocc.
    destruct my_prompt as [|c m]; [now contradiction Hne|].
    cbn [truthy negb].
    destruct (default [] system_prompt) as [|d cur] eqn:Hcur.
    - cbn [truthy]. now rewrite Htrim.
    - cbn [truthy]. f_equal.
      rewrite (app_assoc (d :: cur) [10; 10] (c :: m)).
      now apply strip_app_trimmed. }
  assert (Hholds : my_prompt <> [] -> strip my_prompt = my_prompt ->
                   exists r : str,
                     inject_system_prompt my_prompt system_prompt = Some r
                     /\ occurs my_prompt r = true).
  { intros Hne Htrim.
    destruct (occurs my_prompt (default [] system_prompt)) eqn:Hocc.
    - rewrite (Hnoop (or_intror eq_refl)).
      destruct system_prompt as [cur|].
      + exists cur. now split.
      + exfalso. destruct my_prompt; [now contradiction Hne|].
        discriminate Hocc.
    - rewrite (Hnew Hne Htrim eq_refl). eexists. split; [reflexivity|].
      apply occurs_suffix. }
  split; [exact Hnoop|]. split; [|split; [exact Hholds|]].
  - intros Hne Htrim Hocc. rewrite (Hnew Hne Htrim Hocc). split.
    + intros Hblank. apply strip_nil_lstrip in Hblank.
      rewrite (lstrip_by_app_dropped is_space _ [10; 10] Hblank).
      reflexivity.
    + intros Hfull.
      assert (Hl : lstrip_by is_space (default [] system_prompt) <> []).
      { intros Hl. apply Hfull. now apply strip_nil_lstrip. }
      rewrite (lstrip_by_app_kept is_space _ [10; 10] Hl).
      now rewrite <- app_assoc.
  - intros Htrim. destruct my_prompt as [|c m] eqn:Hm; [reflexivity|].
    destruct Hholds as (r & Hr & Hocc); [discriminate|exact Htrim|].
    rewrite Hr. unfold inject_system_prompt.
    cbn [truthy negb default from_option id].
    now rewrite Hocc.
Qed.

Lemma system_prompt_injection_witness :
  inject_system_prompt (lit "draw with tags")
    (Some (lit " You are a bot. "))
  = Some (lit "You are a bot. " ++ [10; 10] ++ lit "draw with tags").
Proof.
  exact (proj2 (proj1 (proj2 (system_prompt_injection (lit "draw with tags")
                                (Some (lit " You are a bot. "))))
                  ltac:(discriminate) eq_refl eq_refl)
           ltac:(discriminate)).
Defined.

(** Without system prompt, or with a blank one, the configured prompt is
    the whole system prompt: no line feed is put before it. *)
Example blank_system_prompt_is_replaced :
  inject_system_prompt (lit "x") None = Some (lit "x")
  /\ inject_system_prompt (lit "x") (Some (lit " ")) = Some (lit "x").
Proof. split; reflexivity. Qed.

(** A configured prompt with white space at an end is not found in the
    system prompt it was put in, and is put in again. *)
Example untrimmed_prompt_is_injected_again :
  inject_system_prompt (lit " x") None = Some (lit "x")
  /\ inject_system_prompt (lit " x") (Some (lit "x"))
     = Some (lit "x" ++ [10; 10] ++ lit " x").
Proof. split; reflexivity. Qed.

(** ** Step overrides *)

Section StepOverrideProofs.

Variable lower : str -> str.
Variable py_int : str -> option Z.
Variable V : Type.
Variable steps_entry : Z -> V.






End StepOverrideProofs.


(** A file that holds an array: setting an override raises, and so does
    removing a node the array holds as a string; removing a node it does
    not hold saves the array as it is. *)
Example array_file_is_never_changed :
  let run message :=
    cmd_comfy_add py_lower digits_int id tier_plugin
      (group_command (lit "admin") (lit "g1") message)
      true (lit "wf.json") (JsonArray [Some (lit "3839")] : Json Z) in
  run (lit "/comfy_add 3839 20") = AddRaises
  /\ run (lit "/comfy_add 3839 off") = AddRaises
  /\ run (lit "/comfy_add 4521 off")
     = AddSaved (JsonArray [Some (lit "3839")])
         (WORKFLOW_HEAD ++ lit "wf.json").
Proof. vm_compute. repeat split. Qed.
